(** * Sigourney audio nodes: a shallow embedding of [audio/proc.go]

    The nodes of [proc.go] (oscillators, combinators, envelope, clipper,
    sample-and-hold, fan-out) are embedded as Rocq functions, and the
    properties the specification states about them are proved or refuted.

    Conventions of the embedding.
    - A Go slice [[]Sample] is a [list] of samples.  A [Process] method
      mutates the slice it is given; here it returns the new contents.
    - A run-time panic (index out of range) is the result [None].
    - Each node first pulls its upstream inputs; the node functions below
      take the buffers those pulls produced as arguments.
    - The sample arithmetic is an interface ([SampleOps]); its instance
      [F64], IEEE-754 binary64, is what the program computes with.
      What holds in any arithmetic is proved over the interface; what
      depends on the values is proved of [F64], with the real number a
      binary64 number stands for where bounds are needed. *)

From Stdlib Require Import ZArith List Bool Lia Arith.
From Stdlib Require Import Reals Lra.
From Stdlib Require Import Floats.
Import ListNotations.

Set Implicit Arguments.

(* ================================================================== *)
(** * Sample arithmetic *)

(** The operations [proc.go] applies to [Sample] and [float64] values.
    [cst z] is the Go constant [z] converted to the sample type. *)
Class SampleOps (F : Type) : Type := {
  cst : Z -> F;
  f_add : F -> F -> F;
  f_sub : F -> F -> F;
  f_mul : F -> F -> F;
  f_div : F -> F -> F;
  f_gt : F -> F -> bool;
  f_lt : F -> F -> bool;
  f_ne : F -> F -> bool
}.

Declare Scope sample_scope.
Delimit Scope sample_scope with smp.
Notation "x + y" := (f_add x y) : sample_scope.
Notation "x - y" := (f_sub x y) : sample_scope.
Notation "x * y" := (f_mul x y) : sample_scope.
Notation "x / y" := (f_div x y) : sample_scope.
Notation "x >? y" := (f_gt x y) : sample_scope.
Notation "x <? y" := (f_lt x y) : sample_scope.
Notation "x !=? y" := (f_ne x y) (at level 70, no associativity) : sample_scope.

(** Modelled from the spec: the declaration of [Sample] is outside
    [proc.go]; the spec calls it "a single floating-point amplitude
    value", and [proc.go] converts it to and from [float64].  It is
    taken to be [float64]: binary64 arithmetic, round to nearest
    even. *)
#[export] Instance F64 : SampleOps float := {|
  cst z := SF2Prim (binary_normalize prec emax z 0 false);
  f_add := PrimFloat.add;
  f_sub := PrimFloat.sub;
  f_mul := PrimFloat.mul;
  f_div := PrimFloat.div;
  f_gt x y := PrimFloat.ltb y x;
  f_lt x y := PrimFloat.ltb x y;
  f_ne x y := negb (PrimFloat.eqb x y)
|}.

(* ================================================================== *)
(** * Buffers *)

Section Buffers.
Context {A : Type}.

(** [copy(dst, src)]: the first [min (len dst) (len src)] elements of
    [dst] are overwritten. *)
Definition copy (dst src : list A) : list A :=
  firstn (length dst) src ++ skipn (length src) dst.

(** [for i := range s { s[i] = f(s[i], m[i]) }]; reading [m[i]] past
    the end of [m] panics. *)
Fixpoint zip_range (f : A -> A -> A) (s m : list A) : option (list A) :=
  match s with
  | [] => Some []
  | si :: s' =>
      match m with
      | [] => None
      | mi :: m' =>
          match zip_range f s' m' with
          | Some r => Some (f si mi :: r)
          | None => None
          end
      end
  end.
End Buffers.

(* ================================================================== *)
(** * The nodes *)

Section Nodes.
Context {F : Type} {ops : SampleOps F}.
Local Open Scope sample_scope.

(** Constants and collaborators that [proc.go] uses and does not
    define: the sample rate, [fast.Exp2], [fast.Sin], [math.Pi], the
    trigger's edge detector (with whatever state it keeps) and the
    random generator behind [rand.Float64].  The sample rate is a
    value of the sample type; [waveHz/2] is computed in it (for an even
    integer rate this is Go's constant [waveHz/2]). *)
Variable waveHz : F.
Variable Exp2 : F -> F.
Variable Sin : F -> F.
Variable Pi : F.
Variable TrigSt : Type.
Variable isTrigger : TrigSt -> F -> bool * TrigSt.
Variable Rng : Type.
Variable Float64 : Rng -> F * Rng.

Definition sampleToHz (s : F) : F := cst 440 * Exp2 (s * cst 10).

(** ** Oscillators *)

(** The loop variables [p] and [hz] of both oscillators. *)
Record osc : Type := Osc { osc_p : F; osc_hz : F }.

(** [if s[i] != lastS { hz = sampleToHz(s[i]) }] *)
Definition pickHz (lastS si hz : F) : F :=
  if si !=? lastS then sampleToHz si else hz.

(** One iteration of the loop of [Square.Process]; [fire] is the
    result of [o.syn.isTrigger(t[i])]. *)
Definition square_step (lastS : F) (fire : bool) (si : F) (st : osc)
  : osc * F :=
  let p := if fire then cst 0 else osc_p st in
  let hz := pickHz lastS si (osc_hz st) in
  let p := p + hz in
  let p := if p >? waveHz then p - waveHz else p in
  (Osc p hz, if p >? waveHz / cst 2 then cst (-1) else cst 1).

(** One iteration of the loop of [Sin.Process]. *)
Definition sin_step (lastS : F) (fire : bool) (si : F) (st : osc)
  : osc * F :=
  let p := if fire then cst 0 else osc_p st in
  let hz := pickHz lastS si (osc_hz st) in
  let out := Sin (p * cst 2 * Pi) in
  let p := p + hz / waveHz in
  let p := if p >? cst 100 then p - cst 100 else p in
  (Osc p hz, out).

(** [for i := range s { ... }] of an oscillator with body [step]. *)
Fixpoint osc_loop (step : F -> bool -> F -> osc -> osc * F)
    (lastS : F) (ts : TrigSt) (st : osc) (s t : list F)
  : option (list F * osc * TrigSt) :=
  match s with
  | [] => Some ([], st, ts)
  | si :: s' =>
      match t with
      | [] => None
      | ti :: t' =>
          let (fire, ts1) := isTrigger ts ti in
          let (st1, o) := step lastS fire si st in
          match osc_loop step lastS ts1 st1 s' t' with
          | Some (out, st2, ts2) => Some (o :: out, st2, ts2)
          | None => None
          end
      end
  end.

(** A whole [Process] call of an oscillator: [pos] is [o.pos], [s]
    the buffer after [o.pitch.Process(s)], [t] the buffer
    [o.syn.Process()] returned.  [s[0]] is read before the loop. *)
Definition osc_Process (step : F -> bool -> F -> osc -> osc * F)
    (pos : F) (ts : TrigSt) (s t : list F)
  : option (list F * F * TrigSt) :=
  match s with
  | [] => None
  | s0 :: _ =>
      match osc_loop step s0 ts (Osc pos (sampleToHz s0)) s t with
      | Some (out, st, ts') => Some (out, osc_p st, ts')
      | None => None
      end
  end.

Definition Square_Process := osc_Process square_step.
Definition Sin_Process := osc_Process sin_step.

(** ** Combinators *)

(** [s] is the buffer after [a.a.Process(s)], [m] what
    [a.b.Process()] returned. *)
Definition Mul_Process (s m : list F) : option (list F) :=
  zip_range f_mul s m.

Definition Sum_Process (buf b : list F) : option (list F) :=
  zip_range f_add buf b.

(** ** Envelope *)

(** The level [v] and the flag [e.up]. *)
Record env : Type := Env { env_v : F; env_up : bool }.

(** [if !e.up { ... }]: entering attack, or decaying.  [d] is
    [dec[i]], absent when [i] is out of range; it is read only in the
    decay branch. *)
Definition env_select (fire : bool) (g : F) (d : option F) (e : env)
  : option env :=
  if negb (env_up e) then
    if fire || (env_v e <? g) then Some (Env (env_v e) true)
    else if env_v e >? g then
      match d with
      | None => None
      | Some d =>
          Some (if d >? cst 0
                then Env (env_v e - cst 1 / (d * waveHz * cst 10)) (env_up e)
                else e)
      end
    else Some e
  else Some e.

(** [if e.up { if a := att[i]; a > 0 { v += ... } }] *)
Definition env_attack (a : option F) (e : env) : option env :=
  if env_up e then
    match a with
    | None => None
    | Some a =>
        Some (if a >? cst 0
              then Env (env_v e + cst 1 / (a * waveHz * cst 10)) (env_up e)
              else e)
    end
  else Some e.

(** [if v > 1 { v = 1; e.up = false } else if v < 0 { v = 0 }] *)
Definition env_clamp (e : env) : env :=
  if env_v e >? cst 1 then Env (cst 1) false
  else if env_v e <? cst 0 then Env (cst 0) (env_up e)
  else e.

(** The level before the clamp: what the level "would be". *)
Definition env_raw (fire : bool) (g : F) (a d : option F) (e : env)
  : option env :=
  match env_select fire g d e with
  | Some e1 => env_attack a e1
  | None => None
  end.

(** One iteration of the loop of [Env.Process]; the sample written to
    [s[i]] is the level of the resulting state. *)
Definition env_step (fire : bool) (g : F) (a d : option F) (e : env)
  : option env :=
  match env_raw fire g a d e with
  | Some e2 => Some (env_clamp e2)
  | None => None
  end.

(** [Env.Process]: [s] is the gate buffer, [att], [dec] and [t] the
    buffers of the three secondary inputs. *)
Fixpoint Env_Process (ts : TrigSt) (e : env) (s att dec t : list F)
  : option (list F * env * TrigSt) :=
  match s with
  | [] => Some ([], e, ts)
  | g :: s' =>
      match t with
      | [] => None
      | ti :: t' =>
          let (fire, ts1) := isTrigger ts ti in
          match env_step fire g (hd_error att) (hd_error dec) e with
          | None => None
          | Some e1 =>
              match Env_Process ts1 e1 s' (tl att) (tl dec) t' with
              | Some (out, e2, ts2) => Some (env_v e1 :: out, e2, ts2)
              | None => None
              end
          end
      end
  end.

(** ** Clip and Value *)

Definition clip_sample (v : F) : F :=
  if v >? cst 1 then cst 1
  else if v <? cst (-1) then cst (-1)
  else v.

Definition Clip_Process (s : list F) : list F := map clip_sample s.

Definition Value_Process (v : F) (s : list F) : list F :=
  map (fun _ => v) s.

(** ** Rand *)

(** One iteration of the loop of [Rand.Process]: the new latched
    value (also the sample written) and the generator's state.  [mx]
    is [max[i]], read only on a trigger. *)
Definition rand_step (fire : bool) (si : F) (mx : option F) (v : F)
    (g : Rng) : option (F * Rng) :=
  if fire then
    match mx with
    | None => None
    | Some m => let (r, g') := Float64 g in Some (si + r * (m - si), g')
    end
  else Some (v, g).

Fixpoint Rand_loop (ts : TrigSt) (g : Rng) (v : F) (s mx t : list F)
  : option (list F * F * Rng * TrigSt) :=
  match s with
  | [] => Some ([], v, g, ts)
  | si :: s' =>
      match t with
      | [] => None
      | ti :: t' =>
          let (fire, ts1) := isTrigger ts ti in
          match rand_step fire si (hd_error mx) v g with
          | None => None
          | Some (v1, g1) =>
              match Rand_loop ts1 g1 v1 s' (tl mx) t' with
              | Some (out, v2, g2, ts2) => Some (v1 :: out, v2, g2, ts2)
              | None => None
              end
          end
      end
  end.

Definition Rand_Process := Rand_loop.
End Nodes.

(* ================================================================== *)
(** * The fan-out mechanism: [Dup] and [Output] *)

Module Fanout.
Section Fanout.
(** Samples are opaque here; [zero] is Go's zero value, with which
    [make] fills a new slice, and [nSamples] the block size, a
    constant [proc.go] uses and does not define. *)
Variable Sample : Type.
Variable zero : Sample.
Variable nSamples : nat.

(** The upstream nodes.  [Proc] names a [Processor] object, [Heap] is
    the state of all of them, and [run p h b] is [p.Process(b)] in
    heap [h]: the new heap and the values it writes.  A callee cannot
    resize the slice it is given, so what the slice holds afterwards
    is [copy b] of those values. *)
Variable Proc : Type.
Variable Heap : Type.
Variable run : Proc -> Heap -> list Sample -> Heap * list Sample.

Definition pull (p : Proc) (h : Heap) (b : list Sample)
  : Heap * list Sample :=
  let (h', r) := run p h b in (h', copy b r).

(** An [*Output] is known by its address. *)
Definition Output := nat.

Record Dup : Type := mkDup {
  src : Proc;
  outs : list Output;
  buf : option (list Sample);   (* [None] is the nil slice *)
  done : bool
  }.

(** The [Dup], the upstream heap, the next free address, and a log of
    the calls made to an upstream [Process] (most recent first). *)
Record World : Type := mkWorld {
  dup : Dup;
  heap : Heap;
  next : Output;
  log : list Proc
  }.

Definition NewDup (s : Proc) : Dup := mkDup s [] None false.

Definition Tick (d : Dup) : Dup :=
  mkDup (src d) (outs d) (buf d) false.

Definition SetSource (p : Proc) (d : Dup) : Dup :=
  mkDup p (outs d) (buf d) (done d).

(** [Dup.Output]: the new handle is appended; the scratch buffer is
    allocated when a second handle appears. *)
Definition Dup_Output (o : Output) (d : Dup) : Dup :=
  let outs' := outs d ++ [o] in
  mkDup (src d) outs'
    (if (1 <? length outs')%nat
     then match buf d with
          | None => Some (repeat zero nSamples)
          | Some b => Some b
          end
     else buf d)
    (done d).

Definition scratch (d : Dup) : list Sample :=
  match buf d with Some b => b | None => [] end.

(** [Output.Process(p)]: the world afterwards and the contents of
    [p] afterwards.  The method does not look at the handle, only at
    its [Dup]. *)
Definition Output_Process (p : list Sample) (w : World)
  : World * list Sample :=
  let d := dup w in
  if (length (outs d) =? 1)%nat then
    if negb (done d) then
      let (h', p') := pull (src d) (heap w) p in
      (mkWorld (mkDup (src d) (outs d) (buf d) true) h' (next w)
         (src d :: log w), p')
    else (w, p)
  else
    if negb (done d) then
      let (h', b') := pull (src d) (heap w) (scratch d) in
      let d' := mkDup (src d) (outs d)
                  (match buf d with Some _ => Some b' | None => None end)
                  true in
      (mkWorld d' h' (next w) (src d :: log w), copy p b')
    else (w, copy p (scratch d)).

(** The index of the first element of [l] equal to [o]. *)
Fixpoint index_of (o : Output) (l : list Output) : option nat :=
  match l with
  | [] => None
  | o2 :: l' =>
      if (o =? o2)%nat then Some 0%nat
      else match index_of o l' with
           | Some i => Some (S i)
           | None => None
           end
  end.

(** [Output.Close]: at the first index [i] holding the handle,
    [copy(outs[i:], outs[i+1:])] and the slice loses its last
    element. *)
Definition Output_Close (o : Output) (d : Dup) : Dup :=
  match index_of o (outs d) with
  | Some i =>
      let l := outs d in
      let shifted := firstn i l ++ copy (skipn i l) (skipn (S i) l) in
      mkDup (src d) (firstn (length l - 1) shifted) (buf d) (done d)
  | None => d
  end.

(** What a host can do with a [Dup] and its handles. *)
Inductive op : Type :=
| OpTick
| OpSetSource (p : Proc)
| OpOutput
| OpProcess (o : Output) (p : list Sample)
| OpClose (o : Output).

Definition on_dup (f : Dup -> Dup) (w : World) : World :=
  mkWorld (f (dup w)) (heap w) (next w) (log w).

(** One operation; for [OpProcess] also the caller's buffer
    afterwards. *)
Definition step (w : World) (c : op) : World * option (list Sample) :=
  match c with
  | OpTick => (on_dup Tick w, None)
  | OpSetSource p => (on_dup (SetSource p) w, None)
  | OpOutput =>
      (mkWorld (Dup_Output (next w) (dup w)) (heap w) (S (next w)) (log w),
       None)
  | OpProcess _ p => let (w', p') := Output_Process p w in (w', Some p')
  | OpClose o => (on_dup (Output_Close o) w, None)
  end.

(** A sequence of operations; the buffers the [OpProcess] calls
    delivered, in order. *)
Fixpoint steps (w : World) (cs : list op) : World * list (list Sample) :=
  match cs with
  | [] => (w, [])
  | c :: cs' =>
      let (w1, r) := step w c in
      let (w2, rs) := steps w1 cs' in
      (w2, match r with Some b => b :: rs | None => rs end)
  end.

Definition is_tick (c : op) : bool :=
  match c with OpTick => true | _ => false end.

Definition init (s : Proc) (h : Heap) : World :=
  mkWorld (NewDup s) h 0%nat [].

(** The worlds a host can reach from [NewDup]. *)
Definition reachable (w : World) : Prop :=
  exists s h cs, w = fst (steps (init s h) cs).

(** Once allocated, the scratch buffer has the block size; it is
  allocated as soon as two handles are registered. *)
Definition buf_ok (d : Dup) : Prop :=
  match buf d with
  | Some b => length b = nSamples
  | None => (length (outs d) <= 1)%nat
  end.

(** What holds of every reachable world: the scratch buffer is as
  above, and the registered handles are distinct, allocated
  addresses. *)
Definition inv (w : World) : Prop :=
  buf_ok (dup w) /\ NoDup (outs (dup w)) /\
  Forall (fun o => (o < next w)%nat) (outs (dup w)).
End Fanout.

Arguments OpTick {Sample Proc}.
Arguments OpSetSource {Sample Proc} p.
Arguments OpOutput {Sample Proc}.
Arguments OpProcess {Sample Proc} o p.
Arguments OpClose {Sample Proc} o.
Arguments init {Sample Proc Heap} s h.

(** The pulls of one tick, each an [Output.Process] call: the handle
    and the caller's buffer. *)
Definition pulls_ops {Sample Proc : Type}
    (calls : list (Output * list Sample)) : list (op Sample Proc) :=
  map (fun c => OpProcess (fst c) (snd c)) calls.

(** The operations that leave the consumer set alone. *)
Definition keeps_outs {Sample Proc : Type} (c : op Sample Proc) : bool :=
  match c with
  | OpTick | OpProcess _ _ | OpSetSource _ => true
  | OpOutput | OpClose _ => false
  end.
End Fanout.

(* ================================================================== *)
(** * Reference collaborators

    Concrete stand-ins for what [proc.go] imports, used where a
    statement is evaluated on an explicit input. *)

(** Modelled from the spec: the trigger's edge detector is outside
    [proc.go]; "a sample is a trigger event when the signal transitions
    from non-positive to positive at that index".  Its state is the
    previous sample. *)
Definition edge_isTrigger {F : Type} {ops : SampleOps F} (last x : F)
  : bool * F :=
  (negb (last >? cst 0)%smp && (x >? cst 0)%smp, x).

(** A generator that replays a script of draws, and draws 0 once the
    script is used up: [rand.Float64] with its results made explicit. *)
Definition script_Float64 {F : Type} {ops : SampleOps F} (g : list F)
  : F * list F :=
  match g with
  | r :: g' => (r, g')
  | [] => (cst 0, [])
  end.

(** A generator that alternates between the draws 1/4 and
    [1 - 2^-53], the largest number below 1; its state counts the
    draws. *)
Definition alt_Float64 (g : nat) : float * nat :=
  (if Nat.even g then 0x1p-2%float else 0x1.fffffffffffffp-1%float, S g).

(** The largest integer not above a finite binary64 number. *)
Definition floorZ (x : float) : Z :=
  match Prim2SF x with
  | S754_finite s m e => Z.shiftl (cond_Zopp s (Zpos m)) e
  | _ => 0
  end.

(** [1 + t/i (1 + t/(i+1) (1 + ...))], [k] terms: the exponential
    series in Horner form. *)
Fixpoint exp_series (k : nat) (t i : float) : float :=
  match k with
  | O => 1
  | S k' => 1 + t / i * exp_series k' t (i + 1)
  end%float.

(** Modelled from the spec: [fast.Exp2] is outside [proc.go]; the spec
    asks for [2^x], "within audio-imperceptible tolerance".  The integer
    part of [x] goes to the exponent, the fraction through the series;
    at an integer [x] the result is the exact power of two. *)
Definition exp2_ref (x : float) : float :=
  match Prim2SF x with
  | S754_nan => nan
  | S754_infinity false => infinity
  | S754_infinity true => 0
  | _ =>
      let n := floorZ x in
      Z.ldexp (exp_series 14 ((x - cst n) * 0x1.62e42fefa39efp-1) 1) n
  end%float.

(** The classifications [isTrigger] gives, in order, to the samples of
    a trigger buffer: [nth i (fired isTrigger ts t)] says whether sample
    [i] is a trigger event. *)
Fixpoint fired {F TrigSt : Type} (isTrigger : TrigSt -> F -> bool * TrigSt)
    (ts : TrigSt) (t : list F) : list bool :=
  match t with
  | [] => []
  | ti :: t' => let (f, ts1) := isTrigger ts ti in f :: fired isTrigger ts1 t'
  end.

(** The spec's square wave, on integer phases (phases counted in
    units of some [2^k]).  A phase [x] is wrapped modulo [W] into
    [[1, W]]; the wave is [+1] on the first half of the wrap period and
    [-1] on the second. *)
Definition wrap_phase (W x : Z) : Z := ((x - 1) mod W + 1)%Z.

Definition ideal_square (W x : Z) : Z :=
  if (2 * wrap_phase W x <=? W)%Z then 1%Z else (-1)%Z.

(** [n] samples of the wave that starts at phase [x] and advances by
    [hz] per sample: sample [i] is taken at phase [x + (i+1) hz]. *)
Definition ideal_wave (W hz x : Z) (n : nat) : list Z :=
  map (fun i => ideal_square W (x + Z.of_nat (S i) * hz)%Z) (seq 0 n).

(** [lo <= v <= hi] in binary64; false when [v] is NaN. *)
Definition in_range (lo hi v : float) : bool :=
  ((lo <=? v) && (v <=? hi))%float.

(** [lo <= v < hi] in binary64; false when [v] is NaN. *)
Definition in_half_open (lo hi v : float) : bool :=
  ((lo <=? v) && (v <? hi))%float.

(** A zero or a finite non-zero number: neither NaN nor an infinity. *)
Definition SF_finite (x : spec_float) : bool :=
  match x with
  | S754_zero _ | S754_finite _ _ _ => true
  | _ => false
  end.

(** An upstream node for the fan-out examples, over [nat] samples: a
    ramp that continues where the last call stopped, offset by the
    name of the node; the heap is the position of the ramp. *)
Definition ramp_run (p h : nat) (b : list nat) : nat * list nat :=
  ((h + length b)%nat, map (fun i => (p + h + i)%nat) (seq 0 (length b))).

(** The value of the loop variable [hz] after the iterations over [s],
    starting from [hz0]: the Hz in use at the last sample of [s]. *)
Definition hz_after {F : Type} {ops : SampleOps F} (Exp2 : F -> F)
    (lastS hz0 : F) (s : list F) : F :=
  fold_left (fun hz si => pickHz Exp2 lastS si hz) s hz0.

(** A sample is one of the two levels of the square wave. *)
Definition is_pm1 {F : Type} {ops : SampleOps F} (x : F) : Prop :=
  x = cst 1 \/ x = cst (-1).

(** The sample of [s] whose Hz the loop of an oscillator holds after a
    block: the most recent one that differs from [lastS], or [lastS]
    itself when no sample does. *)
Definition last_change {F : Type} {ops : SampleOps F} (lastS : F)
    (s : list F) : F :=
  last (filter (fun si => (si !=? lastS)%smp) s) lastS.

(** The number of trigger events among the classifications [l]. *)
Definition count_fired (l : list bool) : nat :=
  length (filter (fun b => b) l).

(** The state of the generator after [k] calls of [Float64]. *)
Definition draws {F Rng : Type} (Float64 : Rng -> F * Rng) (k : nat)
    (g : Rng) : Rng :=
  Nat.iter k (fun g => snd (Float64 g)) g.

(** The operations that are an [Output.Process] call. *)
Definition is_pull {Sample Proc : Type} (c : Fanout.op Sample Proc) : bool :=
  match c with
  | Fanout.OpProcess _ _ => true
  | _ => false
  end.

(** ** The real numbers binary64 stands for *)

(** [2^e], for an integer [e] of either sign. *)
Definition pow2 (e : Z) : R := powerRZ 2 e.

(** [m * 2^e] *)
Definition F2R (m e : Z) : R := (IZR m * pow2 e)%R.

(** The real number a binary64 number stands for; 0 for the infinities
    and NaN. *)
Definition B2R (x : spec_float) : R :=
  match x with
  | S754_finite s m e => F2R (cond_Zopp s (Zpos m)) e
  | _ => 0%R
  end.

Definition f64R (x : float) : R := B2R (Prim2SF x).

(** What [binary_round_aux] returns for the mantissa [M] and the
    exponent [E] it has arrived at. *)
Definition SFmake (s : bool) (M E : Z) : spec_float :=
  match M with
  | Z0 => S754_zero s
  | Zpos p => if (E <=? emax - prec)%Z then S754_finite s p E
              else S754_infinity s
  | Zneg _ => S754_nan
  end.

(** The real numbers binary64 has a finite number for:
    [M * 2^E] with a mantissa of at most 53 bits and an exponent in
    range. *)
Definition format (z : R) : Prop :=
  exists M E, z = F2R M E /\ (Z.abs M < 2 ^ 53)%Z /\ (-1074 <= E <= 971)%Z.

(** [r] is a rounding of the positive real number [x], with sign [s]:
    it lies between the numbers of the format around [x], and is the
    lower one when [x] is below the middle of the two.  This is what
    the operations of [SpecFloat] guarantee of the numbers they
    return. *)
Definition rounds (r : spec_float) (s : bool) (x : R) : Prop :=
  exists M E,
    r = SFmake s M E /\
    (0 <= M < 2 ^ 53)%Z /\ (-1074 <= E)%Z /\ (-1074 < E -> 2 ^ 52 <= M)%Z /\
    (forall Mz Ez, (0 <= Mz < 2 ^ 53)%Z -> (-1074 <= Ez)%Z ->
       (x <= F2R Mz Ez)%R -> (F2R M E <= F2R Mz Ez)%R) /\
    (forall Mz Ez, (0 <= Mz < 2 ^ 53)%Z -> (-1074 <= Ez)%Z ->
       (F2R Mz Ez <= x)%R -> (F2R Mz Ez <= F2R M E)%R) /\
    (forall Mz Ez, (2 ^ 52 <= Mz < 2 ^ 53)%Z -> (-1074 <= Ez)%Z ->
       (F2R Mz Ez <= x)%R -> (2 * (x - F2R Mz Ez) < pow2 Ez)%R ->
       F2R M E = F2R Mz Ez).

(** [x] is the finite binary64 number [z * 2^k]. *)
Definition dyadic (k z : Z) (x : float) : bool :=
  match Prim2SF x with
  | S754_zero _ => (z =? 0)%Z
  | S754_finite s m e =>
      if (e <=? k)%Z then (cond_Zopp s (Zpos m) =? z * 2 ^ (k - e))%Z
      else (cond_Zopp s (Zpos m) * 2 ^ (e - k) =? z)%Z
  | _ => false
  end.

(* ================================================================== *)
(** * Oscillators: facts that hold in any arithmetic *)

Section OscFacts.
Context {F : Type} {ops : SampleOps F}.
Variable waveHz : F.
Variable Exp2 : F -> F.
Variable Sin : F -> F.
Variable Pi : F.
Variable TrigSt : Type.
Variable isTrigger : TrigSt -> F -> bool * TrigSt.

Local Abbreviation loop := (osc_loop isTrigger).
Local Abbreviation sq := (square_step waveHz Exp2).
Local Abbreviation sn := (sin_step waveHz Exp2 Sin Pi).

(** The loop runs to its end when the trigger buffer is long enough. *)
Lemma osc_loop_total step lastS s :
  forall t ts st, (length s <= length t)%nat ->
  exists out st' ts',
    loop step lastS ts st s t = Some (out, st', ts') /\
    length out = length s.
Proof.
  induction s as [|si s IH]; intros t ts st Hlen.
  - exists [], st, ts. split; reflexivity.
  - destruct t as [|ti t]; [simpl in Hlen; lia|].
    simpl. destruct (isTrigger ts ti) as [fire ts1].
    destruct (step lastS fire si st) as [st1 o].
    destruct (IH t ts1 st1) as (out & st' & ts' & E & L).
    { simpl in Hlen. lia. }
    rewrite E. exists (o :: out), st', ts'. split; [reflexivity|].
    simpl. now rewrite L.
Qed.

(** It panics when the trigger buffer is too short. *)
Lemma osc_loop_panics step lastS s :
  forall t ts st, (length t < length s)%nat ->
  loop step lastS ts st s t = None.
Proof.
  induction s as [|si s IH]; intros t ts st Hlen; [simpl in Hlen; lia|].
  destruct t as [|ti t]; [reflexivity|].
  simpl. destruct (isTrigger ts ti) as [fire ts1].
  destruct (step lastS fire si st) as [st1 o].
  rewrite IH; [reflexivity | simpl in Hlen; lia].
Qed.

(** A property of every sample a step writes holds of the whole
    output. *)
Lemma osc_loop_Forall (P : F -> Prop) step lastS
    (Hstep : forall fire si st, P (snd (step lastS fire si st))) s :
  forall t ts st out st' ts',
  loop step lastS ts st s t = Some (out, st', ts') -> Forall P out.
Proof.
  induction s as [|si s IH]; intros t ts st out st' ts' E.
  - inversion E. constructor.
  - destruct t as [|ti t]; [discriminate|].
    simpl in E. destruct (isTrigger ts ti) as [fire ts1].
    pose proof (Hstep fire si st) as Hs.
    destruct (step lastS fire si st) as [st1 o].
    destruct (loop step lastS ts1 st1 s t) as [[[out1 st2] ts2]|] eqn:E1;
      [|discriminate].
    inversion E; subst. constructor; [exact Hs | eapply IH; eauto].
Qed.

(** The loop over [s1 ++ s2] is the loop over [s1] followed by the loop
    over [s2]. *)
Lemma osc_loop_app step lastS s1 :
  forall s2 t ts st out1 st1 ts1,
  loop step lastS ts st s1 (firstn (length s1) t) = Some (out1, st1, ts1) ->
  loop step lastS ts st (s1 ++ s2) t =
    match loop step lastS ts1 st1 s2 (skipn (length s1) t) with
    | Some (out2, st2, ts2) => Some (out1 ++ out2, st2, ts2)
    | None => None
    end.
Proof.
  induction s1 as [|si s1 IH]; intros s2 t ts st out1 st1 ts1 E.
  - simpl in E. inversion E; subst. simpl.
    destruct (loop step lastS ts1 st1 s2 t) as [[[o2 st2] ts2]|]; reflexivity.
  - destruct t as [|ti t]; [discriminate|].
    simpl in E |- *. destruct (isTrigger ts ti) as [fire ts'].
    destruct (step lastS fire si st) as [st' o].
    destruct (loop step lastS ts' st' s1 (firstn (length s1) t))
      as [[[o1 st1'] ts1']|] eqn:E1; [|discriminate].
    inversion E; subst. rewrite (IH s2 t ts' st' o1 st1 ts1 E1).
    destruct (loop step lastS ts1 st1 s2 (skipn (length s1) t))
      as [[[o2 st2] ts2]|]; reflexivity.
Qed.

Lemma square_step_pm1 lastS fire si st :
  is_pm1 (snd (sq lastS fire si st)).
Proof.
  unfold square_step, is_pm1. cbn [snd].
  match goal with |- context [if ?c then cst (-1) else cst 1] =>
    destruct c end; auto.
Qed.

(** In both oscillators the variable [hz] follows [pickHz], whatever
    the phase and the triggers do. *)
Lemma osc_loop_hz step lastS
    (Hstep : forall fire si st,
       osc_hz (fst (step lastS fire si st)) = pickHz Exp2 lastS si (osc_hz st))
    s :
  forall t ts st out st' ts',
  loop step lastS ts st s t = Some (out, st', ts') ->
  osc_hz st' = hz_after Exp2 lastS (osc_hz st) s.
Proof.
  induction s as [|si s IH]; intros t ts st out st' ts' E.
  - inversion E; subst. reflexivity.
  - destruct t as [|ti t]; [discriminate|].
    simpl in E. destruct (isTrigger ts ti) as [fire ts1].
    pose proof (Hstep fire si st) as Hs.
    destruct (step lastS fire si st) as [st1 o].
    destruct (loop step lastS ts1 st1 s t) as [[[out1 st2] ts2]|] eqn:E1;
      [|discriminate].
    inversion E; subst. simpl in Hs.
    rewrite (IH _ _ _ _ _ _ E1). unfold hz_after. simpl. now rewrite Hs.
Qed.

Lemma square_step_hz lastS fire si st :
  osc_hz (fst (sq lastS fire si st)) = pickHz Exp2 lastS si (osc_hz st).
Proof. reflexivity. Qed.

Lemma sin_step_hz lastS fire si st :
  osc_hz (fst (sn lastS fire si st)) = pickHz Exp2 lastS si (osc_hz st).
Proof. reflexivity. Qed.

(** What the code does with [hz]: at the sample after [s], with value
    [si], the Hz is recomputed when [si] differs from [lastS], the
    first sample of the block, and kept otherwise. *)
Lemma hz_after_snoc lastS hz0 s si :
  hz_after Exp2 lastS hz0 (s ++ [si]) =
  if (si !=? lastS)%smp then sampleToHz Exp2 si
  else hz_after Exp2 lastS hz0 s.
Proof. unfold hz_after. rewrite fold_left_app. reflexivity. Qed.

(** C10. [Square.Process] on a non-empty pitch buffer [s] and a trigger
    buffer at least as long returns, and every sample it writes is
    exactly [1] or exactly [-1], for every pitch buffer, every phase
    carried in and every behaviour of the trigger. *)
Theorem Square_output_pm1 pos ts s t :
  s <> [] -> (length s <= length t)%nat ->
  exists out pos' ts',
    Square_Process waveHz Exp2 isTrigger pos ts s t = Some (out, pos', ts') /\
    length out = length s /\ Forall is_pm1 out.
Proof.
  intros Hne Hlen. unfold Square_Process, osc_Process.
  destruct s as [|s0 s']; [contradiction|].
  destruct (osc_loop_total sq s0 (s0 :: s') t ts
              (Osc pos (sampleToHz Exp2 s0)) Hlen)
    as (out & st' & ts' & E & L).
  rewrite E. exists out, (osc_p st'), ts'. repeat split; auto.
  eapply osc_loop_Forall; [|exact E]. intros. apply square_step_pm1.
Qed.
End OscFacts.

Lemma Square_output_pm1_witness :
  exists out pos' ts',
    Square_Process 44100%float exp2_ref edge_isTrigger 0%float 0%float
      [0; 1; nan; 0x1p-1]%float [0; 1; 0; infinity]%float
    = Some (out, pos', ts') /\
    length out = 4%nat /\ Forall is_pm1 out.
Proof.
  apply Square_output_pm1.
  - discriminate.
  - simpl. lia.
Defined.

(* ================================================================== *)
(** * The Hz cache of the oscillators *)

Section HzCache.
Context {F : Type} {ops : SampleOps F}.
Variable Exp2 : F -> F.

(** When the pitch leaves the value [a] it had at the first sample of
    the block and comes back to it, the Hz of the excursion stays in
    use: [lastS] is never assigned in the loop, so the comparison is
    with the first sample, not with the previous one. *)
Lemma hz_after_stale (a b : F) :
  (b !=? a)%smp = true -> (a !=? a)%smp = false ->
  hz_after Exp2 a (sampleToHz Exp2 a) [a; b; a] = sampleToHz Exp2 b.
Proof.
  intros Hb Ha. unfold hz_after, pickHz. simpl. now rewrite Ha, Hb.
Qed.
End HzCache.

(** C3. In binary64, with the pitch buffer [0; 0.1; 0]: both
    oscillators end the block with [hz = 880], the Hz of sample 1,
    although the pitch at sample 2 differs from the pitch at sample 1
    and its own Hz is 440; the square oscillator, started at phase 0
    with a silent trigger, ends at phase 440 + 880 + 880. *)
Theorem hz_not_recomputed_when_pitch_returns :
  forall (Sin : float -> float) (Pi : float) (TrigSt : Type)
         (isTrigger : TrigSt -> float -> bool * TrigSt)
         (ts : TrigSt) (pos t0 t1 t2 : float),
    let s := [0; 0x1.999999999999ap-4; 0]%float in
    (exists out st ts',
        osc_loop isTrigger (square_step 44100%float exp2_ref) 0%float ts
          (Osc pos (sampleToHz exp2_ref 0%float)) s [t0; t1; t2]
        = Some (out, st, ts') /\ osc_hz st = 880%float) /\
    (exists out st ts',
        osc_loop isTrigger (sin_step 44100%float exp2_ref Sin Pi) 0%float ts
          (Osc pos (sampleToHz exp2_ref 0%float)) s [t0; t1; t2]
        = Some (out, st, ts') /\ osc_hz st = 880%float) /\
    (0x1.999999999999ap-4%float !=? 0%float)%smp = true /\
    (0%float !=? 0x1.999999999999ap-4%float)%smp = true /\
    sampleToHz exp2_ref 0%float = 440%float /\
    sampleToHz exp2_ref 0x1.999999999999ap-4%float = 880%float /\
    Square_Process 44100%float exp2_ref edge_isTrigger 0%float 0%float
      s [0; 0; 0]%float
    = Some ([1; 1; 1]%float, 2200%float, 0%float).
Proof.
  intros Sin Pi TrigSt isTrigger ts pos t0 t1 t2 s.
  assert (Hhz : hz_after exp2_ref 0%float (sampleToHz exp2_ref 0%float) s
                = 880%float) by (vm_compute; reflexivity).
  split; [|split].
  - destruct (osc_loop_total isTrigger (square_step 44100%float exp2_ref)
                0%float s [t0; t1; t2] ts
                (Osc pos (sampleToHz exp2_ref 0%float)))
      as (out & st & ts' & E & _); [simpl; lia|].
    exists out, st, ts'. split; [exact E|].
    rewrite (osc_loop_hz exp2_ref isTrigger _ _
               (square_step_hz 44100%float exp2_ref 0%float) _ _ _ _ E).
    exact Hhz.
  - destruct (osc_loop_total isTrigger (sin_step 44100%float exp2_ref Sin Pi)
                0%float s [t0; t1; t2] ts
                (Osc pos (sampleToHz exp2_ref 0%float)))
      as (out & st & ts' & E & _); [simpl; lia|].
    exists out, st, ts'. split; [exact E|].
    rewrite (osc_loop_hz exp2_ref isTrigger _ _
               (sin_step_hz 44100%float exp2_ref Sin Pi 0%float) _ _ _ _ E).
    exact Hhz.
  - repeat split; vm_compute; reflexivity.
Qed.

(* ================================================================== *)
(** * Envelope: entering the attack phase *)

Section EnvAttack.
Context {F : Type} {ops : SampleOps F}.
Variable waveHz : F.
Local Open Scope sample_scope.

(** An iteration that starts in the attack phase skips the first
    [if]. *)
Lemma env_select_up fire g d v :
  env_select waveHz fire g d (Env v true) = Some (Env v true).
Proof. reflexivity. Qed.

(** C5. While the node is not attacking, a trigger event, or a gate
    value above the current level, switches it to the attack phase in
    that iteration and leaves the level as it is: the rest of the
    iteration (attack increment, clamp) runs exactly as from an
    attacking node with the same level, so the increment is added to
    the current level and not to 0. *)
Theorem env_trigger_enters_attack fire g a d v :
  fire = true \/ (v <? g) = true ->
  env_select waveHz fire g d (Env v false) = Some (Env v true) /\
  env_step waveHz fire g a d (Env v false)
    = env_step waveHz fire g a d (Env v true) /\
  (forall a0, a = Some a0 ->
     env_raw waveHz fire g a d (Env v false)
     = Some (Env (if a0 >? cst 0
                  then v + cst 1 / (a0 * waveHz * cst 10) else v) true)).
Proof.
  intros H.
  assert (E : env_select waveHz fire g d (Env v false) = Some (Env v true)).
  { unfold env_select. cbn [env_up env_v negb].
    destruct H as [-> | ->]; [reflexivity | now rewrite orb_true_r]. }
  split; [exact E|]. split.
  - unfold env_step, env_raw. now rewrite E, env_select_up.
  - intros a0 ->. unfold env_raw. rewrite E. unfold env_attack.
    cbn [env_up env_v]. now destruct (a0 >? cst 0).
Qed.
End EnvAttack.

Lemma env_trigger_enters_attack_witness :
  env_select 44100%float true 1%float None (Env 0x1p-1%float false)
    = Some (Env 0x1p-1%float true) /\
  env_step 44100%float true 1%float (Some 0x1p-10%float) None
      (Env 0x1p-1%float false)
    = env_step 44100%float true 1%float (Some 0x1p-10%float) None
        (Env 0x1p-1%float true) /\
  (forall a0, Some 0x1p-10%float = Some a0 ->
     env_raw 44100%float true 1%float (Some 0x1p-10%float) None
       (Env 0x1p-1%float false)
     = Some (Env (if (a0 >? cst 0)%smp
                  then (0x1p-1%float + cst 1 / (a0 * 44100%float * cst 10))%smp
                  else 0x1p-1%float) true)).
Proof.
  apply env_trigger_enters_attack. left. reflexivity.
Defined.

(* ================================================================== *)
(** * Buffers: [copy] *)

Section CopyFacts.
Context {A : Type}.

Lemma copy_length (dst src : list A) : length (copy dst src) = length dst.
Proof.
  unfold copy. rewrite length_app, length_firstn, length_skipn. lia.
Qed.

Lemma copy_same_length (dst src : list A) :
  length dst = length src -> copy dst src = src.
Proof.
  intros H. unfold copy. rewrite H, firstn_all, skipn_all2 by lia.
  apply app_nil_r.
Qed.

(** Shifting a slice down by one, as [Output.Close] does: the last
    element stays behind. *)
Lemma copy_shift (x : A) (l : list A) :
  firstn (length l) (copy (x :: l) l) = l.
Proof.
  unfold copy. rewrite firstn_app, firstn_firstn.
  replace (Nat.min (length l) (length (x :: l))) with (length l)
    by (cbn [length]; lia).
  rewrite firstn_all, length_firstn.
  replace (length l - Nat.min (length (x :: l)) (length l))%nat with 0%nat
    by (cbn [length]; lia).
  simpl. apply app_nil_r.
Qed.
End CopyFacts.

Unset Implicit Arguments.


(* ================================================================== *)
(** * The fan-out mechanism: one upstream evaluation per tick *)

Module FanoutFacts.
Import Fanout.

Section FanoutFacts.
Variable Sample : Type.
Variable zero : Sample.
Variable nSamples : nat.
Variable Proc : Type.
Variable Heap : Type.
Variable run : Proc -> Heap -> list Sample -> Heap * list Sample.

Local Abbreviation World := (World Sample Proc Heap).
Local Abbreviation op := (op Sample Proc).
Local Abbreviation step := (step zero nSamples run).
Local Abbreviation steps := (steps zero nSamples run).
Local Abbreviation reachable := (reachable zero nSamples run).
Local Abbreviation pull := (pull run).
Local Abbreviation buf_ok := (buf_ok nSamples).
Local Abbreviation inv := (inv nSamples).

Lemma pull_length p h b : length (snd (pull p h b)) = length b.
Proof.
  unfold Fanout.pull. destruct (run p h b) as [h' r]. apply copy_length.
Qed.

(** ** Sequences of operations *)

Lemma steps_app (w : World) (cs1 cs2 : list op) :
  steps w (cs1 ++ cs2) =
  (fst (steps (fst (steps w cs1)) cs2),
   snd (steps w cs1) ++ snd (steps (fst (steps w cs1)) cs2)).
Proof.
  revert w. induction cs1 as [|c cs1 IH]; intros w.
  - simpl. now destruct (steps w cs2).
  - simpl. destruct (step w c) as [w1 r]. rewrite IH.
    destruct (steps w1 cs1) as [w2 rs]. simpl.
    destruct r; reflexivity.
Qed.

Lemma reachable_steps (w : World) (cs : list op) :
  reachable w -> reachable (fst (steps w cs)).
Proof.
  intros (s & h & cs0 & ->). exists s, h, (cs0 ++ cs).
  now rewrite steps_app.
Qed.

(** ** The flag [done] *)

(** Outside [Tick], a set flag stays set and nothing is evaluated; a
    clear flag is set exactly when the upstream node is evaluated. *)
Lemma step_log (w : World) (c : op) :
  is_tick c = false ->
  (done (dup w) = true ->
     log (fst (step w c)) = log w /\ done (dup (fst (step w c))) = true) /\
  (done (dup w) = false ->
     (log (fst (step w c)) = log w /\ done (dup (fst (step w c))) = false) \/
     (exists p, log (fst (step w c)) = p :: log w /\
                done (dup (fst (step w c))) = true)).
Proof.
  intros Hc. destruct c as [|p| |o p|o]; try discriminate; simpl.
  - split; intros H; [|left]; auto.
  - split; intros H; [|left]; auto.
  - unfold Output_Process.
    destruct (length (outs (dup w)) =? 1)%nat;
      destruct (done (dup w)) eqn:D; simpl;
      try (split; [auto | discriminate]).
    + destruct (pull (src (dup w)) (heap w) p) as [h' p']. simpl.
      split; [discriminate|]. intros _. right. eauto.
    + destruct (pull (src (dup w)) (heap w) (scratch (dup w))) as [h' b'].
      simpl. split; [discriminate|]. intros _. right. eauto.
  - unfold Output_Close.
    destruct (index_of o (outs (dup w))); simpl;
      (split; intros H; [|left]; auto).
Qed.

Lemma steps_log_done (cs : list op) :
  forall w : World,
  forallb (fun c => negb (is_tick c)) cs = true ->
  done (dup w) = true ->
  log (fst (steps w cs)) = log w.
Proof.
  induction cs as [|c cs IH]; intros w Hcs D; [reflexivity|].
  simpl in Hcs. apply andb_true_iff in Hcs as [Hc Hcs].
  apply negb_true_iff in Hc.
  destruct (step_log w c Hc) as [H1 _]. destruct (H1 D) as [L D'].
  simpl. destruct (step w c) as [w1 r]. simpl in *.
  specialize (IH w1 Hcs D').
  destruct (steps w1 cs) as [w2 rs]. simpl in *. congruence.
Qed.

Lemma steps_log (cs : list op) :
  forall w : World,
  forallb (fun c => negb (is_tick c)) cs = true ->
  done (dup w) = false ->
  exists l, log (fst (steps w cs)) = l ++ log w /\ (length l <= 1)%nat.
Proof.
  induction cs as [|c cs IH]; intros w Hcs D.
  - exists []. split; [reflexivity | simpl; lia].
  - simpl in Hcs. apply andb_true_iff in Hcs as [Hc Hcs].
    apply negb_true_iff in Hc.
    destruct (step_log w c Hc) as [_ H2].
    pose proof (steps_log_done cs (fst (step w c)) Hcs) as Hd.
    specialize (IH (fst (step w c)) Hcs).
    simpl. destruct (step w c) as [w1 r]. simpl in *.
    destruct (steps w1 cs) as [w2 rs]. simpl in *.
    destruct (H2 D) as [[L D'] | (p & L & D')].
    + destruct (IH D') as (l & E & Hl). exists l. split; congruence.
    + exists [p]. split; [|simpl; lia]. rewrite (Hd D'). exact L.
Qed.

(** ** [Output.Close] on the slice of handles *)

Lemma index_of_split (o : Output) (l : list Output) :
  forall i, index_of o l = Some i ->
  exists l1 l2, l = l1 ++ o :: l2 /\ length l1 = i /\ ~ In o l1.
Proof.
  induction l as [|x l IH]; intros i E; [discriminate|].
  simpl in E. destruct (o =? x)%nat eqn:Ex.
  - apply Nat.eqb_eq in Ex. subst x. inversion E; subst.
    exists [], l. repeat split; auto.
  - destruct (index_of o l) as [j|]; [|discriminate]. inversion E; subst.
    destruct (IH j eq_refl) as (l1 & l2 & -> & L & N).
    exists (x :: l1), l2. repeat split; simpl; auto.
    intros [H | H]; [|contradiction].
    apply Nat.eqb_neq in Ex. congruence.
Qed.

Lemma index_of_In (o : Output) (l : list Output) :
  In o l -> exists i, index_of o l = Some i.
Proof.
  induction l as [|x l IH]; intros H; [contradiction|].
  simpl. destruct (o =? x)%nat eqn:Ex; [eauto|].
  destruct H as [H | H]; [apply Nat.eqb_neq in Ex; congruence|].
  destruct (IH H) as [i ->]. eauto.
Qed.

Lemma index_of_absent (o : Output) (l : list Output) :
  ~ In o l -> index_of o l = None.
Proof.
  induction l as [|x l IH]; intros H; [reflexivity|].
  simpl. destruct (o =? x)%nat eqn:Ex.
  - apply Nat.eqb_eq in Ex. subst. exfalso. apply H. now left.
  - rewrite IH; [reflexivity|]. intros H'. apply H. now right.
Qed.

(** The slice surgery of [Output.Close] at index [length l1]. *)
Lemma close_list (A : Type) (l1 : list A) (o : A) (l2 : list A) :
  firstn (length (l1 ++ o :: l2) - 1)
    (firstn (length l1) (l1 ++ o :: l2) ++
     copy (skipn (length l1) (l1 ++ o :: l2))
          (skipn (S (length l1)) (l1 ++ o :: l2))) = l1 ++ l2.
Proof.
  rewrite (firstn_app (length l1) l1), firstn_all, Nat.sub_diag, firstn_O, app_nil_r.
  rewrite skipn_app, skipn_all, Nat.sub_diag, skipn_O, app_nil_l.
  replace (skipn (S (length l1)) (l1 ++ o :: l2)) with l2.
  2:{ replace (l1 ++ o :: l2) with ((l1 ++ [o]) ++ l2)
        by (now rewrite <- app_assoc).
      replace (S (length l1)) with (length (l1 ++ [o]))
        by (rewrite length_app; simpl; lia).
      now rewrite skipn_app, skipn_all, Nat.sub_diag, skipn_O, app_nil_l. }
  rewrite length_app. cbn [length].
  replace (length l1 + S (length l2) - 1)%nat
    with (length l1 + length l2)%nat by lia.
  rewrite firstn_app, firstn_all2 by lia.
  replace (length l1 + length l2 - length l1)%nat with (length l2) by lia.
  now rewrite copy_shift.
Qed.

(** [Output.Close] takes the first occurrence of the handle out of the
    slice and keeps the order of the others. *)
Lemma Output_Close_outs (o : Output) (d : Dup Sample Proc) :
  In o (outs d) ->
  exists l1 l2, outs d = l1 ++ o :: l2 /\ ~ In o l1 /\
    Output_Close o d = mkDup (src d) (l1 ++ l2) (buf d) (done d).
Proof.
  intros H. destruct (index_of_In o (outs d) H) as [i E].
  destruct (index_of_split o (outs d) i E) as (l1 & l2 & El & Li & N).
  exists l1, l2. repeat split; auto.
  unfold Output_Close. rewrite E, El. subst i. now rewrite close_list.
Qed.

Lemma Output_Close_absent (o : Output) (d : Dup Sample Proc) :
  ~ In o (outs d) -> Output_Close o d = d.
Proof.
  intros H. unfold Output_Close. now rewrite index_of_absent.
Qed.

(** ** Reachable worlds satisfy the invariant *)

Lemma inv_step (w : World) (c : op) : inv w -> inv (fst (step w c)).
Proof.
  intros (B & N & L).
  destruct c as [|p| |o p|o]; cbn [Fanout.step fst]; unfold on_dup.
  - repeat split; auto.
  - repeat split; auto.
  - unfold Fanout.inv, Fanout.buf_ok in *. simpl. repeat split.
    + rewrite length_app. simpl.
      destruct (1 <? length (outs (dup w)) + 1)%nat eqn:E1.
      * destruct (buf (dup w)); [exact B | apply repeat_length].
      * apply Nat.ltb_ge in E1. destruct (buf (dup w)); [exact B | lia].
    + apply NoDup_app; [exact N | repeat constructor; auto | ].
      intros x Hx [<- | []]. rewrite Forall_forall in L.
      specialize (L _ Hx). lia.
    + apply Forall_app. split.
      * eapply Forall_impl; [|exact L]. simpl. intros. lia.
      * repeat constructor.
  - unfold Output_Process.
    destruct (length (outs (dup w)) =? 1)%nat; destruct (done (dup w));
      simpl; try (repeat split; assumption).
    + destruct (pull (src (dup w)) (heap w) p) as [h' p'].
      simpl. repeat split; assumption.
    + pose proof (pull_length (src (dup w)) (heap w) (scratch (dup w))) as PL.
      destruct (pull (src (dup w)) (heap w) (scratch (dup w))) as [h' b'].
      unfold Fanout.inv, Fanout.buf_ok, scratch in *. simpl in *. repeat split; auto.
      destruct (buf (dup w)); [congruence | exact B].
  - destruct (in_dec Nat.eq_dec o (outs (dup w))) as [Hin | Hout].
    + destruct (Output_Close_outs o (dup w) Hin) as (l1 & l2 & El & _ & ->).
      unfold Fanout.inv, Fanout.buf_ok in *. simpl. rewrite El in *. repeat split.
      * destruct (buf (dup w)); [exact B|].
        rewrite length_app in *. simpl in B. lia.
      * eapply NoDup_remove_1; eauto.
      * apply Forall_app in L as [L1 L2]. inversion L2; subst.
        apply Forall_app. split; assumption.
    + rewrite (Output_Close_absent o (dup w) Hout). repeat split; auto.
Qed.

Lemma inv_steps (cs : list op) :
  forall w : World, inv w -> inv (fst (steps w cs)).
Proof.
  induction cs as [|c cs IH]; intros w I; [exact I|].
  simpl. pose proof (inv_step w c I) as I1.
  destruct (step w c) as [w1 r]. specialize (IH w1 I1).
  now destruct (steps w1 cs).
Qed.

Lemma reachable_inv (w : World) : reachable w -> inv w.
Proof.
  intros (s & h & cs & ->). apply inv_steps.
  unfold Fanout.inv, Fanout.buf_ok. simpl. repeat split; [lia | constructor | constructor].
Qed.

(** ** What the pulls of one tick deliver *)

(** With the flag set and a scratch buffer of the block size, every
    pull copies the scratch buffer out and changes nothing. *)
Lemma pulls_after_first (calls : list (Output * list Sample)) :
  forall (w : World) (r : list Sample),
  (length (outs (dup w)) =? 1)%nat = false ->
  done (dup w) = true -> buf (dup w) = Some r -> length r = nSamples ->
  Forall (fun c => length (snd c) = nSamples) calls ->
  steps w (pulls_ops calls) = (w, map (fun _ => r) calls).
Proof.
  induction calls as [|[o p] calls IH]; intros w r M D B Lr Hc;
    [reflexivity|].
  apply Forall_cons_iff in Hc as [Hp Hc']. simpl in Hp.
  cbn [pulls_ops map fst snd Fanout.steps Fanout.step].
  unfold Output_Process. rewrite M, D. cbn [negb].
  unfold scratch. rewrite B.
  fold (@pulls_ops Sample Proc calls). rewrite (IH w r M D B Lr Hc').
  now rewrite copy_same_length by congruence.
Qed.

(** With more than one handle, the first pull of a tick evaluates the
    upstream node into the scratch buffer, and every pull of the tick
    delivers that one result. *)
Lemma pulls_multi (calls : list (Output * list Sample)) (w : World)
    (b : list Sample) :
  (1 < length (outs (dup w)))%nat ->
  buf (dup w) = Some b -> length b = nSamples ->
  Forall (fun c => length (snd c) = nSamples) calls ->
  snd (steps w (OpTick :: pulls_ops calls))
  = map (fun _ => snd (pull (src (dup w)) (heap w) b)) calls.
Proof.
  intros M B Lb Hc. destruct calls as [|[o p] calls]; [reflexivity|].
  apply Forall_cons_iff in Hc as [Hp Hc']. simpl in Hp.
  assert (M1 : (length (outs (dup w)) =? 1)%nat = false)
    by (apply Nat.eqb_neq; lia).
  cbn [pulls_ops map fst snd Fanout.steps Fanout.step].
  unfold Output_Process, on_dup, Tick. cbn [dup outs done src buf heap].
  rewrite M1. cbn [negb]. unfold scratch. cbn [buf]. rewrite B.
  pose proof (pull_length (src (dup w)) (heap w) b) as PL.
  destruct (pull (src (dup w)) (heap w) b) as [h' r]. cbn [snd] in *.
  fold (@pulls_ops Sample Proc calls).
  rewrite (pulls_after_first calls _ r); cbn [dup outs done buf];
    auto; try congruence.
  cbn [snd map]. now rewrite copy_same_length by congruence.
Qed.

(** With a single handle, its pull evaluates the upstream node straight
    into the caller's buffer. *)
Lemma pull_single (o : Output) (p : list Sample) (w : World) :
  length (outs (dup w)) = 1%nat ->
  snd (steps w (OpTick :: pulls_ops [(o, p)]))
  = [snd (pull (src (dup w)) (heap w) p)].
Proof.
  intros M. cbn [pulls_ops map fst snd Fanout.steps Fanout.step].
  unfold Output_Process, on_dup, Tick. cbn [dup outs done src buf heap].
  rewrite M. cbn [Nat.eqb negb].
  now destruct (pull (src (dup w)) (heap w) p) as [h' r].
Qed.

Lemma steps_tick_log (w : World) (cs : list op) :
  forallb (fun c => negb (is_tick c)) cs = true ->
  exists l, log (fst (steps w (OpTick :: cs))) = l ++ log w /\
            (length l <= 1)%nat.
Proof.
  intros Hcs.
  destruct (steps_log cs (fst (step w OpTick)) Hcs eq_refl) as (l & E & Hl).
  exists l. split; [|exact Hl]. cbn [Fanout.steps].
  destruct (step w OpTick) as [w1 r] eqn:E1. cbn [fst] in E.
  destruct (steps w1 cs) as [w2 rs]. cbn [fst] in *.
  rewrite E. now inversion E1.
Qed.

(** In a world that satisfies the invariant, handles that are pulled
    once each in a tick all receive one and the same upstream
    evaluation. *)
Lemma pulls_once_each (w : World) (calls : list (Output * list Sample)) :
  inv w -> NoDup (map fst calls) ->
  Forall (fun c => In (fst c) (outs (dup w)) /\ length (snd c) = nSamples)
    calls ->
  exists b0,
    snd (steps w (OpTick :: pulls_ops calls))
    = map (fun _ => snd (pull (src (dup w)) (heap w) b0)) calls.
Proof.
  intros (B & _ & _) ND Hc.
  assert (Hin : incl (map fst calls) (outs (dup w))).
  { intros x Hx. apply in_map_iff in Hx as (c & <- & Hc1).
    rewrite Forall_forall in Hc. now apply Hc. }
  assert (Hlen : Forall (fun c => length (snd c) = nSamples) calls).
  { eapply Forall_impl; [|exact Hc]. now intros c [_ H]. }
  pose proof (NoDup_incl_length ND Hin) as Hle. rewrite length_map in Hle.
  destruct (Nat.lt_ge_cases 1 (length (outs (dup w)))) as [M | M].
  - unfold Fanout.buf_ok in B. destruct (buf (dup w)) as [b|] eqn:Eb; [|lia].
    exists b. now apply pulls_multi.
  - destruct calls as [|[o p] [|c calls]]; [now exists [] | | simpl in Hle; lia].
    exists p. apply pull_single. simpl in Hle. lia.
Qed.

Lemma step_keeps_outs (w : World) (c : op) :
  keeps_outs c = true -> outs (dup (fst (step w c))) = outs (dup w).
Proof.
  destruct c as [|p| |o p|o]; try discriminate; intros _; try reflexivity.
  cbn [Fanout.step]. unfold Output_Process.
  destruct (length (outs (dup w)) =? 1)%nat; destruct (done (dup w));
    cbn [negb]; try reflexivity.
  - now destruct (pull (src (dup w)) (heap w) p).
  - now destruct (pull (src (dup w)) (heap w) (scratch (dup w))).
Qed.

Lemma steps_keep_outs (cs : list op) :
  forall w : World, forallb keeps_outs cs = true ->
  outs (dup (fst (steps w cs))) = outs (dup w).
Proof.
  induction cs as [|c cs IH]; intros w H; [reflexivity|].
  simpl in H. apply andb_true_iff in H as [Hc Hcs].
  pose proof (step_keeps_outs w c Hc) as E.
  cbn [Fanout.steps]. destruct (step w c) as [w1 r]. cbn [fst] in E.
  specialize (IH w1 Hcs). destruct (steps w1 cs) as [w2 rs].
  cbn [fst] in *. congruence.
Qed.

(** C1. In every world a host can reach: after [Tick], whatever
    operations other than [Tick] follow, on whichever handles, the
    upstream [Process] is called at most once; and when more than one
    handle is registered, every [Output.Process] call of the tick (on a
    buffer of the block size) leaves in the caller's buffer the result
    of the one evaluation of the upstream node into the scratch
    buffer. *)
Theorem Dup_one_evaluation_per_tick (w : World) :
  reachable w ->
  (forall cs, forallb (fun c => negb (is_tick c)) cs = true ->
     exists l, log (fst (steps w (OpTick :: cs))) = l ++ log w /\
               (length l <= 1)%nat) /\
  ((1 < length (outs (dup w)))%nat ->
   forall calls, Forall (fun c => length (snd c) = nSamples) calls ->
     exists b, buf (dup w) = Some b /\
       snd (steps w (OpTick :: pulls_ops calls))
       = map (fun _ => snd (pull (src (dup w)) (heap w) b)) calls).
Proof.
  intros R. split.
  - intros cs. apply steps_tick_log.
  - intros M calls Hc. destruct (reachable_inv w R) as (B & _ & _).
    unfold Fanout.buf_ok in B. destruct (buf (dup w)) as [b|] eqn:Eb; [|lia].
    exists b. split; [reflexivity|]. now apply pulls_multi.
Qed.

(** C7. [Output.Close] on a registered handle removes that handle and
    no other.  In every tick afterwards (the consumer set left alone),
    the upstream [Process] is called at most once, and the remaining
    handles, pulled once each on buffers of the block size, all receive
    the result of that one upstream evaluation. *)
Theorem Output_Close_keeps_contract (w : World) (o : Output) :
  reachable w -> In o (outs (dup w)) ->
  let w1 := fst (step w (OpClose o)) in
  (length (outs (dup w1)) = (length (outs (dup w)) - 1)%nat /\
   ~ In o (outs (dup w1)) /\
   (forall o', o' <> o -> In o' (outs (dup w1)) <-> In o' (outs (dup w)))) /\
  (forall hist, forallb keeps_outs hist = true ->
     let w2 := fst (steps w1 hist) in
     outs (dup w2) = outs (dup w1) /\
     (forall cs, forallb (fun c => negb (is_tick c)) cs = true ->
        exists l, log (fst (steps w2 (OpTick :: cs))) = l ++ log w2 /\
                  (length l <= 1)%nat) /\
     (forall calls, NoDup (map fst calls) ->
        Forall (fun c => In (fst c) (outs (dup w2)) /\
                         length (snd c) = nSamples) calls ->
        exists b0,
          snd (steps w2 (OpTick :: pulls_ops calls))
          = map (fun _ => snd (pull (src (dup w2)) (heap w2) b0)) calls)).
Proof.
  intros R Hin w1. split.
  - destruct (reachable_inv w R) as (_ & ND & _).
    destruct (Output_Close_outs o (dup w) Hin) as (l1 & l2 & El & N1 & Ec).
    subst w1. cbn [Fanout.step fst]. unfold on_dup. cbn [dup].
    rewrite Ec, El in *. cbn [outs].
    apply NoDup_remove_2 in ND.
    rewrite !length_app. cbn [length].
    split; [lia|]. split; [exact ND|].
    intros o' Hne. rewrite !in_app_iff. cbn [In].
    split; intros H'; [tauto|].
    destruct H' as [H' | [H' | H']]; [now left | congruence | now right].
  - intros hist Hh w2.
    assert (R2 : reachable w2).
    { subst w2 w1. apply reachable_steps.
      replace (fst (step w (OpClose o))) with (fst (steps w [OpClose o]))
        by reflexivity.
      now apply reachable_steps. }
    split; [now apply steps_keep_outs|]. split.
    + intros cs. apply steps_tick_log.
    + intros calls ND Hc. apply pulls_once_each; auto.
      now apply reachable_inv.
Qed.
End FanoutFacts.

Lemma Dup_one_evaluation_per_tick_witness :
  let w := fst (steps 0%nat 4 ramp_run (init 7%nat 100%nat)
                  [OpOutput; OpOutput; OpOutput]) in
  let p := [9; 9; 9; 9]%nat in
  (exists l,
      log (fst (steps 0%nat 4 ramp_run w
                  [OpTick; OpProcess 0%nat p; OpProcess 1%nat p;
                   OpClose 0%nat; OpProcess 1%nat p; OpSetSource 8%nat;
                   OpProcess 2%nat p]))
      = l ++ log w /\ (length l <= 1)%nat) /\
  (exists b, buf (dup w) = Some b /\
     snd (steps 0%nat 4 ramp_run w
            (OpTick :: pulls_ops [(0%nat, p); (1%nat, p); (0%nat, p)]))
     = map (fun _ => snd (pull ramp_run (src (dup w)) (heap w) b))
         [(0%nat, p); (1%nat, p); (0%nat, p)]).
Proof.
  intros w p.
  assert (R : reachable 0%nat 4 ramp_run w).
  { exists 7%nat, 100%nat, [OpOutput; OpOutput; OpOutput]. reflexivity. }
  destruct (Dup_one_evaluation_per_tick nat 0%nat 4 nat nat ramp_run w R)
    as [A B].
  split.
  - apply (A [OpProcess 0%nat p; OpProcess 1%nat p; OpClose 0%nat;
              OpProcess 1%nat p; OpSetSource 8%nat; OpProcess 2%nat p]).
    reflexivity.
  - apply B; [simpl; lia | repeat constructor].
Defined.

Lemma Output_Close_keeps_contract_witness :
  let w := fst (steps 0%nat 4 ramp_run (init 7%nat 100%nat)
                  [OpOutput; OpOutput; OpOutput]) in
  let p := [9; 9; 9; 9]%nat in
  let w1 := fst (step 0%nat 4 ramp_run w (OpClose 1%nat)) in
  (length (outs (dup w1)) = (length (outs (dup w)) - 1)%nat /\
   ~ In 1%nat (outs (dup w1)) /\
   (forall o', o' <> 1%nat ->
      In o' (outs (dup w1)) <-> In o' (outs (dup w)))) /\
  let w2 := fst (steps 0%nat 4 ramp_run w1
                   [OpTick; OpProcess 0%nat p; OpProcess 2%nat p; OpTick]) in
  outs (dup w2) = outs (dup w1) /\
  (exists l,
      log (fst (steps 0%nat 4 ramp_run w2
                  [OpTick; OpProcess 2%nat p; OpProcess 0%nat p;
                   OpProcess 2%nat p]))
      = l ++ log w2 /\ (length l <= 1)%nat) /\
  (exists b0,
      snd (steps 0%nat 4 ramp_run w2
             (OpTick :: pulls_ops [(2%nat, p); (0%nat, p)]))
      = map (fun _ => snd (pull ramp_run (src (dup w2)) (heap w2) b0))
          [(2%nat, p); (0%nat, p)]).
Proof.
  intros w p w1.
  assert (R : reachable 0%nat 4 ramp_run w).
  { exists 7%nat, 100%nat, [OpOutput; OpOutput; OpOutput]. reflexivity. }
  assert (Hin : In 1%nat (outs (dup w))) by (simpl; auto).
  destruct (Output_Close_keeps_contract nat 0%nat 4 nat nat ramp_run w
              1%nat R Hin) as [A B].
  split; [exact A|].
  destruct (B [OpTick; OpProcess 0%nat p; OpProcess 2%nat p; OpTick]
              eq_refl) as (B1 & B2 & B3).
  intros w2. split; [exact B1|]. split.
  - apply (B2 [OpProcess 2%nat p; OpProcess 0%nat p; OpProcess 2%nat p]).
    reflexivity.
  - apply B3.
    + repeat constructor; simpl; intuition discriminate.
    + repeat (apply Forall_cons || apply Forall_nil);
        (split; [vm_compute; auto | reflexivity]).
Defined.

(** Two handles on a ramp that stands at 100: one tick's pulls give
    both callers the same block, and the ramp has advanced by one
    block, not two. *)
Example two_outputs_one_block :
  let p := [9; 9; 9; 9]%nat in
  let r := steps 0%nat 4 ramp_run (init 7%nat 100%nat)
             [OpOutput; OpOutput; OpTick;
              OpProcess 0%nat p; OpProcess 1%nat p] in
  snd r = [[107; 108; 109; 110]; [107; 108; 109; 110]]%nat /\
  heap (fst r) = 104%nat /\ log (fst r) = [7%nat].
Proof. repeat split. Qed.

(** The statements above take the consumer set as fixed during a tick.
    A handle registered after the first pull of a tick finds the flag
    set and the scratch buffer new: it receives zeros until the next
    [Tick]. *)
Example output_registered_mid_tick :
  let p := [9; 9; 9; 9]%nat in
  snd (steps 0%nat 4 ramp_run (init 7%nat 100%nat)
         [OpOutput; OpTick; OpProcess 0%nat p; OpOutput; OpProcess 1%nat p;
          OpTick; OpProcess 0%nat p; OpProcess 1%nat p])
  = [[107; 108; 109; 110]; [0; 0; 0; 0];
     [111; 112; 113; 114]; [111; 112; 113; 114]]%nat.
Proof. reflexivity. Qed.
End FanoutFacts.

(* ================================================================== *)
(** * Binary64: comparison *)

Section SFCompare.

Lemma SFcompare_antisym (x y : spec_float) :
  SFcompare y x = option_map CompOpp (SFcompare x y).
Proof.
  destruct x as [sx|sx| |sx mx ex], y as [sy|sy| |sy my ey]; simpl;
    try reflexivity;
    try (destruct sx; reflexivity); try (destruct sy; reflexivity);
    try (destruct sx, sy; reflexivity).
  destruct sx, sy; try reflexivity; f_equal;
    rewrite (Z.compare_antisym ex ey);
    destruct (ex ?= ey)%Z; simpl; try reflexivity;
    rewrite (Pos.compare_cont_antisym mx my Eq); simpl;
    now destruct (Pos.compare_cont Eq mx my).
Qed.

Lemma SFcompare_nan (x y : spec_float) :
  SFcompare x y = None <-> x = S754_nan \/ y = S754_nan.
Proof.
  destruct x as [sx|sx| |sx mx ex], y as [sy|sy| |sy my ey]; simpl;
    split; intros H; try discriminate; auto;
    destruct H; discriminate.
Qed.
End SFCompare.

Section F64Compare.
Local Open Scope float_scope.

Lemma SFcompare_refl (x : spec_float) :
  x <> S754_nan -> SFcompare x x = Some Eq.
Proof.
  destruct x as [s|s| |s m e]; simpl; intros H;
    try reflexivity; try (destruct s; reflexivity); [congruence|].
  rewrite Z.compare_refl, Pos.compare_cont_refl. now destruct s.
Qed.

Lemma is_nan_spec (x : float) :
  is_nan x = true <-> Prim2SF x = S754_nan.
Proof.
  unfold is_nan. rewrite eqb_spec. unfold SFeqb. split.
  - intros H. destruct (Prim2SF x) eqn:E; try reflexivity;
      rewrite SFcompare_refl in H by discriminate; discriminate.
  - intros ->. reflexivity.
Qed.

Lemma not_nan_spec (x : float) :
  is_nan x = false <-> Prim2SF x <> S754_nan.
Proof.
  rewrite <- is_nan_spec. now destruct (is_nan x).
Qed.

(** A comparison that holds has no NaN operand. *)
Lemma ltb_not_nan (x y : float) :
  (x <? y) = true -> is_nan x = false /\ is_nan y = false.
Proof.
  rewrite ltb_spec, !not_nan_spec. unfold SFltb. intros H.
  split; intros E; rewrite E in H; simpl in H;
    [|destruct (Prim2SF x)]; discriminate.
Qed.

Lemma leb_not_nan (x y : float) :
  (x <=? y) = true -> is_nan x = false /\ is_nan y = false.
Proof.
  rewrite leb_spec, !not_nan_spec. unfold SFleb. intros H.
  split; intros E; rewrite E in H; simpl in H;
    [|destruct (Prim2SF x)]; discriminate.
Qed.

(** Away from NaN the order is total. *)
Lemma not_ltb_leb (x y : float) :
  is_nan x = false -> is_nan y = false ->
  (x <? y) = false -> (y <=? x) = true.
Proof.
  rewrite ltb_spec, leb_spec, !not_nan_spec. unfold SFltb, SFleb.
  intros Hx Hy. rewrite (SFcompare_antisym (Prim2SF x) (Prim2SF y)).
  destruct (SFcompare (Prim2SF x) (Prim2SF y)) as [[| |]|] eqn:E;
    simpl; try reflexivity; try discriminate.
  apply SFcompare_nan in E. tauto.
Qed.

Lemma leb_not_ltb (x y : float) :
  (x <=? y) = true -> (y <? x) = false.
Proof.
  rewrite ltb_spec, leb_spec. unfold SFltb, SFleb.
  rewrite (SFcompare_antisym (Prim2SF x) (Prim2SF y)).
  now destruct (SFcompare (Prim2SF x) (Prim2SF y)) as [[| |]|].
Qed.

Lemma ltb_leb (x y : float) : (x <? y) = true -> (x <=? y) = true.
Proof.
  rewrite ltb_spec, leb_spec. unfold SFltb, SFleb.
  now destruct (SFcompare (Prim2SF x) (Prim2SF y)) as [[| |]|].
Qed.
End F64Compare.

(* ================================================================== *)
(** * Clip *)

Section ClipF64.
Local Open Scope float_scope.

Lemma clip_sample_f64 (v : float) :
  clip_sample v = if 1 <? v then 1 else if v <? -1 then -1 else v.
Proof. reflexivity. Qed.

Lemma clip_sample_range (v : float) :
  is_nan v = false -> in_range (-1) 1 (clip_sample v) = true.
Proof.
  intros Hv. rewrite clip_sample_f64. unfold in_range.
  destruct (1 <? v) eqn:E1; [reflexivity|].
  destruct (v <? -1) eqn:E2; [reflexivity|].
  rewrite (not_ltb_leb v (-1)), (not_ltb_leb 1 v); auto.
Qed.

Lemma clip_sample_id (v : float) :
  in_range (-1) 1 v = true -> clip_sample v = v.
Proof.
  unfold in_range. intros H. apply andb_true_iff in H as [H1 H2].
  rewrite clip_sample_f64.
  now rewrite (leb_not_ltb v 1 H2), (leb_not_ltb (-1) v H1).
Qed.

Lemma clip_sample_nan (v : float) :
  is_nan v = true -> clip_sample v = v.
Proof.
  intros Hv. rewrite clip_sample_f64.
  destruct (1 <? v) eqn:E1;
    [apply ltb_not_nan in E1 as [_ E1]; congruence|].
  destruct (v <? -1) eqn:E2;
    [apply ltb_not_nan in E2 as [E2 _]; congruence|].
  reflexivity.
Qed.

Lemma clip_sample_idem (v : float) :
  clip_sample (clip_sample v) = clip_sample v.
Proof.
  rewrite (clip_sample_f64 v).
  destruct (1 <? v) eqn:E1; [reflexivity|].
  destruct (v <? -1) eqn:E2; [reflexivity|].
  rewrite clip_sample_f64. now rewrite E1, E2.
Qed.

(** C8, as the code has it.  For every buffer: the output has the
    length of the input and holds [clip_sample] of each input sample;
    a sample that is not NaN comes out within [-1, 1]; a sample within
    [-1, 1] comes out unchanged, and so does NaN; and clipping the
    output again changes nothing. *)
Theorem Clip_Process_f64 (s : list float) :
  length (Clip_Process s) = length s /\
  (forall i v, nth_error s i = Some v ->
     nth_error (Clip_Process s) i = Some (clip_sample v) /\
     (is_nan v = false -> in_range (-1) 1 (clip_sample v) = true) /\
     (in_range (-1) 1 v = true -> clip_sample v = v) /\
     (is_nan v = true -> clip_sample v = v)) /\
  Clip_Process (Clip_Process s) = Clip_Process s.
Proof.
  unfold Clip_Process. split; [apply length_map|]. split.
  - intros i v H. split; [now apply map_nth_error|].
    split; [apply clip_sample_range|].
    split; [apply clip_sample_id | apply clip_sample_nan].
  - rewrite map_map. apply map_ext. apply clip_sample_idem.
Qed.

(** C8 as stated fails on a NaN sample, which no branch of the loop
    touches. *)
Lemma Clip_Process_nan_escapes :
  Clip_Process [nan] = [nan] /\ in_range (-1) 1 nan = false /\
  ~ (forall s : list float,
       Forall (fun x => in_range (-1) 1 x = true) (Clip_Process s)).
Proof.
  split; [reflexivity|]. split; [reflexivity|].
  intros H. specialize (H [nan]). inversion H as [|? ? H1 _].
  discriminate H1.
Qed.
End ClipF64.

(* ================================================================== *)
(** * Binary64: the values of a few operations *)

Section F64Values.
Local Open Scope float_scope.

Lemma is_finite_spec (x : float) :
  is_finite x = true <->
  match Prim2SF x with
  | S754_zero _ | S754_finite _ _ _ => true
  | _ => false
  end = true.
Proof.
  unfold is_finite, is_infinity, is_nan.
  rewrite !eqb_spec, abs_spec. unfold SFeqb.
  change (Prim2SF infinity) with (S754_infinity false).
  destruct (Prim2SF x) as [s|s| |s m e]; simpl;
    rewrite ?Z.compare_refl, ?Pos.compare_cont_refl;
    try destruct s; simpl; split; intros H; try reflexivity;
    try discriminate H.
Qed.

(** Rounding [m * 2^52] at exponent [e - 52] gives back [m] at
    exponent [e]. *)
Lemma round_mul_one (s : bool) (m : positive) (e : Z) :
  bounded prec emax m e = true ->
  binary_round_aux prec emax s (Zpos (m * 4503599627370496)) (e + -52)
    loc_Exact
  = S754_finite s m e.
Proof.
  unfold bounded, canonical_mantissa. intros H.
  apply andb_true_iff in H as [H1 H2].
  apply Z.eqb_eq in H1.
  unfold binary_round_aux, shr_fexp.
  rewrite !Pos.mul_xO_r, Pos.mul_1_r.
  cbn [Zdigits2 digits2_pos shr_record_of_loc].
  match goal with |- context [fexp prec emax ?a] =>
    replace a with (Z.pos (digits2_pos m) + e)%Z by lia end.
  rewrite H1.
  replace (e - (e + -52))%Z with 52%Z by lia.
  cbn [shr iter_pos shr_1 orb].
  replace (e + -52 + 52)%Z with e by lia.
  cbn [shr_m loc_of_shr_record round_nearest_even Zdigits2].
  rewrite H1, Z.sub_diag. cbn [shr shr_record_of_loc shr_m].
  now rewrite H2.
Qed.

(** Multiplying by 1 changes no binary64 value. *)
Lemma mul_one (x : float) : x * 1 = x.
Proof.
  apply Prim2SF_inj. rewrite mul_spec.
  change (Prim2SF 1) with (S754_finite false 4503599627370496 (-52)).
  pose proof (Prim2SF_valid x) as V.
  destruct (Prim2SF x) as [s|s| |s m e]; simpl;
    rewrite ?xorb_false_r; try reflexivity.
  now apply round_mul_one.
Qed.

(** A finite value and its opposite add up to [+0]. *)
Lemma add_opp_finite (x : float) : is_finite x = true -> x + - x = 0.
Proof.
  intros Hf. apply is_finite_spec in Hf.
  apply Prim2SF_inj. rewrite add_spec, opp_spec.
  change (Prim2SF 0) with (S754_zero false).
  destruct (Prim2SF x) as [s|s| |s m e]; try discriminate.
  - now destruct s.
  - unfold SF64add, SFadd, SFopp. rewrite Z.min_id.
    unfold shl_align. rewrite Z.sub_diag. cbn [fst].
    replace (cond_Zopp s (Z.pos m) + cond_Zopp (negb s) (Z.pos m))%Z
      with 0%Z by (unfold cond_Zopp; destruct s; cbn [negb]; lia).
    reflexivity.
Qed.
End F64Values.

(* ================================================================== *)
(** * Mul and Sum *)

Section Combinators.
Context {F : Type} {ops : SampleOps F}.

(** [zip_range] returns when the second buffer is long enough, and
    then applies [f] index by index. *)
Lemma zip_range_spec (f : F -> F -> F) (s : list F) :
  forall m, (length s <= length m)%nat ->
  exists out, zip_range f s m = Some out /\ length out = length s /\
    forall i a b, nth_error s i = Some a -> nth_error m i = Some b ->
                  nth_error out i = Some (f a b).
Proof.
  induction s as [|si s IH]; intros m Hlen.
  - exists []. repeat split; auto. intros [|i] a b H; discriminate.
  - destruct m as [|mi m]; [simpl in Hlen; lia|].
    destruct (IH m) as (out & E & L & N); [simpl in Hlen; lia|].
    simpl. rewrite E. exists (f si mi :: out). repeat split.
    + simpl. now rewrite L.
    + intros [|i] a b Ha Hb; simpl in *; [congruence | now apply N].
Qed.

Lemma zip_range_map (f : F -> F -> F) (g : F -> F) (s : list F) :
  zip_range f s (map g s) = Some (map (fun a => f a (g a)) s).
Proof.
  induction s as [|a s IH]; [reflexivity|]. simpl. now rewrite IH.
Qed.
End Combinators.

Section CombinatorsF64.
Local Open Scope float_scope.

(** C9, as the code has it.  For buffers [a] and [b] with [b] at least
    as long as [a], [Mul.Process] and [Sum.Process] return, and the
    output holds the binary64 product, resp. sum, of the inputs at
    every index, a function of the two buffers alone.  [Mul(a, ones)]
    is [a] for every [a]; [Sum(a, -a)] is all [+0] when every sample
    of [a] is finite. *)
Theorem Mul_Sum_f64 (a b : list float) :
  (length a <= length b)%nat ->
  (exists out, Mul_Process a b = Some out /\ length out = length a /\
     forall i x y, nth_error a i = Some x -> nth_error b i = Some y ->
                   nth_error out i = Some (x * y)) /\
  (exists out, Sum_Process a b = Some out /\ length out = length a /\
     forall i x y, nth_error a i = Some x -> nth_error b i = Some y ->
                   nth_error out i = Some (x + y)) /\
  Mul_Process a (map (fun _ => 1) a) = Some a /\
  (Forall (fun x => is_finite x = true) a ->
   Sum_Process a (map PrimFloat.opp a) = Some (map (fun _ => 0) a)).
Proof.
  intros Hlen. split; [|split; [|split]].
  - apply (zip_range_spec (F:=float) PrimFloat.mul a b Hlen).
  - apply (zip_range_spec (F:=float) PrimFloat.add a b Hlen).
  - unfold Mul_Process. rewrite zip_range_map. f_equal.
    rewrite <- (map_id a) at 2. apply map_ext. intros x. apply mul_one.
  - intros Hf. unfold Sum_Process. rewrite zip_range_map. f_equal.
    apply map_ext_in. intros x Hx. rewrite Forall_forall in Hf.
    now apply add_opp_finite, Hf.
Qed.

Lemma Mul_Sum_f64_witness :
  let a := [0x1p-1; -3; 0]%float in
  let b := [2; 0x1p-2; 7; 9]%float in
  (exists out, Mul_Process a b = Some out /\ length out = length a /\
     forall i x y, nth_error a i = Some x -> nth_error b i = Some y ->
                   nth_error out i = Some (x * y)) /\
  (exists out, Sum_Process a b = Some out /\ length out = length a /\
     forall i x y, nth_error a i = Some x -> nth_error b i = Some y ->
                   nth_error out i = Some (x + y)) /\
  Mul_Process a (map (fun _ => 1) a) = Some a /\
  (Forall (fun x => is_finite x = true) a ->
   Sum_Process a (map PrimFloat.opp a) = Some (map (fun _ => 0) a)).
Proof.
  intros a b. apply (Mul_Sum_f64 a b). simpl. lia.
Defined.

(** C9 as stated fails on an infinite sample: [inf + -inf] is NaN,
    not 0. *)
Lemma Sum_opp_infinity :
  Sum_Process [infinity] (map PrimFloat.opp [infinity]) = Some [nan] /\
  Sum_Process [infinity] (map PrimFloat.opp [infinity]) <> Some [0].
Proof.
  split; [reflexivity|]. intros H. vm_compute in H. discriminate H.
Qed.
End CombinatorsF64.

(* ================================================================== *)
(** * Binary64: operations that cannot produce NaN *)

Section F64NotNan.
Local Open Scope Z_scope.

Lemma iter_pos_invariant {A : Type} (P : A -> Prop) (f : A -> A) :
  (forall x, P x -> P (f x)) ->
  forall n x, P x -> P (iter_pos f n x).
Proof.
  intros Hf. induction n as [n IH|n IH|]; intros x Hx; simpl; auto.
Qed.

Lemma shr_1_nonneg (mrs : shr_record) :
  0 <= shr_m mrs -> 0 <= shr_m (shr_1 mrs).
Proof.
  destruct mrs as [m r s]. simpl.
  destruct m as [|[p|p|]|[p|p|]]; simpl; lia.
Qed.

Lemma shr_fexp_nonneg (m e : Z) (l : location) :
  0 <= m -> 0 <= shr_m (fst (shr_fexp prec emax m e l)).
Proof.
  intros Hm. unfold shr_fexp, shr.
  assert (H0 : 0 <= shr_m (shr_record_of_loc m l))
    by (destruct l as [|[| |]]; exact Hm).
  destruct (fexp prec emax (Zdigits2 m + e) - e); simpl; auto.
  apply (iter_pos_invariant (fun r => 0 <= shr_m r)); auto.
  apply shr_1_nonneg.
Qed.

Lemma round_nearest_even_nonneg (m : Z) (l : location) :
  0 <= m -> 0 <= round_nearest_even m l.
Proof.
  intros Hm. destruct l as [|[| |]]; simpl; try lia.
  destruct (Z.even m); lia.
Qed.

(** Rounding a non-negative mantissa gives a zero, a finite number or
    an infinity. *)
Lemma binary_round_aux_not_nan (s : bool) (m e : Z) (l : location) :
  0 <= m -> binary_round_aux prec emax s m e l <> S754_nan.
Proof.
  intros Hm. unfold binary_round_aux.
  pose proof (shr_fexp_nonneg m e l Hm) as H1.
  destruct (shr_fexp prec emax m e l) as [mrs' e']. simpl in H1.
  pose proof (shr_fexp_nonneg _ e' loc_Exact
                (round_nearest_even_nonneg _ (loc_of_shr_record mrs') H1))
    as H2.
  destruct (shr_fexp prec emax
              (round_nearest_even (shr_m mrs') (loc_of_shr_record mrs'))
              e' loc_Exact) as [mrs'' e''].
  simpl in H2. destruct (shr_m mrs'') as [|p|p]; try discriminate; [|lia].
  destruct (e'' <=? emax - prec); discriminate.
Qed.

Lemma binary_normalize_not_nan (m e : Z) (sz : bool) :
  binary_normalize prec emax m e sz <> S754_nan.
Proof.
  unfold binary_normalize, binary_round.
  destruct m as [|p|p]; [discriminate| |];
    match goal with |- context [shl_align ?a ?b ?c] =>
      destruct (shl_align a b c) end;
    apply binary_round_aux_not_nan; lia.
Qed.

(** A product with a finite non-zero factor is NaN only if the other
    factor is. *)
Lemma SFmul_finite_not_nan (x : spec_float) (s : bool) (m : positive)
    (e : Z) :
  x <> S754_nan -> SF64mul x (S754_finite s m e) <> S754_nan.
Proof.
  intros Hx. destruct x as [sx|sx| |sx mx ex]; simpl; try discriminate;
    [congruence|].
  apply binary_round_aux_not_nan. lia.
Qed.

(** A quotient with a finite non-zero numerator is NaN only if the
    denominator is. *)
Lemma SFdiv_finite_not_nan (s : bool) (m : positive) (e : Z)
    (y : spec_float) :
  y <> S754_nan -> SF64div (S754_finite s m e) y <> S754_nan.
Proof.
  intros Hy. destruct y as [sy|sy| |sy my ey]; simpl; try discriminate;
    [congruence|].
  unfold SFdiv_core_binary.
  match goal with |- context [Z.div_eucl ?a ?b] =>
    assert (Ha : 0 <= a);
    [| pose proof (Z.div_pos a b Ha ltac:(lia)) as Hq;
       unfold Z.div in Hq; destruct (Z.div_eucl a b) as [q r] ]
  end.
  - match goal with |- 0 <= match ?c with _ => _ end => destruct c end;
      try lia.
    apply Z.shiftl_nonneg. lia.
  - apply binary_round_aux_not_nan. exact Hq.
Qed.

(** Adding to, or subtracting from, a finite number gives NaN only if
    the other operand is NaN. *)
Lemma SFadd_finite_not_nan (x y : spec_float) :
  SF_finite x = true -> y <> S754_nan -> SF64add x y <> S754_nan.
Proof.
  intros Hx Hy.
  destruct x as [sx|sx| |sx mx ex]; try discriminate;
    destruct y as [sy|sy| |sy my ey]; simpl; try discriminate;
    try congruence.
  - destruct sx, sy; discriminate.
  - apply binary_normalize_not_nan.
Qed.

Lemma SFsub_finite_not_nan (x y : spec_float) :
  SF_finite x = true -> y <> S754_nan -> SF64sub x y <> S754_nan.
Proof.
  intros Hx Hy.
  destruct x as [sx|sx| |sx mx ex]; try discriminate;
    destruct y as [sy|sy| |sy my ey]; simpl; try discriminate;
    try congruence.
  - destruct sx, sy; discriminate.
  - apply binary_normalize_not_nan.
Qed.
End F64NotNan.

(* ================================================================== *)
(** * Envelope: the level stays within [0, 1] *)

Section EnvF64.
Local Open Scope float_scope.

(** The sample rate is a positive finite number. *)
Variable waveHz : float.
Hypothesis waveHz_pos : (0 <? waveHz) = true.
Hypothesis waveHz_fin : is_finite waveHz = true.

Lemma waveHz_SF : exists s m e, Prim2SF waveHz = S754_finite s m e.
Proof.
  pose proof waveHz_pos as P. pose proof waveHz_fin as Fi.
  apply is_finite_spec in Fi. rewrite ltb_spec in P.
  change (Prim2SF 0) with (S754_zero false) in P.
  destruct (Prim2SF waveHz) as [s|s| |s m e]; try discriminate; eauto.
Qed.

(** The increment [1 / (r * waveHz * 10)] is never NaN when the rate
    [r] is not. *)
Lemma rate_step_not_nan (r : float) :
  is_nan r = false -> is_nan (1 / (r * waveHz * 10)) = false.
Proof.
  rewrite !not_nan_spec. intros Hr.
  destruct waveHz_SF as (s & m & e & Ew).
  rewrite div_spec, !mul_spec, Ew.
  change (Prim2SF 10) with (S754_finite false 5629499534213120 (-49)).
  change (Prim2SF 1) with (S754_finite false 4503599627370496 (-52)).
  apply SFdiv_finite_not_nan, SFmul_finite_not_nan, SFmul_finite_not_nan.
  exact Hr.
Qed.

Lemma in_range_finite (v : float) :
  in_range 0 1 v = true -> SF_finite (Prim2SF v) = true.
Proof.
  unfold in_range. rewrite !leb_spec. unfold SFleb.
  change (Prim2SF 0) with (S754_zero false).
  change (Prim2SF 1) with (S754_finite false 4503599627370496 (-52)).
  intros H. apply andb_true_iff in H as [H0 H1].
  destruct (Prim2SF v) as [s|s| |s m e]; try reflexivity;
    [destruct s; simpl in *; discriminate | simpl in *; discriminate].
Qed.

Lemma env_clamp_f64 (e : env) :
  env_clamp e =
  if 1 <? env_v e then Env 1 false
  else if env_v e <? 0 then Env 0 (env_up e) else e.
Proof. reflexivity. Qed.

(** The clamp brings every level that is not NaN into [0, 1]. *)
Lemma env_clamp_range (e : env) :
  is_nan (env_v e) = false -> in_range 0 1 (env_v (env_clamp e)) = true.
Proof.
  intros Hv. rewrite env_clamp_f64. unfold in_range.
  destruct (1 <? env_v e) eqn:E1; [reflexivity|].
  destruct (env_v e <? 0) eqn:E2; [reflexivity|].
  rewrite (not_ltb_leb (env_v e) 0), (not_ltb_leb 1 (env_v e)); auto.
Qed.

Lemma sub_step_not_nan (v r : float) :
  in_range 0 1 v = true -> (0 <? r) = true ->
  is_nan (v - 1 / (r * waveHz * 10)) = false.
Proof.
  intros Hv Hr. apply ltb_not_nan in Hr as [_ Hr].
  pose proof (rate_step_not_nan r Hr) as Hs.
  rewrite not_nan_spec in *. rewrite sub_spec.
  apply SFsub_finite_not_nan; [now apply in_range_finite | exact Hs].
Qed.

Lemma add_step_not_nan (v r : float) :
  in_range 0 1 v = true -> (0 <? r) = true ->
  is_nan (v + 1 / (r * waveHz * 10)) = false.
Proof.
  intros Hv Hr. apply ltb_not_nan in Hr as [_ Hr].
  pose proof (rate_step_not_nan r Hr) as Hs.
  rewrite not_nan_spec in *. rewrite add_spec.
  apply SFadd_finite_not_nan; [now apply in_range_finite | exact Hs].
Qed.

Lemma in_range_not_nan (v : float) :
  in_range 0 1 v = true -> is_nan v = false.
Proof.
  unfold in_range. intros H. apply andb_true_iff in H as [H _].
  now apply leb_not_nan in H.
Qed.

(** Before the clamp the level is never NaN, and it has moved by at
    most one of the two increments. *)
Lemma env_raw_not_nan (fire : bool) (g : float) (a d : option float)
    (e e2 : env) :
  in_range 0 1 (env_v e) = true ->
  env_raw waveHz fire g a d e = Some e2 -> is_nan (env_v e2) = false.
Proof.
  intros Hv. pose proof (in_range_not_nan _ Hv) as Hn.
  unfold env_raw, env_select, env_attack.
  change (cst 0) with 0. change (cst 1) with 1. change (cst 10) with 10.
  cbn [f_gt f_lt f_add f_sub f_mul f_div F64].
  destruct e as [v up]. cbn [env_v env_up] in *.
  destruct up; cbn [negb].
  - cbn [env_up env_v]. destruct a as [a|]; [|discriminate].
    destruct (0 <? a) eqn:Ea; intros E; inversion E; subst;
      cbn [env_v]; auto using add_step_not_nan.
  - destruct (fire || (v <? g)).
    + cbn [env_up env_v]. destruct a as [a|]; [|discriminate].
      destruct (0 <? a) eqn:Ea; intros E; inversion E; subst;
        cbn [env_v]; auto using add_step_not_nan.
    + destruct (g <? v).
      * destruct d as [d|]; [|discriminate].
        destruct (0 <? d) eqn:Ed; cbn [env_up env_v];
          intros E; inversion E; subst; cbn [env_v];
          auto using sub_step_not_nan.
      * cbn [env_up]. intros E; inversion E; subst. exact Hn.
Qed.

Lemma env_step_range (fire : bool) (g : float) (a d : option float)
    (e e' : env) :
  in_range 0 1 (env_v e) = true ->
  env_step waveHz fire g a d e = Some e' ->
  in_range 0 1 (env_v e') = true.
Proof.
  intros Hv. unfold env_step.
  destruct (env_raw waveHz fire g a d e) as [e2|] eqn:E; [|discriminate].
  intros H. inversion H; subst. apply env_clamp_range.
  eapply env_raw_not_nan; eauto.
Qed.

(** The iteration panics only on a missing rate sample. *)
Lemma env_step_total (fire : bool) (g a d : float) (e : env) :
  exists e', env_step waveHz fire g (Some a) (Some d) e = Some e'.
Proof.
  unfold env_step, env_raw, env_select, env_attack.
  destruct (negb (env_up e)).
  - destruct (fire || (env_v e <? g)%smp); cbn [env_up]; eauto.
    destruct (env_v e >? g)%smp.
    + destruct (d >? cst 0)%smp; cbn [env_up];
        destruct (env_up e); eauto.
    + destruct (env_up e); eauto.
  - destruct (env_up e); eauto.
Qed.

Lemma Env_Process_range (isTrigger : float -> float -> bool * float)
    (s : list float) :
  forall (ts : float) (e : env) (att dec t : list float),
  in_range 0 1 (env_v e) = true ->
  (length s <= length att)%nat -> (length s <= length dec)%nat ->
  (length s <= length t)%nat ->
  exists out e' ts',
    Env_Process waveHz isTrigger ts e s att dec t = Some (out, e', ts') /\
    length out = length s /\
    Forall (fun x => in_range 0 1 x = true) out /\
    in_range 0 1 (env_v e') = true.
Proof.
  induction s as [|g s IH]; intros ts e att dec t Hv La Ld Lt.
  - exists [], e, ts. repeat split; auto.
  - destruct t as [|ti t]; [simpl in Lt; lia|].
    destruct att as [|a att]; [simpl in La; lia|].
    destruct dec as [|d dec]; [simpl in Ld; lia|].
    cbn [Env_Process hd_error tl].
    destruct (isTrigger ts ti) as [fire ts1].
    destruct (env_step_total fire g a d e) as [e1 E1]. rewrite E1.
    pose proof (env_step_range _ _ _ _ _ _ Hv E1) as Hv1.
    destruct (IH ts1 e1 att dec t Hv1) as (out & e' & ts' & E & L & Fo & Hv');
      try (simpl in *; lia).
    rewrite E. exists (env_v e1 :: out), e', ts'.
    repeat split; auto. simpl. now rewrite L.
Qed.

(** C4.  With a positive finite sample rate, in binary64: from a level
    in [0, 1], for every gate sample, trigger classification, attack
    rate and decay rate (NaN and infinities included), one iteration
    returns, and the level it stores, which is the sample it writes,
    is in [0, 1]; when the level before the clamp exceeds 1, the
    iteration ends with the level exactly 1 and the attack flag clear.
    Hence a whole [Env.Process] call on long enough buffers returns
    with every output sample and the stored level in [0, 1]. *)
Theorem Env_level_in_unit_interval :
  (forall (fire : bool) (g a d : float) (e : env),
     in_range 0 1 (env_v e) = true ->
     exists e',
       env_step waveHz fire g (Some a) (Some d) e = Some e' /\
       in_range 0 1 (env_v e') = true /\
       (forall e2, env_raw waveHz fire g (Some a) (Some d) e = Some e2 ->
                   (1 <? env_v e2) = true -> e' = Env 1 false)) /\
  (forall (isTrigger : float -> float -> bool * float)
          (s att dec t : list float) (ts : float) (e : env),
     in_range 0 1 (env_v e) = true ->
     (length s <= length att)%nat -> (length s <= length dec)%nat ->
     (length s <= length t)%nat ->
     exists out e' ts',
       Env_Process waveHz isTrigger ts e s att dec t = Some (out, e', ts') /\
       length out = length s /\
       Forall (fun x => in_range 0 1 x = true) out /\
       in_range 0 1 (env_v e') = true).
Proof.
  split.
  - intros fire g a d e Hv.
    destruct (env_step_total fire g a d e) as [e' E].
    exists e'. split; [exact E|]. split; [eapply env_step_range; eauto|].
    intros e2 E2 H1. unfold env_step in E. rewrite E2 in E.
    inversion E; subst. rewrite env_clamp_f64. now rewrite H1.
  - intros isTrigger s att dec t ts e. apply Env_Process_range.
Qed.
End EnvF64.

Lemma Env_level_in_unit_interval_witness :
  (exists e',
      env_step 44100%float true 0%float (Some 0x1p-20%float)
        (Some infinity) (Env 1%float false) = Some e' /\
      in_range 0 1 (env_v e') = true /\
      (forall e2,
         env_raw 44100%float true 0%float (Some 0x1p-20%float)
           (Some infinity) (Env 1%float false) = Some e2 ->
         (1 <? env_v e2)%float = true -> e' = Env 1%float false)) /\
  (exists out e' ts',
      Env_Process 44100%float edge_isTrigger 0%float
        (Env 0%float false)
        [1; 1; 0; nan]%float [0x1p-20; 0x1p-20; 0; nan]%float
        [1; 1; 0x1p-1022; infinity]%float [1; 0; 0; 1]%float
      = Some (out, e', ts') /\
      length out = 4%nat /\
      Forall (fun x => in_range 0 1 x = true) out /\
      in_range 0 1 (env_v e') = true).
Proof.
  destruct (Env_level_in_unit_interval 44100%float eq_refl eq_refl)
    as [A B].
  split.
  - apply A. reflexivity.
  - apply B; [reflexivity | simpl; lia | simpl; lia | simpl; lia].
Defined.

(* ================================================================== *)
(** * Binary64: rounding, as [SpecFloat] computes it *)

Section Pow2.
Local Open Scope R_scope.

Lemma pow2_pos (e : Z) : 0 < pow2 e.
Proof. apply powerRZ_lt. lra. Qed.

Lemma pow2_add (a b : Z) : pow2 (a + b) = pow2 a * pow2 b.
Proof. apply powerRZ_add. lra. Qed.

Lemma pow2_0 : pow2 0 = 1.
Proof. reflexivity. Qed.

Lemma pow2_1 : pow2 1 = 2.
Proof. unfold pow2. simpl. lra. Qed.

Lemma pow2_Z (k : Z) : (0 <= k)%Z -> pow2 k = IZR (2 ^ k).
Proof.
  intros Hk. destruct k as [|p|p]; [reflexivity | | lia].
  unfold pow2. symmetry. apply (Zpower_pos_powerRZ 2 p).
Qed.

Lemma pow2_ge_1 (k : Z) : (0 <= k)%Z -> 1 <= pow2 k.
Proof.
  intros Hk. rewrite pow2_Z by exact Hk. apply IZR_le.
  assert (0 < 2 ^ k)%Z by (apply Z.pow_pos_nonneg; lia). lia.
Qed.

Lemma pow2_le (a b : Z) : (a <= b)%Z -> pow2 a <= pow2 b.
Proof.
  intros H. replace b with (a + (b - a))%Z by lia. rewrite pow2_add.
  pose proof (pow2_pos a). pose proof (pow2_ge_1 (b - a) ltac:(lia)). nra.
Qed.

Lemma pow2_lt (a b : Z) : (a < b)%Z -> pow2 a < pow2 b.
Proof.
  intros H. replace b with (a + 1 + (b - a - 1))%Z by lia.
  rewrite !pow2_add, pow2_1.
  pose proof (pow2_pos a). pose proof (pow2_ge_1 (b - a - 1) ltac:(lia)). nra.
Qed.

Lemma pow2_lt_inv (a b : Z) : pow2 a < pow2 b -> (a < b)%Z.
Proof.
  intros H. destruct (Z.lt_ge_cases a b) as [L|L]; [exact L|].
  apply pow2_le in L. lra.
Qed.

Lemma F2R_0 (e : Z) : F2R 0 e = 0.
Proof. unfold F2R. lra. Qed.

Lemma F2R_shift (m e j : Z) :
  (0 <= j)%Z -> F2R (m * 2 ^ j) (e - j) = F2R m e.
Proof.
  intros Hj. unfold F2R. rewrite mult_IZR, <- pow2_Z by exact Hj.
  replace e with ((e - j) + j)%Z at 2 by lia. rewrite pow2_add. ring.
Qed.

Lemma F2R_le (m1 m2 e : Z) : (m1 <= m2)%Z -> F2R m1 e <= F2R m2 e.
Proof.
  intros H. unfold F2R. apply IZR_le in H. pose proof (pow2_pos e). nra.
Qed.

Lemma F2R_lt (m1 m2 e : Z) : (m1 < m2)%Z -> F2R m1 e < F2R m2 e.
Proof.
  intros H. unfold F2R. apply IZR_lt in H. pose proof (pow2_pos e). nra.
Qed.

Lemma F2R_le_inv (m1 m2 e : Z) : F2R m1 e <= F2R m2 e -> (m1 <= m2)%Z.
Proof.
  intros H. destruct (Z.le_gt_cases m1 m2) as [L|L]; [exact L|].
  apply (F2R_lt m2 m1 e) in L. lra.
Qed.

Lemma F2R_lt_inv (m1 m2 e : Z) : F2R m1 e < F2R m2 e -> (m1 < m2)%Z.
Proof.
  intros H. destruct (Z.lt_ge_cases m1 m2) as [L|L]; [exact L|].
  apply (F2R_le m2 m1 e) in L. lra.
Qed.

Lemma F2R_1 (e : Z) : F2R 1 e = pow2 e.
Proof. unfold F2R. lra. Qed.

Lemma F2R_opp (m e : Z) : F2R (- m) e = - F2R m e.
Proof. unfold F2R. rewrite opp_IZR. ring. Qed.

Lemma F2R_plus (m1 m2 e : Z) : F2R (m1 + m2) e = F2R m1 e + F2R m2 e.
Proof. unfold F2R. rewrite plus_IZR. ring. Qed.

Lemma F2R_minus (m1 m2 e : Z) : F2R (m1 - m2) e = F2R m1 e - F2R m2 e.
Proof. unfold F2R. rewrite minus_IZR. ring. Qed.

Lemma F2R_pow2 (k e : Z) : (0 <= k)%Z -> F2R (2 ^ k) e = pow2 (k + e).
Proof.
  intros Hk. unfold F2R. rewrite <- pow2_Z by exact Hk.
  now rewrite pow2_add.
Qed.
End Pow2.

Section Digits.
Local Open Scope Z_scope.

Lemma digits2_size (m : positive) : digits2_pos m = Pos.size m.
Proof. induction m; simpl; congruence. Qed.

Lemma digits2_bounds (m : positive) :
  2 ^ (Zpos (digits2_pos m) - 1) <= Zpos m < 2 ^ Zpos (digits2_pos m).
Proof.
  rewrite digits2_size.
  pose proof (Pos.size_gt m) as G. pose proof (Pos.size_le m) as L.
  apply Pos2Z.pos_lt_pos in G. apply Pos2Z.pos_le_pos in L.
  rewrite Pos2Z.inj_pow in G, L.
  change (Zpos m~0) with (2 * Zpos m) in L.
  split; [|exact G].
  replace (Zpos (Pos.size m)) with (Zpos (Pos.size m) - 1 + 1) in L by lia.
  rewrite Z.pow_add_r in L by lia. change (2 ^ 1) with 2 in L. lia.
Qed.

(** The number of digits is determined by the bounds. *)
Lemma digits2_unique (m : positive) (d : Z) :
  2 ^ (d - 1) <= Zpos m < 2 ^ d -> 0 < d -> Zpos (digits2_pos m) = d.
Proof.
  intros [L U] Hd. pose proof (digits2_bounds m) as [L' U'].
  set (d' := Zpos (digits2_pos m)) in *.
  assert (Hd' : 0 < d') by (subst d'; lia).
  destruct (Z.lt_trichotomy d' d) as [H|[H|H]]; [|exact H|].
  - assert (2 ^ d' <= 2 ^ (d - 1)) by (apply Z.pow_le_mono_r; lia). lia.
  - assert (2 ^ d <= 2 ^ (d' - 1)) by (apply Z.pow_le_mono_r; lia). lia.
Qed.
End Digits.

Section Shr.
Local Open Scope Z_scope.

Lemma fexp_eq (e : Z) : fexp prec emax e = Z.max (e - 53) (-1074).
Proof. reflexivity. Qed.

Lemma shr_1_div2 (m : Z) (r s : bool) :
  0 <= m ->
  shr_1 {| shr_m := m; shr_r := r; shr_s := s |}
  = {| shr_m := m / 2; shr_r := Z.odd m; shr_s := r || s |}.
Proof.
  intros Hm. rewrite <- Z.div2_div.
  destruct m as [|[p|p|]|p]; try reflexivity; lia.
Qed.

Lemma iter_pos_nat (A : Type) (f : A -> A) (p : positive) :
  forall x, iter_pos f p x = Nat.iter (Pos.to_nat p) f x.
Proof.
  induction p as [p IH|p IH|]; intros x; cbn [iter_pos].
  - rewrite !IH, Pos2Nat.inj_xI.
    replace (S (2 * Pos.to_nat p)) with (Pos.to_nat p + (Pos.to_nat p + 1))%nat
      by lia.
    rewrite !Nat.iter_add. reflexivity.
  - rewrite !IH, Pos2Nat.inj_xO.
    replace (2 * Pos.to_nat p)%nat with (Pos.to_nat p + Pos.to_nat p)%nat
      by lia.
    rewrite Nat.iter_add. reflexivity.
  - reflexivity.
Qed.

(** [k + 1] shifts to the right: the mantissa is divided by
    [2^(k+1)] and the round bit is the last bit shifted out. *)
Lemma shr_iter (k : nat) (m : Z) (r s : bool) :
  0 <= m ->
  let mrs := Nat.iter (S k) shr_1 {| shr_m := m; shr_r := r; shr_s := s |} in
  shr_m mrs = m / 2 ^ Z.of_nat (S k) /\
  shr_r mrs = Z.odd (m / 2 ^ Z.of_nat k).
Proof.
  intros Hm. induction k as [|k IH].
  - cbn [Nat.iter]. rewrite shr_1_div2 by exact Hm. cbn [shr_m shr_r].
    change (2 ^ Z.of_nat 1) with 2. change (2 ^ Z.of_nat 0) with 1.
    now rewrite Z.div_1_r.
  - cbn zeta in IH |- *. rewrite Nat.iter_succ.
    destruct (Nat.iter (S k) shr_1 _) as [q r' s'].
    cbn [shr_m shr_r] in IH. destruct IH as [Eq _]. subst q.
    assert (0 < 2 ^ Z.of_nat (S k)) by (apply Z.pow_pos_nonneg; lia).
    rewrite shr_1_div2 by (apply Z.div_pos; lia).
    cbn [shr_m shr_r]. split; [|reflexivity].
    rewrite Z.div_div by lia.
    rewrite (Nat2Z.inj_succ (S k)), Z.pow_succ_r by lia.
    f_equal. ring.
Qed.

Lemma shr_pos (m e n : Z) :
  0 <= m -> 0 < n ->
  exists mrs,
    shr (shr_record_of_loc m loc_Exact) e n = (mrs, e + n) /\
    shr_m mrs = m / 2 ^ n /\ shr_r mrs = Z.odd (m / 2 ^ (n - 1)).
Proof.
  intros Hm Hn. destruct n as [|p|p]; try lia.
  cbn [shr shr_record_of_loc]. rewrite iter_pos_nat.
  destruct (Pos2Nat.is_succ p) as [k Hk]. rewrite Hk.
  destruct (shr_iter k m false false Hm) as [A B].
  eexists. split; [reflexivity|].
  assert (E : Zpos p = Z.of_nat (S k)) by lia.
  rewrite E. split; [exact A|].
  replace (Z.of_nat (S k) - 1) with (Z.of_nat k) by lia. exact B.
Qed.

Lemma shr_nonpos (mrs : shr_record) (e n : Z) :
  n <= 0 -> shr mrs e n = (mrs, e).
Proof. intros Hn. destruct n; try reflexivity; lia. Qed.

Lemma round_nearest_even_cases (mrs : shr_record) :
  let m1 := round_nearest_even (shr_m mrs) (loc_of_shr_record mrs) in
  (m1 = shr_m mrs \/ m1 = shr_m mrs + 1) /\
  (shr_r mrs = false -> m1 = shr_m mrs).
Proof.
  destruct mrs as [q [|] [|]]; cbn; try (split; auto; fail).
  - split; [auto | discriminate].
  - destruct (Z.even q); split; auto; discriminate.
Qed.

(** The round bit is clear when the part shifted out is below one
    half. *)
Lemma round_bit_clear (m n : Z) :
  0 <= m -> 0 < n -> 2 * (m mod 2 ^ n) < 2 ^ n ->
  Z.odd (m / 2 ^ (n - 1)) = false.
Proof.
  intros Hm Hn Hr.
  assert (P : 0 < 2 ^ (n - 1)) by (apply Z.pow_pos_nonneg; lia).
  assert (E : 2 ^ n = 2 * 2 ^ (n - 1)).
  { replace n with (Z.succ (n - 1)) at 1 by lia. apply Z.pow_succ_r. lia. }
  pose proof (Z.mod_pos_bound m (2 ^ n) ltac:(lia)) as [R0 _].
  pose proof (Z.div_mod m (2 ^ n) ltac:(lia)) as D.
  rewrite <- (Z.div_unique m (2 ^ (n - 1)) (2 * (m / 2 ^ n)) (m mod 2 ^ n)).
  - rewrite Z.odd_mul. reflexivity.
  - left. lia.
  - rewrite E in D at 1. lia.
Qed.

(** [binary_round_aux] on an exact mantissa that is at least as fine as
    its canonical exponent: the result stands for the mantissa divided
    by [2^n], rounded to an integer next to it, at the canonical
    exponent. *)
Lemma round_aux_spec (s : bool) (m : positive) (e : Z) :
  let e1 := fexp prec emax (Zpos (digits2_pos m) + e) in
  let n := e1 - e in
  let q := Zpos m / 2 ^ n in
  0 <= n ->
  exists M E,
    binary_round_aux prec emax s (Zpos m) e loc_Exact = SFmake s M E /\
    0 <= M < 2 ^ 53 /\ -1074 <= E /\ (-1074 < E -> 2 ^ 52 <= M) /\
    (F2R M E = F2R q e1 \/ F2R M E = F2R (q + 1) e1) /\
    (2 * (Zpos m mod 2 ^ n) < 2 ^ n -> F2R M E = F2R q e1).
Proof.
  intros e1 n q Hn.
  pose proof (digits2_bounds m) as [DL DU].
  set (d := Zpos (digits2_pos m)) in *.
  assert (Hd : 0 < d) by (subst d; lia).
  assert (He1 : e1 = Z.max (d + e - 53) (-1074)) by reflexivity.
  assert (Pn : 0 < 2 ^ n) by (apply Z.pow_pos_nonneg; lia).
  assert (Hq : 0 <= q < 2 ^ 53).
  { subst q. split; [apply Z.div_pos; lia|].
    apply Z.div_lt_upper_bound; [lia|].
    rewrite <- Z.pow_add_r by lia.
    assert (2 ^ d <= 2 ^ (n + 53)) by (apply Z.pow_le_mono_r; lia). lia. }
  assert (Hq52 : -1074 < e1 -> 2 ^ 52 <= q).
  { intros H. assert (En : n = d - 53) by lia. subst q.
    apply Z.div_le_lower_bound; [lia|].
    rewrite <- Z.pow_add_r by lia.
    replace (n + 52) with (d - 1) by lia. exact DL. }
  unfold binary_round_aux, shr_fexp. cbn [Zdigits2].
  fold d. fold e1. fold n.
  destruct (Z.eq_dec n 0) as [N0|N0].
  - (* no shift *)
    rewrite N0, shr_nonpos by lia. cbn [shr_record_of_loc shr_m
      loc_of_shr_record round_nearest_even Zdigits2].
    fold d. fold e1. fold n. rewrite N0, shr_nonpos by lia.
    cbn [shr_record_of_loc shr_m].
    assert (Ee : e1 = e) by lia.
    assert (Eq : q = Zpos m) by (subst q; rewrite N0; apply Z.div_1_r).
    exists (Zpos m), e. split; [reflexivity|].
    rewrite <- Eq, <- Ee. split; [exact Hq|]. split; [lia|].
    split; [exact Hq52|]. split; [now left | reflexivity].
  - (* a shift to the right by [n] *)
    destruct (shr_pos (Zpos m) e n ltac:(lia) ltac:(lia))
      as (mrs & Es & Em & Er).
    rewrite Es. replace (e + n) with e1 by lia.
    destruct (round_nearest_even_cases mrs) as [Hc1 Hc2].
    cbn zeta in Hc1, Hc2.
    set (m1 := round_nearest_even (shr_m mrs) (loc_of_shr_record mrs)) in *.
    rewrite Em in Hc1, Hc2. fold q in Hc1, Hc2.
    assert (Hdown : 2 * (Zpos m mod 2 ^ n) < 2 ^ n -> m1 = q).
    { intros H. apply Hc2. rewrite Er.
      apply round_bit_clear; [lia | lia | exact H]. }
    assert (Hm1 : q <= m1 <= q + 1) by lia.
    destruct (Z.eq_dec m1 (2 ^ 53)) as [Ebig|Ebig].
    + (* the rounding carried into a new digit *)
      assert (Eq1 : m1 = q + 1) by lia.
      rewrite Ebig. cbn [Zdigits2 Z.pow Z.pow_pos Pos.iter Z.mul Pos.mul
        digits2_pos Pos.succ].
      change (fexp prec emax (54 + e1) - e1)
        with (Z.max (54 + e1 - 53) (-1074) - e1).
      replace (Z.max (54 + e1 - 53) (-1074) - e1) with 1 by lia.
      cbn [shr shr_record_of_loc iter_pos shr_1 shr_m].
      exists (2 ^ 52), (e1 + 1). split; [reflexivity|].
      split; [lia|]. split; [lia|]. split; [lia|].
      assert (V : F2R (2 ^ 52) (e1 + 1) = F2R (q + 1) e1).
      { rewrite <- Eq1, Ebig.
        rewrite <- (F2R_shift (2 ^ 52) (e1 + 1) 1) by lia.
        f_equal. lia. }
      split; [now right|]. intros H. apply Hdown in H. lia.
    + assert (Hlt : 0 <= m1 < 2 ^ 53) by lia.
      assert (Es2 : shr (shr_record_of_loc m1 loc_Exact) e1
                      (fexp prec emax (Zdigits2 m1 + e1) - e1)
                    = (shr_record_of_loc m1 loc_Exact, e1)).
      { apply shr_nonpos. rewrite fexp_eq.
        destruct m1 as [|p|p]; [cbn [Zdigits2]; lia | | lia].
        cbn [Zdigits2]. pose proof (digits2_bounds p) as [PL PU].
        assert (Zpos (digits2_pos p) <= 53).
        { destruct (Z.le_gt_cases (Zpos (digits2_pos p)) 53) as [L|G];
            [exact L|].
          assert (2 ^ 53 <= 2 ^ (Zpos (digits2_pos p) - 1))
            by (apply Z.pow_le_mono_r; lia). lia. }
        lia. }
      rewrite Es2. cbn [shr_record_of_loc shr_m].
      exists m1, e1. split; [reflexivity|].
      split; [exact Hlt|]. split; [lia|].
      split; [intros H; specialize (Hq52 H); lia|].
      split; [destruct Hc1 as [-> | ->]; auto|].
      intros H. now rewrite (Hdown H).
Qed.
End Shr.

Section RoundR.
Local Open Scope R_scope.

Lemma F2R_align (M E e1 : Z) :
  (e1 <= E)%Z -> F2R M E = F2R (M * 2 ^ (E - e1)) e1.
Proof.
  intros H. rewrite <- (F2R_shift M E (E - e1)) by lia.
  f_equal. lia.
Qed.

Lemma F2R_lt_pow2 (M E : Z) : (0 <= M < 2 ^ 53)%Z -> F2R M E < pow2 (53 + E).
Proof.
  intros [_ H]. rewrite <- (F2R_pow2 53 E) by lia. now apply F2R_lt.
Qed.

Lemma F2R_ge_pow2 (M E : Z) : (2 ^ 52 <= M)%Z -> pow2 (52 + E) <= F2R M E.
Proof.
  intros H. rewrite <- (F2R_pow2 52 E) by lia. now apply F2R_le.
Qed.

(** The real number [binary_round_aux] arrives at, between the
    numbers of the format around the exact one.  [x] is the exact
    number [m * 2^e]. *)
Lemma round_aux_sandwich (s : bool) (m : positive) (e : Z) :
  (e <= fexp prec emax (Zpos (digits2_pos m) + e))%Z ->
  rounds (binary_round_aux prec emax s (Zpos m) e loc_Exact) s
    (F2R (Zpos m) e).
Proof.
  intros Hn. set (x := F2R (Zpos m) e). unfold rounds.
  destruct (round_aux_spec s m e ltac:(lia))
    as (M & E & ER & HM & HE & HM52 & Hv & Hdown).
  pose proof (digits2_bounds m) as [DL DU].
  set (d := Zpos (digits2_pos m)) in *.
  set (e1 := fexp prec emax (d + e)) in *.
  set (n := (e1 - e)%Z) in *.
  set (q := (Zpos m / 2 ^ n)%Z) in *.
  assert (Hd : (0 < d)%Z) by (subst d; lia).
  assert (He1 : e1 = Z.max (d + e - 53) (-1074)) by reflexivity.
  assert (Pn : (0 < 2 ^ n)%Z) by (apply Z.pow_pos_nonneg; lia).
  pose proof (Z.div_mod (Zpos m) (2 ^ n) ltac:(lia)) as Dm.
  pose proof (Z.mod_pos_bound (Zpos m) (2 ^ n) ltac:(lia)) as [R0 R1].
  fold q in Dm. set (rho := (Zpos m mod 2 ^ n)%Z) in *.
  assert (Xq : x = F2R q e1 + F2R rho e).
  { unfold x. rewrite Dm, F2R_plus. f_equal.
    rewrite (F2R_align q e1 e) by lia. f_equal. fold n. lia. }
  assert (Xg : pow2 e1 = F2R (2 ^ n) e).
  { rewrite F2R_pow2 by lia. f_equal. lia. }
  assert (Xlo : F2R q e1 <= x).
  { rewrite Xq. pose proof (F2R_le 0 rho e R0). rewrite F2R_0 in H. lra. }
  assert (Xhi : x < F2R (q + 1) e1).
  { rewrite Xq, F2R_plus, F2R_1, Xg.
    pose proof (F2R_lt rho (2 ^ n) e R1). lra. }
  assert (Hq : (0 <= q)%Z) by (subst q; apply Z.div_pos; lia).
  assert (Hq52 : (-1074 < e1 -> 2 ^ 52 <= q)%Z).
  { intros H. assert (En : n = (d - 53)%Z) by lia. subst q.
    apply Z.div_le_lower_bound; [lia|].
    rewrite <- Z.pow_add_r by lia.
    replace (n + 52)%Z with (d - 1)%Z by lia. exact DL. }
  assert (Hdown' : 2 * (x - F2R q e1) < pow2 e1 -> F2R M E = F2R q e1).
  { intros H. apply Hdown. rewrite Xq, Xg in H.
    replace (2 * (F2R q e1 + F2R rho e - F2R q e1)) with (F2R (2 * rho) e) in H
      by (unfold F2R; rewrite mult_IZR; ring).
    now apply F2R_lt_inv in H. }
  assert (Xmag : pow2 (d - 1 + e) <= x < pow2 (d + e)).
  { unfold x. rewrite <- !F2R_pow2 by lia.
    split; [now apply F2R_le | now apply F2R_lt]. }
  exists M, E. split; [exact ER|]. split; [exact HM|]. split; [exact HE|].
  split; [exact HM52|]. split; [|split].
  - (* a number of the format above [x] is above the result *)
    intros Mz Ez HMz HEz Hx.
    destruct Hv as [Hv|Hv]; rewrite Hv; [lra|].
    assert (Hstrict : F2R q e1 < x).
    { destruct (Rle_lt_dec x (F2R q e1)) as [L|G]; [|exact G].
      assert (Eq : F2R M E = F2R q e1).
      { apply Hdown'. pose proof (pow2_pos e1). lra. }
      rewrite Hv in Eq. pose proof (F2R_lt q (q + 1) e1 ltac:(lia)). lra. }
    destruct (Z.le_gt_cases e1 Ez) as [L|G].
    + rewrite (F2R_align Mz Ez e1 L) in Hx |- *.
      apply F2R_le.
      assert (q < Mz * 2 ^ (Ez - e1))%Z by (apply (F2R_lt_inv _ _ e1); lra).
      lia.
    + exfalso. specialize (Hq52 ltac:(lia)).
      pose proof (F2R_lt_pow2 Mz Ez HMz).
      pose proof (F2R_ge_pow2 q e1 Hq52).
      pose proof (pow2_le (53 + Ez) (52 + e1) ltac:(lia)). lra.
  - (* a number of the format below [x] is below the result *)
    intros Mz Ez HMz HEz Hx.
    assert (Hge : F2R q e1 <= F2R M E).
    { destruct Hv as [Hv|Hv]; rewrite Hv; [lra|].
      apply F2R_le. lia. }
    apply Rle_trans with (2 := Hge).
    destruct (Z.le_gt_cases e1 Ez) as [L|G].
    + rewrite (F2R_align Mz Ez e1 L) in Hx |- *.
      apply F2R_le.
      assert (Mz * 2 ^ (Ez - e1) < q + 1)%Z
        by (apply (F2R_lt_inv _ _ e1); lra).
      lia.
    + specialize (Hq52 ltac:(lia)).
      pose proof (F2R_lt_pow2 Mz Ez HMz).
      pose proof (F2R_ge_pow2 q e1 Hq52).
      pose proof (pow2_le (53 + Ez) (52 + e1) ltac:(lia)). lra.
  - (* below the middle of two numbers of the format *)
    intros Mz Ez HMz HEz Hx Hhalf.
    pose proof (F2R_ge_pow2 Mz Ez (proj1 HMz)) as Z1.
    assert (Z2 : F2R (Mz + 1) Ez <= pow2 (53 + Ez)).
    { rewrite <- (F2R_pow2 53 Ez) by lia. apply F2R_le. lia. }
    assert (Z3 : F2R (Mz + 1) Ez = F2R Mz Ez + pow2 Ez).
    { now rewrite F2R_plus, F2R_1. }
    pose proof (pow2_pos Ez) as Pz.
    assert (Emag : (d + e = 53 + Ez)%Z).
    { assert (52 + Ez < d + e)%Z by (apply pow2_lt_inv; lra).
      assert (d - 1 + e < 53 + Ez)%Z by (apply pow2_lt_inv; lra).
      lia. }
    assert (Ee : e1 = Ez) by lia.
    rewrite Ee in *.
    assert (Mz <= q)%Z.
    { assert (Mz < q + 1)%Z by (apply (F2R_lt_inv _ _ Ez); lra). lia. }
    assert (q <= Mz)%Z.
    { assert (q < Mz + 1)%Z by (apply (F2R_lt_inv _ _ Ez); lra). lia. }
    assert (Eq : q = Mz) by lia.
    rewrite <- Eq. apply Hdown'. rewrite Eq. exact Hhalf.
Qed.
End RoundR.

Section RoundSigned.
Local Open Scope R_scope.

Lemma iter_xO (m d : positive) :
  Zpos (Pos.iter xO m d) = (Zpos m * 2 ^ Zpos d)%Z.
Proof.
  induction d as [|d IH] using Pos.peano_ind.
  - cbn [Pos.iter]. lia.
  - rewrite Pos.iter_succ, Pos2Z.inj_succ, Z.pow_succ_r by lia.
    change (Zpos (Pos.iter xO m d)~0) with (2 * Zpos (Pos.iter xO m d))%Z.
    rewrite IH. ring.
Qed.

Lemma digits2_shift (m d : positive) :
  Zpos (digits2_pos (Pos.iter xO m d))
  = (Zpos (digits2_pos m) + Zpos d)%Z.
Proof.
  apply digits2_unique; [|lia]. rewrite iter_xO.
  pose proof (digits2_bounds m) as [L U].
  assert (P : (0 < 2 ^ Zpos d)%Z) by (apply Z.pow_pos_nonneg; lia).
  replace (Zpos (digits2_pos m) + Zpos d - 1)%Z
    with ((Zpos (digits2_pos m) - 1) + Zpos d)%Z by lia.
  rewrite !Z.pow_add_r by lia. nia.
Qed.

(** [shl_align] keeps the number and its magnitude, and lowers the
    exponent to the one asked for. *)
Lemma shl_align_spec (m : positive) (e e' : Z) :
  F2R (Zpos (fst (shl_align m e e'))) (snd (shl_align m e e'))
  = F2R (Zpos m) e /\
  (Zpos (digits2_pos (fst (shl_align m e e'))) + snd (shl_align m e e')
   = Zpos (digits2_pos m) + e)%Z /\
  snd (shl_align m e e') = Z.min e e'.
Proof.
  unfold shl_align. destruct (e' - e)%Z as [|d|d] eqn:E; cbn [fst snd].
  - split; [reflexivity|]. split; [reflexivity | lia].
  - split; [reflexivity|]. split; [reflexivity | lia].
  - rewrite digits2_shift, iter_xO. split; [|split; lia].
    rewrite <- (F2R_shift (Zpos m) e (Zpos d)) by lia.
    f_equal. lia.
Qed.

Lemma round_sandwich (s : bool) (m : positive) (e : Z) :
  rounds (binary_round prec emax s m e) s (F2R (Zpos m) e).
Proof.
  unfold binary_round.
  destruct (shl_align_spec m e
              (fexp prec emax (Zpos (digits2_pos m) + e))) as (V & D & X).
  destruct (shl_align m e (fexp prec emax (Zpos (digits2_pos m) + e)))
    as [mz ez]. cbn [fst snd] in V, D, X.
  rewrite <- V. apply round_aux_sandwich. rewrite D. lia.
Qed.

Lemma B2R_SFmake (s : bool) (M E : Z) :
  (0 <= M)%Z -> (M = 0 \/ E <= 971)%Z ->
  SF_finite (SFmake s M E) = true /\
  B2R (SFmake s M E) = F2R (cond_Zopp s M) E.
Proof.
  intros HM HE. unfold SFmake. destruct M as [|p|p]; [| |lia].
  - split; [reflexivity|]. cbn [B2R]. destruct s; cbn [cond_Zopp Z.opp];
      now rewrite F2R_0.
  - assert (L : (E <=? emax - prec)%Z = true)
      by (apply Z.leb_le; change (emax - prec)%Z with 971%Z; lia).
    rewrite L. split; reflexivity.
Qed.

Lemma format_pos (z : R) :
  format z -> 0 < z ->
  exists M E, z = F2R M E /\ (0 <= M < 2 ^ 53)%Z /\ (-1074 <= E <= 971)%Z.
Proof.
  intros (M & E & -> & HM & HE) Hz. exists M, E. split; [reflexivity|].
  split; [|exact HE]. split; [|lia].
  destruct (Z.le_gt_cases 0 M) as [L|G]; [exact L|].
  pose proof (F2R_le M 0 E ltac:(lia)). rewrite F2R_0 in H. lra.
Qed.

Lemma format_opp (z : R) : format z -> format (- z).
Proof.
  intros (M & E & -> & HM & HE). exists (- M)%Z, E.
  split; [now rewrite F2R_opp|]. split; [lia | exact HE].
Qed.

Lemma format_0 : format 0.
Proof. exists 0%Z, 0%Z. split; [now rewrite F2R_0|]. split; lia. Qed.

(** The rounding of a positive number is finite and no greater than a
    number of the format above it. *)
Lemma rounds_le (r : spec_float) (x hi : R) :
  rounds r false x -> 0 < x -> format hi -> x <= hi ->
  SF_finite r = true /\ 0 <= B2R r <= hi.
Proof.
  intros (M & E & -> & HM & HE & HM52 & Hup & _) Hx Fh Hle.
  destruct (format_pos hi Fh ltac:(lra)) as (Mh & Eh & -> & HMh & HEh).
  pose proof (Hup Mh Eh HMh ltac:(lia) Hle) as Hv.
  assert (Hfin : (M = 0 \/ E <= 971)%Z).
  { destruct (Z.eq_dec M 0) as [Z0|NZ]; [now left | right].
    destruct (Z.le_gt_cases E 971) as [L|G]; [exact L | exfalso].
    specialize (HM52 ltac:(lia)).
    pose proof (F2R_ge_pow2 M E HM52).
    pose proof (F2R_lt_pow2 Mh Eh HMh).
    pose proof (pow2_le (53 + Eh) (52 + E) ltac:(lia)). lra. }
  destruct (B2R_SFmake false M E ltac:(lia) Hfin) as [Fin V].
  split; [exact Fin|]. rewrite V. cbn [cond_Zopp].
  split; [|exact Hv].
  pose proof (F2R_le 0 M E ltac:(lia)). now rewrite F2R_0 in H.
Qed.

(** It is no smaller than a number of the format below it (when it is
    finite). *)
Lemma rounds_ge (r : spec_float) (x lo : R) :
  rounds r false x -> format lo -> lo <= x -> SF_finite r = true ->
  lo <= B2R r.
Proof.
  intros (M & E & -> & HM & HE & HM52 & _ & Hlo & _) Fl Hle Fin.
  assert (Hfin : (M = 0 \/ E <= 971)%Z).
  { unfold SFmake in Fin. destruct M as [|p|p]; [now left | | lia].
    right. destruct (E <=? emax - prec)%Z eqn:L; [|discriminate].
    apply Z.leb_le in L. exact L. }
  destruct (B2R_SFmake false M E ltac:(lia) Hfin) as [_ V].
  rewrite V. cbn [cond_Zopp].
  assert (H0 : 0 <= F2R M E).
  { pose proof (F2R_le 0 M E ltac:(lia)). now rewrite F2R_0 in H. }
  destruct (Rle_lt_dec lo 0) as [L|G]; [lra|].
  destruct (format_pos lo Fl G) as (Ml & El & -> & HMl & HEl).
  apply Hlo; [exact HMl | lia | exact Hle].
Qed.

(** The same for either sign. *)
Lemma rounds_signed (r : spec_float) (s : bool) (x lo hi : R) :
  rounds r s x -> 0 < x -> format lo -> format hi ->
  lo <= (if s then - x else x) <= hi ->
  SF_finite r = true /\ lo <= B2R r <= hi.
Proof.
  intros Hr Hx Fl Fh [Hl Hh]. destruct s.
  - assert (Hr' : rounds (SFopp r) false x).
    { destruct Hr as (M & E & -> & Rest). exists M, E.
      split; [|exact Rest]. unfold SFmake.
      destruct M as [|p|p]; try reflexivity.
      now destruct (E <=? emax - prec)%Z. }
    destruct (rounds_le (SFopp r) x (- lo) Hr' Hx (format_opp lo Fl)
                ltac:(lra)) as [Fin [_ V]].
    assert (Fin' : SF_finite r = true) by (destruct r; auto).
    assert (Vr : B2R (SFopp r) = - B2R r).
    { destruct r as [| | |s m e]; cbn [SFopp B2R]; try lra.
      destruct s; cbn [negb cond_Zopp]; rewrite ?F2R_opp;
        change (- Zpos m)%Z with (Zneg m);
        change (Zneg m) with (- Zpos m)%Z; rewrite ?F2R_opp; lra. }
    split; [exact Fin'|]. rewrite Vr in V. split; [lra|].
    pose proof (rounds_ge (SFopp r) x (- hi) Hr' (format_opp hi Fh)
                  ltac:(lra) Fin) as G.
    rewrite Vr in G. lra.
  - destruct (rounds_le r x hi Hr Hx Fh Hh) as [Fin [_ V]].
    split; [exact Fin|]. split; [|exact V].
    now apply (rounds_ge r x lo Hr Fl Hl Fin).
Qed.

(** Below the middle of two numbers of the format, the rounding is
    the lower one. *)
Lemma rounds_down (r : spec_float) (x : R) (Mz Ez : Z) :
  rounds r false x ->
  (2 ^ 52 <= Mz < 2 ^ 53)%Z -> (-1074 <= Ez <= 971)%Z ->
  F2R Mz Ez <= x -> 2 * (x - F2R Mz Ez) < pow2 Ez ->
  SF_finite r = true /\ B2R r = F2R Mz Ez.
Proof.
  intros (M & E & -> & HM & HE & HM52 & _ & _ & Hd) HMz HEz Hle Hhalf.
  pose proof (Hd Mz Ez HMz ltac:(lia) Hle Hhalf) as V.
  assert (Hfin : (M = 0 \/ E <= 971)%Z).
  { destruct (Z.eq_dec M 0) as [Z0|NZ]; [now left | right].
    destruct (Z.le_gt_cases E 971) as [L|G]; [exact L | exfalso].
    specialize (HM52 ltac:(lia)).
    pose proof (F2R_ge_pow2 M E HM52).
    pose proof (F2R_lt_pow2 Mz Ez ltac:(lia)).
    pose proof (pow2_le (53 + Ez) (52 + E) ltac:(lia)). lra. }
  destruct (B2R_SFmake false M E ltac:(lia) Hfin) as [Fin V'].
  split; [exact Fin|]. rewrite V'. exact V.
Qed.
End RoundSigned.

Section OpsR.
Local Open Scope R_scope.

Lemma F2R_cond_Zopp (s : bool) (M e : Z) :
  F2R (cond_Zopp s M) e = if s then - F2R M e else F2R M e.
Proof. destruct s; cbn [cond_Zopp]; [apply F2R_opp | reflexivity]. Qed.

Lemma F2R_mult (m1 e1 m2 e2 : Z) :
  F2R (m1 * m2) (e1 + e2) = F2R m1 e1 * F2R m2 e2.
Proof. unfold F2R. rewrite mult_IZR, pow2_add. ring. Qed.

Lemma F2R_pos (m : positive) (e : Z) : 0 < F2R (Zpos m) e.
Proof.
  pose proof (F2R_lt 0 (Zpos m) e ltac:(lia)). now rewrite F2R_0 in H.
Qed.

(** A valid finite number is canonical: its mantissa has 53 bits, or
    fewer at the least exponent. *)
Lemma valid_canonical (s : bool) (m : positive) (e : Z) :
  valid_binary (S754_finite s m e) = true ->
  (-1074 <= e <= 971)%Z /\ (Zpos (digits2_pos m) <= 53)%Z /\
  (Zpos (digits2_pos m) = 53 \/ e = -1074)%Z /\
  (Zpos m < 2 ^ 53)%Z /\ (-1074 < e -> 2 ^ 52 <= Zpos m)%Z.
Proof.
  cbn [valid_binary]. unfold bounded, canonical_mantissa.
  intros H. apply andb_true_iff in H as [C B].
  apply Z.eqb_eq in C. apply Z.leb_le in B.
  rewrite fexp_eq in C. change (emax - prec)%Z with 971%Z in B.
  pose proof (digits2_bounds m) as [L U].
  set (d := Zpos (digits2_pos m)) in *.
  assert (Hd : (d <= 53)%Z) by lia.
  assert (U' : (2 ^ d <= 2 ^ 53)%Z) by (apply Z.pow_le_mono_r; lia).
  repeat split; try lia.
  intros He. assert (Ed : d = 53%Z) by lia. rewrite Ed in L. exact L.
Qed.

Lemma valid_format (x : spec_float) :
  valid_binary x = true -> format (B2R x).
Proof.
  intros V. destruct x as [s|s| |s m e]; try apply format_0.
  destruct (valid_canonical s m e V) as (He & _ & _ & Hm & _).
  exists (cond_Zopp s (Zpos m)), e. split; [reflexivity|].
  split; [destruct s; cbn [cond_Zopp]; lia | exact He].
Qed.

(** [binary_normalize] rounds the number [N * 2^e]. *)
Lemma normalize_sandwich (N e : Z) (lo hi : R) :
  format lo -> format hi -> lo <= F2R N e <= hi ->
  SF_finite (binary_normalize prec emax N e false) = true /\
  lo <= B2R (binary_normalize prec emax N e false) <= hi.
Proof.
  intros Fl Fh H. destruct N as [|m|m]; cbn [binary_normalize].
  - rewrite F2R_0 in H. split; [reflexivity | exact H].
  - apply (rounds_signed _ false (F2R (Zpos m) e));
      [apply round_sandwich | apply F2R_pos | exact Fl | exact Fh | exact H].
  - apply (rounds_signed _ true (F2R (Zpos m) e));
      [apply round_sandwich | apply F2R_pos | exact Fl | exact Fh |].
    change (Zneg m) with (- Zpos m)%Z in H. now rewrite F2R_opp in H.
Qed.

(** The two mantissas [SFadd] and [SFsub] add, at the lower
    exponent. *)
Lemma aligned_value (s : bool) (m : positive) (e ez : Z) :
  (ez <= e)%Z ->
  F2R (cond_Zopp s (Zpos (fst (shl_align m e ez)))) ez
  = B2R (S754_finite s m e).
Proof.
  intros H. destruct (shl_align_spec m e ez) as (V & _ & X).
  rewrite Z.min_r in X by exact H. rewrite X in V.
  cbn [B2R]. rewrite !F2R_cond_Zopp, V. reflexivity.
Qed.

(** Addition: the sum of two finite numbers is rounded, so it stays
    between any two numbers of the format that enclose the exact
    sum. *)
Lemma SFadd_sandwich (x y : spec_float) (lo hi : R) :
  SF_finite x = true -> SF_finite y = true ->
  format lo -> format hi -> lo <= B2R x + B2R y <= hi ->
  SF_finite (SFadd prec emax x y) = true /\
  lo <= B2R (SFadd prec emax x y) <= hi.
Proof.
  intros Fx Fy Fl Fh H.
  destruct x as [sx|sx| |sx mx ex]; try discriminate;
    destruct y as [sy|sy| |sy my ey]; try discriminate; cbn [SFadd].
  - cbn [B2R] in H. split; [now destruct sx, sy|].
    destruct sx, sy; cbn [B2R]; lra.
  - cbn [B2R] in H |- *. split; [reflexivity | lra].
  - cbn [B2R] in H |- *. split; [reflexivity | lra].
  - apply normalize_sandwich; [exact Fl | exact Fh|].
    rewrite F2R_plus, !aligned_value by lia. exact H.
Qed.

Lemma SFsub_sandwich (x y : spec_float) (lo hi : R) :
  SF_finite x = true -> SF_finite y = true ->
  format lo -> format hi -> lo <= B2R x - B2R y <= hi ->
  SF_finite (SFsub prec emax x y) = true /\
  lo <= B2R (SFsub prec emax x y) <= hi.
Proof.
  intros Fx Fy Fl Fh H.
  destruct x as [sx|sx| |sx mx ex]; try discriminate;
    destruct y as [sy|sy| |sy my ey]; try discriminate; cbn [SFsub].
  - cbn [B2R] in H. split; [now destruct sx, sy|].
    destruct sx, sy; cbn [B2R]; lra.
  - cbn [B2R] in H |- *. split; [reflexivity|].
    rewrite !F2R_cond_Zopp in *. destruct sy; cbn [negb]; lra.
  - cbn [B2R] in H |- *. split; [reflexivity | lra].
  - apply normalize_sandwich; [exact Fl | exact Fh|].
    rewrite F2R_minus, !aligned_value by lia. exact H.
Qed.

(** The product of two valid mantissas is at least as fine as its
    canonical exponent. *)
Lemma mul_exponent (sx : bool) (mx : positive) (ex : Z) (sy : bool)
    (my : positive) (ey : Z) :
  valid_binary (S754_finite sx mx ex) = true ->
  valid_binary (S754_finite sy my ey) = true ->
  (ex + ey <= fexp prec emax (Zpos (digits2_pos (mx * my)) + (ex + ey)))%Z.
Proof.
  intros Vx Vy.
  destruct (valid_canonical sx mx ex Vx) as (Hex & Hdx & Cx & _ & _).
  destruct (valid_canonical sy my ey Vy) as (Hey & Hdy & Cy & _ & _).
  pose proof (digits2_bounds mx) as [Lx Ux].
  pose proof (digits2_bounds my) as [Ly Uy].
  pose proof (digits2_bounds (mx * my)) as [L U].
  set (dx := Zpos (digits2_pos mx)) in *.
  set (dy := Zpos (digits2_pos my)) in *.
  set (D := Zpos (digits2_pos (mx * my))) in *.
  assert (Hdx0 : (0 < dx)%Z) by (subst dx; lia).
  assert (Hdy0 : (0 < dy)%Z) by (subst dy; lia).
  assert (HD : (dx + dy - 1 <= D)%Z).
  { destruct (Z.le_gt_cases (dx + dy - 1) D) as [H|H]; [exact H|].
    assert (2 ^ D <= 2 ^ (dx - 1 + (dy - 1)))%Z
      by (apply Z.pow_le_mono_r; lia).
    rewrite Z.pow_add_r in H0 by lia.
    rewrite Pos2Z.inj_mul in U.
    assert (0 < 2 ^ (dx - 1))%Z by (apply Z.pow_pos_nonneg; lia).
    assert (0 < 2 ^ (dy - 1))%Z by (apply Z.pow_pos_nonneg; lia).
    nia. }
  rewrite fexp_eq. lia.
Qed.

Lemma SFmul_sandwich (x y : spec_float) (lo hi : R) :
  valid_binary x = true -> valid_binary y = true ->
  SF_finite x = true -> SF_finite y = true ->
  format lo -> format hi -> lo <= B2R x * B2R y <= hi ->
  SF_finite (SFmul prec emax x y) = true /\
  lo <= B2R (SFmul prec emax x y) <= hi.
Proof.
  intros Vx Vy Fx Fy Fl Fh H.
  destruct x as [sx|sx| |sx mx ex]; try discriminate;
    destruct y as [sy|sy| |sy my ey]; try discriminate; cbn [SFmul];
    try (cbn [B2R] in H |- *; split; [reflexivity | lra]).
  pose proof (round_aux_sandwich (xorb sx sy) (mx * my) (ex + ey)
                (mul_exponent sx mx ex sy my ey Vx Vy)) as Hr.
  apply (rounds_signed _ (xorb sx sy) (F2R (Zpos (mx * my)) (ex + ey)));
    [exact Hr | apply F2R_pos | exact Fl | exact Fh|].
  cbn [B2R] in H. rewrite !F2R_cond_Zopp in H.
  rewrite Pos2Z.inj_mul, F2R_mult.
  destruct sx, sy; cbn [xorb]; lra.
Qed.

(** The product of two positive numbers, when it is below the middle
    of two numbers of the format, is the lower one. *)
Lemma SFmul_down (mx : positive) (ex : Z) (my : positive) (ey : Z)
    (Mz Ez : Z) :
  valid_binary (S754_finite false mx ex) = true ->
  valid_binary (S754_finite false my ey) = true ->
  (2 ^ 52 <= Mz < 2 ^ 53)%Z -> (-1074 <= Ez <= 971)%Z ->
  let p := F2R (Zpos mx) ex * F2R (Zpos my) ey in
  F2R Mz Ez <= p -> 2 * (p - F2R Mz Ez) < pow2 Ez ->
  SF_finite (SFmul prec emax (S754_finite false mx ex)
               (S754_finite false my ey)) = true /\
  B2R (SFmul prec emax (S754_finite false mx ex) (S754_finite false my ey))
  = F2R Mz Ez.
Proof.
  intros Vx Vy HMz HEz p Hle Hhalf. cbn [SFmul xorb].
  pose proof (round_aux_sandwich false (mx * my) (ex + ey)
                (mul_exponent false mx ex false my ey Vx Vy)) as Hr.
  rewrite Pos2Z.inj_mul, F2R_mult in Hr. fold p in Hr.
  now apply (rounds_down _ p Mz Ez Hr).
Qed.
End OpsR.

Section CompareR.
Local Open Scope R_scope.

(** On canonical mantissas the order of the exponents, then of the
    mantissas, is the order of the numbers. *)
Lemma compare_canonical (s1 : bool) (m1 : positive) (e1 : Z) (s2 : bool)
    (m2 : positive) (e2 : Z) :
  valid_binary (S754_finite s1 m1 e1) = true ->
  valid_binary (S754_finite s2 m2 e2) = true ->
  match (match (e1 ?= e2)%Z with
         | Lt => Lt
         | Gt => Gt
         | Eq => Pos.compare_cont Eq m1 m2
         end) with
  | Lt => F2R (Zpos m1) e1 < F2R (Zpos m2) e2
  | Eq => F2R (Zpos m1) e1 = F2R (Zpos m2) e2
  | Gt => F2R (Zpos m2) e2 < F2R (Zpos m1) e1
  end.
Proof.
  intros V1 V2.
  destruct (valid_canonical s1 m1 e1 V1) as (He1 & _ & _ & U1 & L1).
  destruct (valid_canonical s2 m2 e2 V2) as (He2 & _ & _ & U2 & L2).
  destruct (Z.compare_spec e1 e2) as [E|L|G].
  - subst e2. change (Pos.compare_cont Eq m1 m2) with (m1 ?= m2)%positive.
    destruct (Pos.compare_spec m1 m2) as [E|L|G].
    + now subst m2.
    + apply F2R_lt. lia.
    + apply F2R_lt. lia.
  - pose proof (F2R_lt_pow2 (Zpos m1) e1 ltac:(lia)).
    pose proof (F2R_ge_pow2 (Zpos m2) e2 ltac:(lia)).
    pose proof (pow2_le (53 + e1) (52 + e2) ltac:(lia)). lra.
  - pose proof (F2R_lt_pow2 (Zpos m2) e2 ltac:(lia)).
    pose proof (F2R_ge_pow2 (Zpos m1) e1 ltac:(lia)).
    pose proof (pow2_le (53 + e2) (52 + e1) ltac:(lia)). lra.
Qed.

(** On valid finite numbers [SFcompare] is the order of the reals. *)
Lemma SFcompare_R (x y : spec_float) :
  valid_binary x = true -> valid_binary y = true ->
  SF_finite x = true -> SF_finite y = true ->
  exists c, SFcompare x y = Some c /\
    match c with
    | Lt => B2R x < B2R y
    | Eq => B2R x = B2R y
    | Gt => B2R y < B2R x
    end.
Proof.
  intros Vx Vy Fx Fy.
  destruct x as [sx|sx| |sx mx ex]; try discriminate;
    destruct y as [sy|sy| |sy my ey]; try discriminate;
    cbn [SFcompare B2R].
  - exists Eq. split; reflexivity.
  - pose proof (F2R_pos my ey). rewrite F2R_cond_Zopp.
    destruct sy; eexists; (split; [reflexivity|]); cbn; lra.
  - pose proof (F2R_pos mx ex). rewrite F2R_cond_Zopp.
    destruct sx; eexists; (split; [reflexivity|]); cbn; lra.
  - pose proof (F2R_pos mx ex). pose proof (F2R_pos my ey).
    rewrite !F2R_cond_Zopp.
    pose proof (compare_canonical sx mx ex sy my ey Vx Vy) as C.
    destruct sx, sy; eexists; (split; [reflexivity|]); try (cbn; lra).
    + destruct (ex ?= ey)%Z; try lra.
      destruct (Pos.compare_cont Eq mx my); cbn [CompOpp]; lra.
    + exact C.
Qed.

Lemma is_finite_SF (x : float) :
  is_finite x = true <-> SF_finite (Prim2SF x) = true.
Proof. apply is_finite_spec. Qed.

Lemma f64_ltb_R (x y : float) :
  is_finite x = true -> is_finite y = true ->
  ((x <? y)%float = true <-> f64R x < f64R y).
Proof.
  intros Fx Fy. apply is_finite_SF in Fx, Fy.
  rewrite ltb_spec. unfold SFltb, f64R.
  destruct (SFcompare_R (Prim2SF x) (Prim2SF y) (Prim2SF_valid x)
              (Prim2SF_valid y) Fx Fy) as (c & -> & Hc).
  destruct c; split; intros H; try reflexivity; try discriminate; lra.
Qed.

Lemma f64_leb_R (x y : float) :
  is_finite x = true -> is_finite y = true ->
  ((x <=? y)%float = true <-> f64R x <= f64R y).
Proof.
  intros Fx Fy. apply is_finite_SF in Fx, Fy.
  rewrite leb_spec. unfold SFleb, f64R.
  destruct (SFcompare_R (Prim2SF x) (Prim2SF y) (Prim2SF_valid x)
              (Prim2SF_valid y) Fx Fy) as (c & -> & Hc).
  destruct c; split; intros H; try reflexivity; try discriminate; lra.
Qed.

Lemma f64_format (x : float) : format (f64R x).
Proof. apply valid_format, Prim2SF_valid. Qed.

Lemma f64_add_sandwich (x y : float) (lo hi : R) :
  is_finite x = true -> is_finite y = true ->
  format lo -> format hi -> lo <= f64R x + f64R y <= hi ->
  is_finite (x + y)%float = true /\ lo <= f64R (x + y)%float <= hi.
Proof.
  intros Fx Fy Fl Fh H. rewrite is_finite_SF in *. unfold f64R in *.
  rewrite add_spec. now apply SFadd_sandwich.
Qed.

Lemma f64_sub_sandwich (x y : float) (lo hi : R) :
  is_finite x = true -> is_finite y = true ->
  format lo -> format hi -> lo <= f64R x - f64R y <= hi ->
  is_finite (x - y)%float = true /\ lo <= f64R (x - y)%float <= hi.
Proof.
  intros Fx Fy Fl Fh H. rewrite is_finite_SF in *. unfold f64R in *.
  rewrite sub_spec. now apply SFsub_sandwich.
Qed.

Lemma f64_mul_sandwich (x y : float) (lo hi : R) :
  is_finite x = true -> is_finite y = true ->
  format lo -> format hi -> lo <= f64R x * f64R y <= hi ->
  is_finite (x * y)%float = true /\ lo <= f64R (x * y)%float <= hi.
Proof.
  intros Fx Fy Fl Fh H. rewrite is_finite_SF in *. unfold f64R in *.
  rewrite mul_spec.
  apply SFmul_sandwich; auto using Prim2SF_valid.
Qed.

(** An operation whose exact result is a number of the format returns
    that number. *)
Lemma f64_add_exact (x y : float) :
  is_finite x = true -> is_finite y = true ->
  format (f64R x + f64R y) ->
  is_finite (x + y)%float = true /\ f64R (x + y)%float = f64R x + f64R y.
Proof.
  intros Fx Fy Fz.
  destruct (f64_add_sandwich x y _ _ Fx Fy Fz Fz ltac:(lra)) as [F V].
  split; [exact F | lra].
Qed.

Lemma f64_sub_exact (x y : float) :
  is_finite x = true -> is_finite y = true ->
  format (f64R x - f64R y) ->
  is_finite (x - y)%float = true /\ f64R (x - y)%float = f64R x - f64R y.
Proof.
  intros Fx Fy Fz.
  destruct (f64_sub_sandwich x y _ _ Fx Fy Fz Fz ltac:(lra)) as [F V].
  split; [exact F | lra].
Qed.
End CompareR.

Section DrawRange.
Local Open Scope R_scope.

(** A subtraction with a positive exact result either is exact or
    rounds that result. *)
Lemma f64_sub_rounds (x y : float) :
  is_finite x = true -> is_finite y = true ->
  0 < f64R x - f64R y ->
  f64R (x - y)%float = f64R x - f64R y \/
  rounds (Prim2SF (x - y)%float) false (f64R x - f64R y).
Proof.
  intros Fx Fy HD. rewrite is_finite_SF in *. unfold f64R in *.
  rewrite sub_spec. unfold SF64sub.
  destruct (Prim2SF x) as [sx|sx| |sx mx ex]; try discriminate;
    destruct (Prim2SF y) as [sy|sy| |sy my ey]; try discriminate;
    cbn [SFsub].
  - cbn [B2R] in HD. lra.
  - left. cbn [B2R]. rewrite !F2R_cond_Zopp. destruct sy; cbn [negb]; lra.
  - left. cbn [B2R]. lra.
  - right.
    assert (V : F2R (cond_Zopp sx (Zpos (fst (shl_align mx ex (Z.min ex ey))))
                     - cond_Zopp sy (Zpos (fst (shl_align my ey (Z.min ex ey)))))
                  (Z.min ex ey)
                = B2R (S754_finite sx mx ex) - B2R (S754_finite sy my ey)).
    { rewrite F2R_minus, !aligned_value by lia. reflexivity. }
    rewrite <- V in HD |- *.
    destruct (cond_Zopp sx _ - cond_Zopp sy _)%Z as [|m|m];
      cbn [binary_normalize].
    + rewrite F2R_0 in HD. lra.
    + apply round_sandwich.
    + change (Zneg m) with (- Zpos m)%Z in HD. rewrite F2R_opp in HD.
      pose proof (F2R_pos m (Z.min ex ey)). lra.
Qed.

(** The product of two positive finite numbers rounds their exact
    product. *)
Lemma f64_mul_rounds (x y : float) :
  is_finite x = true -> is_finite y = true ->
  0 < f64R x -> 0 < f64R y ->
  rounds (Prim2SF (x * y)%float) false (f64R x * f64R y).
Proof.
  intros Fx Fy Hx Hy. rewrite is_finite_SF in *. unfold f64R in *.
  rewrite mul_spec. unfold SF64mul.
  pose proof (Prim2SF_valid x) as Vx. pose proof (Prim2SF_valid y) as Vy.
  destruct (Prim2SF x) as [sx|sx| |sx mx ex]; try discriminate;
    destruct (Prim2SF y) as [sy|sy| |sy my ey]; try discriminate;
    cbn [B2R] in Hx, Hy; try lra.
  rewrite F2R_cond_Zopp in Hx, Hy.
  pose proof (F2R_pos mx ex). pose proof (F2R_pos my ey).
  destruct sx; [lra|]. destruct sy; [lra|].
  cbn [SFmul xorb B2R cond_Zopp].
  rewrite <- F2R_mult, <- Pos2Z.inj_mul.
  apply round_aux_sandwich.
  now apply (mul_exponent false mx ex false my ey).
Qed.

(** Every finite number is a multiple of [2^-1074]. *)
Lemma format_grid (z : R) :
  format z -> exists K, z = F2R K (-1074).
Proof.
  intros (M & E & -> & _ & HE). exists (M * 2 ^ (E + 1074))%Z.
  rewrite (F2R_align M E (-1074)) by lia. do 3 f_equal; lia.
Qed.

(** The largest number below 1 is [1 - 2^-53]. *)
Lemma f64_below_one (r : float) :
  is_finite r = true -> f64R r < 1 -> f64R r <= F2R (2 ^ 53 - 1) (-53).
Proof.
  intros Fr H1. rewrite is_finite_SF in Fr. unfold f64R in *.
  pose proof (Prim2SF_valid r) as V.
  assert (P : 0 < F2R (2 ^ 53 - 1) (-53)).
  { pose proof (F2R_lt 0 (2 ^ 53 - 1) (-53) ltac:(lia)).
    now rewrite F2R_0 in H. }
  destruct (Prim2SF r) as [s|s| |s m e]; try discriminate;
    cbn [B2R] in *; try lra.
  rewrite F2R_cond_Zopp in *. pose proof (F2R_pos m e) as Pm.
  destruct s; [lra|].
  destruct (valid_canonical false m e V) as (He & _ & _ & U & L).
  assert (E53 : (e <= -53)%Z).
  { destruct (Z.le_gt_cases e (-53)) as [A|B]; [exact A | exfalso].
    pose proof (F2R_ge_pow2 (Zpos m) e (L ltac:(lia))).
    pose proof (pow2_le 0 (52 + e) ltac:(lia)). rewrite pow2_0 in H0. lra. }
  apply Rle_trans with (F2R (2 ^ 53 - 1) e).
  - apply F2R_le. lia.
  - rewrite (F2R_align (2 ^ 53 - 1) (-53) e E53).
    apply F2R_le.
    assert (1 <= 2 ^ (-53 - e))%Z
      by (assert (0 < 2 ^ (-53 - e))%Z by (apply Z.pow_pos_nonneg; lia); lia).
    nia.
Qed.

Lemma in_half_open_finite (r : float) :
  in_half_open 0 1 r = true -> is_finite r = true.
Proof.
  unfold in_half_open. rewrite is_finite_SF, leb_spec, ltb_spec.
  change (Prim2SF 0) with (S754_zero false).
  change (Prim2SF 1) with (S754_finite false 4503599627370496 (-52)).
  intros H. apply andb_true_iff in H as [A B].
  destruct (Prim2SF r) as [s|[|]| |s m e]; try reflexivity;
    cbn in A, B; discriminate.
Qed.

(** The key step: the rounded product [r * d] does not exceed the
    exact difference [D], when [d] is the rounding of [D] and
    [r < 1]. *)
Lemma scaled_difference (r d : float) (D : R) :
  is_finite r = true -> is_finite d = true ->
  0 <= f64R r -> f64R r < 1 ->
  (exists K, D = F2R K (-1074)) ->
  0 <= D ->
  f64R d = D \/ (0 < D /\ rounds (Prim2SF d) false D) ->
  is_finite (r * d)%float = true /\ 0 <= f64R (r * d)%float <= D.
Proof.
  intros Fr Fd Hr0 Hr1 (K & HK) HD0 Hd.
  pose proof (f64_below_one r Fr Hr1) as Hr.
  assert (E53 : F2R (2 ^ 53 - 1) (-53) = 1 - pow2 (-53)).
  { rewrite F2R_minus, F2R_1, F2R_pow2 by lia.
    change (53 + -53)%Z with 0%Z. now rewrite pow2_0. }
  pose proof (pow2_pos (-53)) as P53.
  assert (Eps : pow2 (-53) * IZR (2 ^ 53) = 1).
  { rewrite <- pow2_Z by lia. rewrite <- pow2_add. reflexivity. }
  destruct Hd as [Ex | [HD Rd]].
  - (* the difference is exact *)
    apply (f64_mul_sandwich r d 0 D Fr Fd format_0).
    + rewrite <- Ex. apply f64_format.
    + rewrite Ex. nra.
  - (* the difference was rounded *)
    assert (Rd' := Rd).
    destruct Rd' as (M & E & ES & HM & HE & HM52 & Hup & Hlo & _).
    assert (Fd' := Fd). rewrite is_finite_SF, ES in Fd'.
    assert (Hfin : (M = 0 \/ E <= 971)%Z).
    { unfold SFmake in Fd'. destruct M as [|p|p]; [now left | | lia].
      right. destruct (E <=? emax - prec)%Z eqn:L; [|discriminate].
      now apply Z.leb_le in L. }
    destruct (B2R_SFmake false M E ltac:(lia) Hfin) as [_ Vd].
    assert (Vd' : f64R d = F2R M E) by (unfold f64R; now rewrite ES, Vd).
    assert (Hd0 : 0 <= f64R d).
    { rewrite Vd'. pose proof (F2R_le 0 M E ltac:(lia)).
      now rewrite F2R_0 in H. }
    destruct (Rle_lt_dec (f64R d) D) as [Le|Gt].
    { (* rounded down: as in the exact case *)
      destruct (f64_mul_sandwich r d 0 (f64R d) Fr Fd format_0
                  (f64_format d)) as [F [V0 V1]]; [nra|].
      split; [exact F | lra]. }
    (* rounded up: the number of the format below [d] is below [D] *)
    rewrite Vd' in Gt.
    assert (HMpos : (0 < M)%Z).
    { destruct (Z.le_gt_cases M 0) as [A|B]; [|exact B].
      pose proof (F2R_le M 0 E A). rewrite F2R_0 in H. lra. }
    assert (HE971 : (E <= 971)%Z) by lia.
    assert (Pred : forall Mz Ez, (0 <= Mz < 2 ^ 53)%Z -> (-1074 <= Ez)%Z ->
                     F2R Mz Ez < F2R M E -> F2R Mz Ez <= D).
    { intros Mz Ez HMz HEz Hlt.
      destruct (Rle_lt_dec (F2R Mz Ez) D) as [A|B]; [exact A|].
      pose proof (Hup Mz Ez HMz HEz ltac:(lra)). lra. }
    destruct (Z.eq_dec E (-1074)) as [Emin|Enorm].
    { (* at the least exponent the difference is exact *)
      exfalso. subst E. rewrite HK in Gt, HD.
      assert (K < M)%Z by (apply (F2R_lt_inv _ _ (-1074)); lra).
      assert (0 < K)%Z.
      { apply (F2R_lt_inv _ _ (-1074)). now rewrite F2R_0. }
      pose proof (Hup K (-1074)%Z ltac:(lia) ltac:(lia)) as HH.
      rewrite <- HK in HH. specialize (HH ltac:(lra)). rewrite HK in HH.
      lra. }
    specialize (HM52 ltac:(lia)).
    destruct (Rle_lt_dec (f64R r) 0) as [R0|R0].
    { destruct (f64_mul_sandwich r d 0 0 Fr Fd format_0 format_0)
        as [F V]; [nra|].
      split; [exact F | lra]. }
    assert (Rm : rounds (Prim2SF (r * d)%float) false (f64R r * f64R d)).
    { apply f64_mul_rounds; try assumption. rewrite Vd'. lra. }
    assert (U : 0 < pow2 E) by apply pow2_pos.
    assert (Bound : forall Mz Ez, (0 <= Mz < 2 ^ 53)%Z ->
              (-1074 <= Ez <= 971)%Z -> F2R Mz Ez < F2R M E ->
              f64R r * f64R d <= F2R Mz Ez ->
              is_finite (r * d)%float = true /\
              0 <= f64R (r * d)%float <= D).
    { intros Mz Ez HMz HEz Hlt Hle.
      assert (Fz : format (F2R Mz Ez)).
      { exists Mz, Ez. split; [reflexivity|]. split; [lia | exact HEz]. }
      destruct (rounds_le _ _ (F2R Mz Ez) Rm ltac:(nra) Fz Hle)
        as [F [V0 V1]].
      split; [now apply is_finite_SF|]. unfold f64R at 1 2.
      pose proof (Pred Mz Ez HMz ltac:(lia) Hlt). lra. }
    destruct (Z.eq_dec M (2 ^ 52)) as [Mpow|Mbig].
    + (* [d] is a power of two *)
      apply (Bound (2 ^ 53 - 1)%Z (E - 1)%Z); [lia | lia | |].
      * rewrite (F2R_align M E (E - 1)) by lia. apply F2R_lt.
        replace (E - (E - 1))%Z with 1%Z by lia. rewrite Mpow. lia.
      * rewrite Vd', Mpow.
        assert (EE : pow2 E = 2 * pow2 (E - 1)).
        { replace E with (E - 1 + 1)%Z at 1 by lia.
          rewrite pow2_add, pow2_1. ring. }
        unfold F2R. rewrite EE, minus_IZR. 
        change (IZR (2 ^ 53)) with (IZR (2 ^ 53)) in Eps.
        pose proof (pow2_pos (E - 1)) as P1.
        assert (f64R r <= 1 - pow2 (-53)) by lra.
        assert (HH : IZR (2 ^ 53) = 2 * IZR (2 ^ 52))
          by (rewrite <- mult_IZR; reflexivity).
        rewrite HH in *. 
        assert (0 < IZR (2 ^ 52)) by (apply IZR_lt; lia).
        nra.
    + (* the mantissa below is still normal *)
      assert (Vp : F2R (M - 1) E = F2R M E - pow2 E)
        by now rewrite F2R_minus, F2R_1.
      destruct (Rle_lt_dec (f64R r * f64R d) (F2R (M - 1) E)) as [A|B].
      * apply (Bound (M - 1)%Z E); [lia | lia | lra | exact A].
      * destruct (rounds_down _ _ (M - 1)%Z E Rm ltac:(lia) ltac:(lia)
                    ltac:(lra)) as [F V].
        { rewrite Vp, Vd'. unfold F2R.
          assert (f64R r <= 1 - pow2 (-53)) by lra.
          assert (HM' : IZR (2 ^ 52 + 1) <= IZR M) by (apply IZR_le; lia).
          rewrite plus_IZR in HM'.
          assert (HH : IZR (2 ^ 53) = 2 * IZR (2 ^ 52))
            by (rewrite <- mult_IZR; reflexivity).
          rewrite HH in Eps.
          assert (0 < IZR (2 ^ 52)) by (apply IZR_lt; lia).
          assert (Q1 : pow2 (-53) * IZR M > 1 / 2) by nra.
          assert (Q2 : f64R r * IZR M <= IZR M - pow2 (-53) * IZR M).
          { assert (0 <= IZR M) by lra. nra. }
          nra. }
        split; [now apply is_finite_SF|]. unfold f64R at 1 2. rewrite V.
        pose proof (Pred (M - 1)%Z E ltac:(lia) ltac:(lia) ltac:(lra)).
        split; [|exact H].
        pose proof (F2R_le 0 (M - 1) E ltac:(lia)). now rewrite F2R_0 in H0.
Qed.

(** The range of a draw.  For finite [lo <= hi] whose difference does not
    overflow, and a draw [r] with [0 <= r < 1], the value
    [lo + r * (hi - lo)] computed in binary64 is within [[lo, hi]]. *)
Lemma draw_in_range (lo hi r : float) :
  is_finite lo = true -> is_finite hi = true ->
  (lo <=? hi)%float = true -> is_finite (hi - lo)%float = true ->
  in_half_open 0 1 r = true ->
  in_range lo hi (lo + r * (hi - lo))%float = true.
Proof.
  intros Fl Fh Hle Fd Hr.
  pose proof (in_half_open_finite r Hr) as Fr.
  unfold in_half_open in Hr. apply andb_true_iff in Hr as [Hr0 Hr1].
  apply (f64_leb_R 0 r eq_refl Fr) in Hr0.
  apply (f64_ltb_R r 1 Fr eq_refl) in Hr1.
  apply (f64_leb_R lo hi Fl Fh) in Hle.
  assert (Z0 : f64R 0 = 0) by reflexivity.
  assert (Z1 : f64R 1 = 1).
  { unfold f64R. change (Prim2SF 1)
      with (S754_finite false 4503599627370496 (-52)).
    cbn [B2R cond_Zopp].
    change (F2R 4503599627370496 (-52)) with (F2R (1 * 2 ^ 52) (0 - 52)).
    rewrite (F2R_shift 1 0 52) by lia. now rewrite F2R_1, pow2_0. }
  rewrite Z0 in Hr0. rewrite Z1 in Hr1.
  set (D := f64R hi - f64R lo).
  assert (HD : 0 <= D) by (unfold D; lra).
  assert (HK : exists K, D = F2R K (-1074)).
  { destruct (format_grid _ (f64_format hi)) as [Kh Eh].
    destruct (format_grid _ (f64_format lo)) as [Kl El].
    exists (Kh - Kl)%Z. unfold D. now rewrite F2R_minus, Eh, El. }
  assert (Hd : f64R (hi - lo)%float = D \/
               (0 < D /\ rounds (Prim2SF (hi - lo)%float) false D)).
  { destruct (Rle_lt_dec D 0) as [L|G].
    - left. assert (E0 : D = 0) by lra. rewrite E0.
      destruct (f64_sub_sandwich hi lo 0 0 Fh Fl format_0 format_0)
        as [_ V]; [fold D; lra | lra].
    - destruct (f64_sub_rounds hi lo Fh Fl G) as [E|R]; [now left|].
      right. split; [exact G | exact R]. }
  destruct (scaled_difference r (hi - lo)%float D Fr Fd Hr0 Hr1 HK HD Hd)
    as [Fp [P0 P1]].
  destruct (f64_add_sandwich lo (r * (hi - lo))%float (f64R lo) (f64R hi)
              Fl Fp (f64_format lo) (f64_format hi)) as [Fv [V0 V1]].
  { unfold D in P1. lra. }
  unfold in_range. apply andb_true_iff. split.
  - now apply (f64_leb_R _ _ Fl Fv).
  - now apply (f64_leb_R _ _ Fv Fh).
Qed.
End DrawRange.

(* ================================================================== *)
(** * The square wave in binary64, where no operation rounds *)

Section SquareF64.
Local Open Scope R_scope.

Lemma dyadic_R (k z : Z) (x : float) :
  dyadic k z x = true -> is_finite x = true /\ f64R x = F2R z k.
Proof.
  unfold dyadic, f64R. rewrite is_finite_SF.
  destruct (Prim2SF x) as [s|s| |s m e]; try discriminate.
  - intros H. apply Z.eqb_eq in H. subst z. split; [reflexivity|].
    cbn [B2R]. now rewrite F2R_0.
  - intros H. split; [reflexivity|]. cbn [B2R].
    destruct (e <=? k)%Z eqn:L.
    + apply Z.leb_le in L. apply Z.eqb_eq in H. rewrite H.
      symmetry. now apply F2R_align.
    + apply Z.leb_gt in L. apply Z.eqb_eq in H. rewrite <- H.
      apply F2R_align. lia.
Qed.

Lemma format_F2R (z k : Z) :
  (Z.abs z < 2 ^ 53)%Z -> (-1074 <= k <= 971)%Z -> format (F2R z k).
Proof. intros Hz Hk. exists z, k. auto. Qed.

Lemma F2R_inj (m1 m2 e : Z) : F2R m1 e = F2R m2 e -> m1 = m2.
Proof.
  intros H. apply Z.le_antisymm; apply (F2R_le_inv _ _ e); lra.
Qed.

Lemma dyadic_intro (k z : Z) (x : float) :
  is_finite x = true -> f64R x = F2R z k -> dyadic k z x = true.
Proof.
  unfold dyadic, f64R. rewrite is_finite_SF.
  destruct (Prim2SF x) as [s|s| |s m e]; try discriminate; intros _ H.
  - cbn [B2R] in H. apply Z.eqb_eq. apply (F2R_inj z 0 k).
    now rewrite F2R_0.
  - cbn [B2R] in H. destruct (e <=? k)%Z eqn:L.
    + apply Z.leb_le in L. apply Z.eqb_eq.
      rewrite (F2R_align z k e L) in H. now apply F2R_inj in H.
    + apply Z.leb_gt in L. apply Z.eqb_eq.
      rewrite (F2R_align _ e k) in H by lia. now apply F2R_inj in H.
Qed.

(** Halving a number that is not too small is exact. *)
Lemma f64_half_exact (w : float) :
  is_finite w = true -> pow2 (-1019) <= f64R w ->
  is_finite (w / cst 2)%float = true /\
  f64R (w / cst 2)%float = f64R w / 2.
Proof.
  intros Fw Hw. rewrite is_finite_SF in *. unfold f64R in *.
  rewrite div_spec. unfold SF64div.
  change (Prim2SF (cst 2)) with (S754_finite false 4503599627370496 (-51)).
  pose proof (Prim2SF_valid w) as V.
  pose proof (pow2_pos (-1019)) as P.
  destruct (Prim2SF w) as [s|s| |s m e]; try discriminate;
    cbn [B2R] in Hw; try lra.
  rewrite F2R_cond_Zopp in Hw. pose proof (F2R_pos m e) as Pm.
  destruct s; [lra|].
  destruct (valid_canonical false m e V) as (He & Hd & Cd & U & L).
  assert (He' : (-1072 <= e)%Z).
  { pose proof (F2R_lt_pow2 (Zpos m) e ltac:(lia)).
    assert (-1019 < 53 + e)%Z by (apply pow2_lt_inv; lra). lia. }
  assert (D53 : Zpos (digits2_pos m) = 53%Z) by lia.
  cbn [SFdiv xorb]. unfold SFdiv_core_binary. cbn [Zdigits2].
  rewrite D53.
  change (Zpos (digits2_pos 4503599627370496)) with 53%Z.
  rewrite fexp_eq.
  replace (Z.min (Z.max (53 + e - (53 + -51) - 53) (-1074)) (e - -51))
    with (e - 2)%Z by lia.
  replace (e - -51 - (e - 2))%Z with 53%Z by lia.
  rewrite Z.shiftl_mul_pow2 by lia.
  assert (Ed : Z.div_eucl (Zpos m * 2 ^ 53) 4503599627370496
               = (2 * Zpos m, 0)%Z).
  { pose proof (Z_div_mod_full (Zpos m * 2 ^ 53) 4503599627370496
                  ltac:(lia)) as Hdm.
    destruct (Z.div_eucl (Zpos m * 2 ^ 53) 4503599627370496) as [q r].
    destruct Hdm as [Hq Hr]. destruct Hr as [Hr|Hr]; [|lia].
    change (2 ^ 53)%Z with (2 * 4503599627370496)%Z in Hq.
    assert (r = 0)%Z by nia. subst r. f_equal. nia. }
  rewrite Ed. change (new_location 4503599627370496 0) with loc_Exact.
  change (2 * Zpos m)%Z with (Zpos (m~0)).
  pose proof (round_aux_sandwich false (m~0) (e - 2)) as Hr.
  assert (D54 : Zpos (digits2_pos (m~0)) = 54%Z)
    by (cbn [digits2_pos]; lia).
  rewrite D54, fexp_eq in Hr. specialize (Hr ltac:(lia)).
  assert (Vh : F2R (Zpos m~0) (e - 2) = F2R (Zpos m) e / 2).
  { change (Zpos m~0) with (2 * Zpos m)%Z.
    rewrite (F2R_align (Zpos m) e (e - 2)) by lia.
    replace (e - (e - 2))%Z with 2%Z by lia.
    replace (2 ^ 2)%Z with 4%Z by reflexivity. unfold F2R.
    rewrite !mult_IZR.
    replace (e - 2)%Z with (e + -2)%Z by lia. rewrite pow2_add.
    assert (pow2 (-2) * 4 = 1).
    { replace 4 with (pow2 2) by (unfold pow2; simpl; lra).
      rewrite <- pow2_add. reflexivity. }
    nra. }
  assert (Vt : F2R (Zpos m~0) (e - 2) = F2R (Zpos m) (e - 1)).
  { replace (Zpos m~0) with (Zpos m * 2 ^ 1)%Z by lia.
    replace (e - 2)%Z with (e - 1 - 1)%Z by lia. apply F2R_shift. lia. }
  assert (Ft : format (F2R (Zpos m) (e - 1))).
  { exists (Zpos m), (e - 1)%Z. split; [reflexivity|]. split; lia. }
  destruct (rounds_le _ _ _ Hr (F2R_pos (m~0) (e - 2)) Ft ltac:(lra))
    as [Fin [_ Vle]].
  pose proof (rounds_ge _ _ _ Hr Ft ltac:(lra) Fin) as Vge.
  split; [exact Fin|]. cbn [B2R cond_Zopp]. lra.
Qed.
End SquareF64.

Section WrapPhaseZ.
Local Open Scope Z_scope.

Lemma wrap_phase_unique (W x p j : Z) :
  0 < p <= W -> p = x - j * W -> wrap_phase W x = p.
Proof.
  intros Hp E. unfold wrap_phase.
  rewrite <- (Z.mod_unique (x - 1) W j (p - 1)); lia.
Qed.

Lemma wrap_phase_period (W x K : Z) :
  0 < W -> wrap_phase W (x + K * W) = wrap_phase W x.
Proof.
  intros HW. unfold wrap_phase.
  replace (x + K * W - 1) with (x - 1 + K * W) by lia.
  now rewrite Z.mod_add by lia.
Qed.

Lemma ideal_square_period (W x K : Z) :
  0 < W -> ideal_square W (x + K * W) = ideal_square W x.
Proof.
  intros HW. unfold ideal_square. now rewrite wrap_phase_period.
Qed.

Lemma ideal_wave_cons (W hz x : Z) (n : nat) :
  ideal_wave W hz x (S n)
  = ideal_square W (x + hz) :: ideal_wave W hz (x + hz) n.
Proof.
  unfold ideal_wave. cbn [seq map]. f_equal.
  - f_equal. lia.
  - rewrite <- seq_shift, map_map. apply map_ext. intros i.
    f_equal. lia.
Qed.
End WrapPhaseZ.

Section SquareLoopF64.
Local Open Scope Z_scope.
Variable W : float.
Variable Exp2 : float -> float.
Variable TrigSt : Type.
Variable isTrigger : TrigSt -> float -> bool * TrigSt.
Variable k Wz Hz : Z.
Variable c : float.
Hypothesis Hk : -1019 <= k <= 971.
Hypothesis HW : dyadic k Wz W = true.
Hypothesis HH : dyadic k Hz (sampleToHz Exp2 c) = true.
Hypothesis Hhz : 0 < Hz <= Wz.
Hypothesis Hfit : 2 * Wz < 2 ^ 53.

Local Abbreviation hz := (sampleToHz Exp2 c).

(** One iteration without trigger, at a pitch equal to the first
    sample of the block, on a phase that is a multiple of [2^k]: no
    operation rounds, the phase stays a multiple of [2^k] within
    [(0, W]], and the sample written is the ideal one. *)
Lemma square_step_f64 (p : float) (P x j : Z) :
  dyadic k P p = true -> 0 <= P <= Wz -> P = x - j * Wz ->
  exists p' P' j',
    square_step W Exp2 c false c (Osc p hz)
    = (Osc p' hz, cst (ideal_square Wz (x + Hz))) /\
    dyadic k P' p' = true /\ 0 < P' <= Wz /\ P' = x + Hz - j' * Wz.
Proof.
  intros HP HPr E.
  destruct (dyadic_R _ _ _ HW) as [FW VW].
  destruct (dyadic_R _ _ _ HH) as [FH VH].
  destruct (dyadic_R _ _ _ HP) as [FP VP].
  unfold square_step, pickHz.
  cbn [f_ne f_gt f_add f_sub f_div F64 osc_p osc_hz].
  assert (Ehz : (if negb (c =? c)%float then hz else hz) = hz)
    by now destruct (negb (c =? c)%float).
  rewrite Ehz.
  (* p + hz *)
  destruct (f64_add_exact p hz FP FH) as [F1 V1].
  { rewrite VP, VH, <- F2R_plus. apply format_F2R; lia. }
  rewrite VP, VH, <- F2R_plus in V1.
  (* the wrap *)
  assert (Hcmp : (W <? p + hz)%float = (Wz <? P + Hz)).
  { destruct (Wz <? P + Hz) eqn:L.
    - apply Z.ltb_lt in L. apply (f64_ltb_R _ _ FW F1).
      rewrite VW, V1. now apply F2R_lt.
    - apply Z.ltb_ge in L.
      destruct (W <? p + hz)%float eqn:L'; [|reflexivity].
      apply (f64_ltb_R _ _ FW F1) in L'. rewrite VW, V1 in L'.
      apply F2R_lt_inv in L'. lia. }
  rewrite Hcmp.
  set (P' := if Wz <? P + Hz then P + Hz - Wz else P + Hz).
  set (p' := if Wz <? P + Hz then (p + hz - W)%float else (p + hz)%float).
  assert (HP' : is_finite p' = true /\ f64R p' = F2R P' k).
  { subst p' P'. destruct (Wz <? P + Hz) eqn:L; [|now split].
    apply Z.ltb_lt in L.
    destruct (f64_sub_exact (p + hz)%float W F1 FW) as [F2 V2].
    { rewrite V1, VW, <- F2R_minus. apply format_F2R; lia. }
    split; [exact F2|]. now rewrite V2, V1, VW, <- F2R_minus. }
  destruct HP' as [F' V'].
  assert (R' : 0 < P' <= Wz).
  { subst P'. destruct (Wz <? P + Hz) eqn:L;
      [apply Z.ltb_lt in L | apply Z.ltb_ge in L]; lia. }
  assert (E' : exists j', P' = x + Hz - j' * Wz).
  { subst P'. destruct (Wz <? P + Hz); [exists (j + 1) | exists j]; lia. }
  destruct E' as [j' E'].
  exists p', P', j'. split; [|split; [|split]]; auto.
  - (* the sample *)
    f_equal.
    destruct (f64_half_exact W FW) as [Fh Vh].
    { rewrite VW. pose proof (pow2_le (-1019) k ltac:(lia)).
      pose proof (F2R_le 1 Wz k ltac:(lia)). rewrite F2R_1 in H0.
      lra. }
    unfold ideal_square.
    rewrite (wrap_phase_unique Wz (x + Hz) P' j' R' E').
    destruct (2 * P' <=? Wz) eqn:L.
    + apply Z.leb_le in L.
      destruct (W / cst 2 <? p')%float eqn:L'; [|reflexivity].
      apply (f64_ltb_R _ _ Fh F') in L'. rewrite Vh, VW, V' in L'.
      assert (F2R Wz k < F2R (2 * P') k)%R.
      { unfold F2R in *. rewrite mult_IZR. lra. }
      apply F2R_lt_inv in H. lia.
    + apply Z.leb_gt in L.
      assert (L' : (W / cst 2 <? p')%float = true).
      { apply (f64_ltb_R _ _ Fh F'). rewrite Vh, VW, V'.
        pose proof (F2R_lt Wz (2 * P') k L) as H.
        unfold F2R in *. rewrite mult_IZR in H. lra. }
      now rewrite L'.
  - now apply dyadic_intro.
Qed.

(** The loop at constant pitch [c] and without trigger events writes
    the ideal square wave. *)
Lemma square_loop_f64 (n : nat) :
  forall (t : list float) (ts : TrigSt) (p : float) (P x j : Z),
  dyadic k P p = true -> 0 <= P <= Wz -> P = x - j * Wz ->
  firstn n (fired isTrigger ts t) = repeat false n ->
  exists p' ts' P' j',
    osc_loop isTrigger (square_step W Exp2) c ts (Osc p hz) (repeat c n) t
    = Some (map cst (ideal_wave Wz Hz x n), Osc p' hz, ts') /\
    dyadic k P' p' = true /\ 0 <= P' <= Wz /\
    ((0 < n)%nat -> 0 < P') /\
    P' = x + Z.of_nat n * Hz - j' * Wz.
Proof.
  induction n as [|n IH]; intros t ts p P x j HP HPr E Hf.
  - exists p, ts, P, j. repeat split; auto; lia.
  - destruct t as [|ti t]; [discriminate|].
    cbn [repeat osc_loop]. cbn [fired] in Hf.
    destruct (isTrigger ts ti) as [f ts1]. cbn [firstn repeat] in Hf.
    injection Hf as -> Hf.
    destruct (square_step_f64 p P x j HP HPr E)
      as (p1 & P1 & j1 & Es & HP1 & R1 & E1).
    rewrite Es.
    destruct (IH t ts1 p1 P1 (x + Hz) j1 HP1 ltac:(lia) E1 Hf)
      as (p' & ts' & P' & j' & El & HP' & R' & Rp & E').
    rewrite El. exists p', ts', P', j'. split.
    + now rewrite ideal_wave_cons.
    + split; [exact HP'|]. split; [exact R'|]. split; [|lia].
      intros _. destruct n as [|n']; [|apply Rp; lia].
      cbn [repeat osc_loop] in El.
      assert (Ep : p1 = p') by congruence. subst p'.
      destruct (dyadic_R _ _ _ HP1) as [_ V1].
      destruct (dyadic_R _ _ _ HP') as [_ V'].
      rewrite V1 in V'. apply F2R_inj in V'. lia.
Qed.
End SquareLoopF64.

(** A trigger event resets the phase before anything else in the
    iteration: the iteration runs as one without trigger from phase 0.
    This holds in any arithmetic. *)
Lemma square_step_trigger_resets {F : Type} {ops : SampleOps F}
    (waveHz : F) (Exp2 : F -> F) (lastS si p hz : F) :
  square_step waveHz Exp2 lastS true si (Osc p hz)
  = square_step waveHz Exp2 lastS false si (Osc (cst 0) hz).
Proof. reflexivity. Qed.

(** C2, as the code has it, in binary64.  Let the pitch buffer hold
    [n > 0] copies of [c] and let no trigger fire.  Let the phase
    carried in, [hz = 440 * 2^(10 c)] and [waveHz] be multiples
    [Pz], [Hz], [Wz] of one power of two [2^k], small enough that no
    sum of two of them needs more than 53 bits, with [0 < hz <= waveHz]
    and the phase within [[0, waveHz]].  Then no operation of the loop
    rounds, and [Square.Process] writes the ideal square wave: sample
    [i] is [+1] when the phase [pos + (i+1) hz], wrapped modulo
    [waveHz] into [(0, waveHz]], is at most [waveHz/2], and [-1]
    otherwise; and it stores the wrapped phase.  That wave has period
    [waveHz/hz] samples: it repeats after [N] samples whenever [N hz]
    is a whole number of [waveHz].  And in any arithmetic a trigger
    event at a sample resets the phase to 0 before that sample is
    computed. *)
Theorem Square_constant_pitch_f64 (W : float) (Exp2 : float -> float)
    (TrigSt : Type) (isTrigger : TrigSt -> float -> bool * TrigSt)
    (pos c : float) (ts : TrigSt) (t : list float) (n : nat)
    (k Wz Hz Pz : Z) :
  (-1019 <= k <= 971)%Z ->
  dyadic k Wz W = true -> dyadic k Hz (sampleToHz Exp2 c) = true ->
  dyadic k Pz pos = true ->
  (0 < Hz <= Wz)%Z -> (0 <= Pz <= Wz)%Z -> (2 * Wz < 2 ^ 53)%Z ->
  (0 < n)%nat ->
  firstn n (fired isTrigger ts t) = repeat false n ->
  (exists pos' ts',
      Square_Process W Exp2 isTrigger pos ts (repeat c n) t
      = Some (map cst (ideal_wave Wz Hz Pz n), pos', ts') /\
      dyadic k (wrap_phase Wz (Pz + Z.of_nat n * Hz)) pos' = true) /\
  (forall N K x : Z,
      (N * Hz = K * Wz)%Z ->
      ideal_square Wz (x + N * Hz) = ideal_square Wz x) /\
  (forall (F : Type) (ops : SampleOps F) (Wf : F) (E : F -> F)
          (lastS si p h : F),
      square_step Wf E lastS true si (Osc p h)
      = square_step Wf E lastS false si (Osc (cst 0) h)).
Proof.
  intros Hk HW HH HP Hhz HPr Hfit Hn Hf. split; [|split].
  - destruct n as [|n]; [lia|].
    destruct (square_loop_f64 W Exp2 TrigSt isTrigger k Wz Hz c Hk HW HH
                Hhz Hfit (S n) t ts pos Pz Pz 0 HP HPr ltac:(lia) Hf)
      as (p' & ts' & P' & j' & El & HP' & R' & Rp & E').
    exists p', ts'. unfold Square_Process, osc_Process.
    cbn [repeat] in El |- *. rewrite El. split; [reflexivity|].
    rewrite (wrap_phase_unique Wz _ P' j'); [exact HP' | | exact E'].
    split; [apply Rp; lia | lia].
  - intros N K x E. rewrite E. apply ideal_square_period. lia.
  - intros. reflexivity.
Qed.

Lemma Square_constant_pitch_f64_witness :
  (exists pos' ts',
      Square_Process 44100%float exp2_ref edge_isTrigger 0%float 0%float
        (repeat 0%float 230) (repeat 0%float 230)
      = Some (map cst (ideal_wave 44100 440 0 230), pos', ts') /\
      dyadic 0 (wrap_phase 44100 (0 + Z.of_nat 230 * 440)) pos' = true) /\
  (forall N K x : Z,
      (N * 440 = K * 44100)%Z ->
      ideal_square 44100 (x + N * 440) = ideal_square 44100 x) /\
  (forall (F : Type) (ops : SampleOps F) (Wf : F) (E : F -> F)
          (lastS si p h : F),
      square_step Wf E lastS true si (Osc p h)
      = square_step Wf E lastS false si (Osc (cst 0) h)).
Proof.
  apply (Square_constant_pitch_f64 44100%float exp2_ref float
           edge_isTrigger 0%float 0%float 0%float (repeat 0%float 230) 230
           0 44100 440 0).
  - lia.
  - vm_compute. reflexivity.
  - vm_compute. reflexivity.
  - vm_compute. reflexivity.
  - lia.
  - lia.
  - lia.
  - lia.
  - vm_compute. reflexivity.
Defined.

(** The wave the witness writes: 50 samples of [+1], 50 of [-1], and
    a wrap of the phase after the 100th sample. *)
Example ideal_wave_440 :
  firstn 101 (ideal_wave 44100 440 0 230)
  = (repeat 1 50 ++ repeat (-1) 50 ++ [1])%Z /\
  wrap_phase 44100 (101 * 440) = 340%Z.
Proof. split; vm_compute; reflexivity. Qed.

(** One period of 2205 samples holds 22 periods of the 440 Hz wave:
    [2205 * 440 = 22 * 44100]. *)
Example ideal_square_440_repeats (x : Z) :
  ideal_square 44100 (x + 2205 * 440) = ideal_square 44100 x.
Proof.
  change (2205 * 440)%Z with (22 * 44100)%Z.
  apply ideal_square_period. lia.
Qed.

(** C2 as stated fails in two ways.  Above the sample rate: at pitch
    1 the Hz is 450560, each iteration adds it to the phase and takes
    44100 away once, the phase never comes back below 22050, and all
    256 samples of a block are -1, where the ideal wave of that
    period starts with +1.  And where an operation rounds: from the
    phase [100 + 2^-46] at pitch 0, the 100th sample is taken at the
    phase [44100 + 2^-46], which wraps to [2^-46] and gives [+1];
    binary64 has rounded the phase to 44100, which does not wrap, and
    writes [-1]. *)
Lemma Square_period_fails :
  (sampleToHz exp2_ref 1%float = 450560%float /\
   (exists pos',
       Square_Process 44100%float exp2_ref edge_isTrigger 0%float 0%float
         (repeat 1%float 256) (repeat 0%float 256)
       = Some (repeat (-1)%float 256, pos', 0%float)) /\
   nth_error (ideal_wave 44100 450560 0 256) 0 = Some 1%Z) /\
  (dyadic (-46) (100 * 2 ^ 46 + 1) 0x1.9000000000001p+6%float = true /\
   dyadic (-46) (440 * 2 ^ 46) (sampleToHz exp2_ref 0%float) = true /\
   dyadic (-46) (44100 * 2 ^ 46) 44100%float = true /\
   (exists out,
       Square_Process 44100%float exp2_ref edge_isTrigger
         0x1.9000000000001p+6%float 0%float
         (repeat 0%float 100) (repeat 0%float 100)
       = Some (out, 44100%float, 0%float) /\
       nth_error out 99 = Some (-1)%float) /\
   nth_error (ideal_wave (44100 * 2 ^ 46) (440 * 2 ^ 46)
                (100 * 2 ^ 46 + 1) 100) 99 = Some 1%Z).
Proof.
  split; [split; [|split] | split; [|split; [|split; [|split]]]];
    try (vm_compute; reflexivity).
  - eexists. vm_compute. reflexivity.
  - eexists. split; vm_compute; reflexivity.
Qed.

(* ================================================================== *)
(** * Rand: hold and draw *)

Section RandFacts.
Context {F : Type} {ops : SampleOps F}.
Variable TrigSt : Type.
Variable isTrigger : TrigSt -> F -> bool * TrigSt.
Variable Rng : Type.
Variable Float64 : Rng -> F * Rng.
Local Open Scope sample_scope.

Lemma last_cons_default (l : list F) (a d : F) :
  last (a :: l) d = last l a.
Proof.
  revert a d. induction l as [|b l IH]; intros a d; [reflexivity|].
  change (last (a :: b :: l) d) with (last (b :: l) d).
  now rewrite !IH.
Qed.

(** Without trigger event the latched value is written and kept, and
    no random number is drawn. *)
Lemma rand_step_hold (si : F) (mx : option F) (v : F) (g : Rng) :
  rand_step Float64 false si mx v g = Some (v, g).
Proof. reflexivity. Qed.

(** On a trigger event the new latched value is computed from one
    draw [r] as [s[i] + r * (max[i] - s[i])]. *)
Lemma rand_step_draw (si m v : F) (g : Rng) :
  rand_step Float64 true si (Some m) v g
  = Some (si + fst (Float64 g) * (m - si), snd (Float64 g)).
Proof.
  unfold rand_step. now destruct (Float64 g).
Qed.

(** A whole call: it returns when the secondary buffers are long
    enough; a sample without trigger event repeats the value latched
    before it (the previous output sample, or the stored value at
    index 0); a sample with a trigger event is a fresh draw between
    its own [min] and [max]. *)
Lemma Rand_loop_spec (s : list F) :
  forall (mx t : list F) (ts : TrigSt) (g : Rng) (v : F),
  (length s <= length mx)%nat -> (length s <= length t)%nat ->
  exists out v' g' ts',
    Rand_loop isTrigger Float64 ts g v s mx t = Some (out, v', g', ts') /\
    length out = length s /\
    v' = last out v /\
    (forall i, (i < length s)%nat ->
       nth i (fired isTrigger ts t) false = false ->
       nth_error out i = nth_error (v :: out) i) /\
    (forall i si mi, nth i (fired isTrigger ts t) false = true ->
       nth_error s i = Some si -> nth_error mx i = Some mi ->
       exists gi, nth_error out i
                  = Some (si + fst (Float64 gi) * (mi - si))).
Proof.
  induction s as [|si s IH]; intros mx t ts g v Lm Lt.
  - exists [], v, g, ts. repeat split; auto.
    + intros i Hi. simpl in Hi. lia.
    + intros [|i] ? ? _ H; discriminate H.
  - destruct t as [|ti t]; [simpl in Lt; lia|].
    destruct mx as [|m mx]; [simpl in Lm; lia|].
    cbn [Rand_loop hd_error tl fired].
    destruct (isTrigger ts ti) as [f ts1].
    assert (Es : exists v1 g1, rand_step Float64 f si (Some m) v g
                               = Some (v1, g1) /\
                  (f = false -> v1 = v) /\
                  (f = true -> v1 = si + fst (Float64 g) * (m - si))).
    { destruct f.
      - rewrite rand_step_draw. eexists _, _. split; [reflexivity|].
        split; [discriminate | reflexivity].
      - rewrite rand_step_hold. exists v, g. split; [reflexivity|].
        split; [reflexivity | discriminate]. }
    destruct Es as (v1 & g1 & Es & Hh & Hd). rewrite Es.
    destruct (IH mx t ts1 g1 v1) as (out & v' & g' & ts' & E & L & La & Ho & Hf);
      try (simpl in *; lia).
    rewrite E. exists (v1 :: out), v', g', ts'.
    split; [reflexivity|]. split; [simpl; now rewrite L|]. split.
    { rewrite La. symmetry. apply last_cons_default. }
    split.
    + intros [|i] Hi Hn; cbn [nth nth_error] in *.
      * now rewrite (Hh Hn).
      * apply Ho; [simpl in Hi; lia | exact Hn].
    + intros [|i] si' mi Hn Hs Hm; cbn [nth nth_error] in *.
      * exists g. injection Hs as <-. injection Hm as <-.
        now rewrite (Hd Hn).
      * eapply Hf; eauto.
Qed.
End RandFacts.

(** C6, as the code has it.  In any arithmetic, [Rand.Process] on long
    enough secondary buffers returns; at every index without a trigger
    event the output is the value latched before it, so the output is
    constant between trigger events; at every index with a trigger
    event the new latched value is [min[i] + r * (max[i] - min[i])] for
    a draw [r] of the generator; and the value stored at the end is
    the last one written.  In binary64, with a generator whose draws
    are in [[0, 1)]: at every index with a trigger event where
    [min[i] <= max[i]] are finite and [max[i] - min[i]] does not
    overflow, the sample [Rand.Process] writes is in the closed
    interval [[min[i], max[i]]]. *)
Theorem Rand_hold_and_draw :
  (forall (F : Type) (ops : SampleOps F) (TrigSt : Type)
          (isTrigger : TrigSt -> F -> bool * TrigSt) (Rng : Type)
          (Float64 : Rng -> F * Rng) (s mx t : list F) (ts : TrigSt)
          (g : Rng) (v : F),
     (length s <= length mx)%nat -> (length s <= length t)%nat ->
     exists out v' g' ts',
       Rand_Process isTrigger Float64 ts g v s mx t
       = Some (out, v', g', ts') /\
       length out = length s /\
       v' = last out v /\
       (forall i, (i < length s)%nat ->
          nth i (fired isTrigger ts t) false = false ->
          nth_error out i = nth_error (v :: out) i) /\
       (forall i si mi, nth i (fired isTrigger ts t) false = true ->
          nth_error s i = Some si -> nth_error mx i = Some mi ->
          exists gi, nth_error out i
                     = Some (si + fst (Float64 gi) * (mi - si))%smp)) /\
  (forall (TrigSt : Type) (isTrigger : TrigSt -> float -> bool * TrigSt)
          (Rng : Type) (Float64 : Rng -> float * Rng)
          (s mx t : list float) (ts : TrigSt) (g : Rng) (v : float),
     (forall g0, in_half_open 0 1 (fst (Float64 g0)) = true) ->
     (length s <= length mx)%nat -> (length s <= length t)%nat ->
     exists out v' g' ts',
       Rand_Process isTrigger Float64 ts g v s mx t
       = Some (out, v', g', ts') /\
       (forall i si mi, nth i (fired isTrigger ts t) false = true ->
          nth_error s i = Some si -> nth_error mx i = Some mi ->
          is_finite si = true -> is_finite mi = true ->
          (si <=? mi)%float = true ->
          is_finite (mi - si)%float = true ->
          exists o, nth_error out i = Some o /\
                    in_range si mi o = true)).
Proof.
  split.
  - intros F ops TrigSt isTrigger Rng Float64 s mx t ts g v.
    apply Rand_loop_spec.
  - intros TrigSt isTrigger Rng Float64 s mx t ts g v Hr Lm Lt.
    destruct (@Rand_loop_spec _ _ _ isTrigger _ Float64 s mx t ts g v Lm Lt)
      as (out & v' & g' & ts' & E & _ & _ & _ & Hd).
    exists out, v', g', ts'. split; [exact E|].
    intros i si mi Hf Hs Hm Fs Fm Hle Fd.
    destruct (Hd i si mi Hf Hs Hm) as [gi Eo].
    eexists. split; [exact Eo|].
    apply draw_in_range; auto.
Qed.

(** C6 as stated fails in binary64 with [min = 1], [max = 2] and
    the draw [1 - 2^-53], the largest [rand.Float64] returns: the sum
    [1 + r * (2 - 1)] rounds to 2, the excluded bound.  It fails
    whenever [min > max], for which the interval is empty.  And with
    [min] and [max] the most negative and the largest finite numbers
    and the draw 1/2, [max - min] overflows and the sample is
    [+infinity], above [max]. *)
Lemma Rand_draw_reaches_max :
  ((0 <=? 0x1.fffffffffffffp-1) && (0x1.fffffffffffffp-1 <? 1))%float = true /\
  Rand_Process edge_isTrigger script_Float64 0%float
    [0x1.fffffffffffffp-1%float] 0%float [1%float] [2%float] [1%float]
  = Some ([2%float], 2%float, [], 1%float) /\
  in_half_open 1 2 2 = false /\
  Rand_Process edge_isTrigger script_Float64 0%float
    [0x1p-1%float] 0%float [1%float] [0%float] [1%float]
  = Some ([0x1p-1%float], 0x1p-1%float, [], 1%float) /\
  in_half_open 1 0 0x1p-1 = false /\
  Rand_Process edge_isTrigger script_Float64 0%float
    [0x1p-1%float] 0%float [(-0x1.fffffffffffffp+1023)%float]
    [0x1.fffffffffffffp+1023%float] [1%float]
  = Some ([infinity], infinity, [], 1%float) /\
  in_range (-0x1.fffffffffffffp+1023) 0x1.fffffffffffffp+1023 infinity
  = false.
Proof. repeat split; vm_compute; reflexivity. Qed.

Lemma Rand_hold_and_draw_witness :
  exists out v' g' ts',
    Rand_Process edge_isTrigger alt_Float64 0%float 0%nat 9%float
      [0; 0; 0; 1]%float [4; 4; 4; 2]%float [0; 1; 0; 1]%float
    = Some (out, v', g', ts') /\
    (forall i si mi,
       nth i (fired edge_isTrigger 0%float [0; 1; 0; 1]%float) false = true ->
       nth_error [0; 0; 0; 1]%float i = Some si ->
       nth_error [4; 4; 4; 2]%float i = Some mi ->
       is_finite si = true -> is_finite mi = true ->
       (si <=? mi)%float = true ->
       is_finite (mi - si)%float = true ->
       exists o, nth_error out i = Some o /\ in_range si mi o = true).
Proof.
  apply (proj2 Rand_hold_and_draw float edge_isTrigger nat alt_Float64).
  - intros g0. unfold alt_Float64. destruct (Nat.even g0); reflexivity.
  - simpl. lia.
  - simpl. lia.
Defined.

(** The block of the witness: the draws 1/4 and [1 - 2^-53] at the two
    rising edges give 1, in [[0, 4]], and 2, the upper bound of
    [[1, 2]]. *)
Example Rand_Process_alt_block :
  Rand_Process edge_isTrigger alt_Float64 0%float 0%nat 9%float
    [0; 0; 0; 1]%float [4; 4; 4; 2]%float [0; 1; 0; 1]%float
  = Some ([9; 1; 1; 2]%float, 2%float, 2%nat, 1%float).
Proof. vm_compute. reflexivity. Qed.

(** A block in binary64: the stored value 9 is held until the first
    trigger event (a rising edge at index 1), then each draw is held
    until the next edge. *)
Example Rand_Process_block :
  Rand_Process edge_isTrigger script_Float64 0%float
    [0x1p-2; 0x1p-1]%float 9%float
    [0; 0; 0; 0; 2; 2]%float [4; 4; 4; 4; 4; 4]%float
    [0; 1; 1; 0; 1; 1]%float
  = Some ([9; 1; 1; 1; 3; 3]%float, 3%float, [], 1%float).
Proof. vm_compute. reflexivity. Qed.

(* ================================================================== *)
(** * Oscillators: when [Process] returns, and how blocks compose *)

Section OscBlocks.
Context {F : Type} {ops : SampleOps F}.
Variable waveHz : F.
Variable Exp2 : F -> F.
Variable Sin : F -> F.
Variable Pi : F.
Variable TrigSt : Type.
Variable isTrigger : TrigSt -> F -> bool * TrigSt.

Local Abbreviation loop := (osc_loop isTrigger).

(** X1. [Square.Process] and [Sin.Process] return exactly when the
    pitch buffer is not empty and the trigger buffer is at least as
    long, and then write one sample per pitch sample; on an empty
    pitch buffer ([s[0]]) and on a shorter trigger buffer ([t[i]])
    they panic. *)
Theorem Square_Sin_Process_return_iff (pos : F) (ts : TrigSt)
    (s t : list F) :
  ((exists out pos' ts',
      Square_Process waveHz Exp2 isTrigger pos ts s t
        = Some (out, pos', ts') /\ length out = length s) <->
   s <> [] /\ (length s <= length t)%nat) /\
  ((exists out pos' ts',
      Sin_Process waveHz Exp2 Sin Pi isTrigger pos ts s t
        = Some (out, pos', ts') /\ length out = length s) <->
   s <> [] /\ (length s <= length t)%nat).
Proof.
  assert (G : forall step : F -> bool -> F -> osc -> osc * F,
    (exists out pos' ts',
       osc_Process Exp2 isTrigger step pos ts s t = Some (out, pos', ts') /\
       length out = length s) <->
    s <> [] /\ (length s <= length t)%nat).
  { intros step. unfold osc_Process. split.
    - intros (out & pos' & ts' & E & _).
      destruct s as [|s0 s']; [discriminate|]. split; [discriminate|].
      destruct (Nat.le_gt_cases (length (s0 :: s')) (length t)) as [H|H];
        [exact H|].
      rewrite (osc_loop_panics isTrigger step s0 (s0 :: s') t ts _ H) in E.
      discriminate.
    - intros [Hne Hlen]. destruct s as [|s0 s']; [contradiction|].
      destruct (osc_loop_total isTrigger step s0 (s0 :: s') t ts
                  (Osc pos (sampleToHz Exp2 s0)) Hlen)
        as (out & st' & ts' & E & L).
      rewrite E. exists out, (osc_p st'), ts'.
      split; [reflexivity | exact L]. }
  split; apply G.
Qed.

(** The Hz the loop holds after [s] is that of the most recent sample
    that differs from [lastS]. *)
Lemma hz_after_last_change (lastS : F) (s : list F) :
  forall hz0,
  hz_after Exp2 lastS hz0 s =
  last (map (sampleToHz Exp2) (filter (fun si => (si !=? lastS)%smp) s)) hz0.
Proof.
  unfold hz_after. induction s as [|si s IH]; intros hz0; [reflexivity|].
  cbn [fold_left filter]. rewrite IH. unfold pickHz.
  destruct (si !=? lastS)%smp; [|reflexivity].
  cbn [map]. symmetry. apply last_cons_default.
Qed.

Lemma last_map_default (A B : Type) (f : A -> B) (l : list A) (d : A) :
  last (map f l) (f d) = f (last l d).
Proof.
  induction l as [|a l IH]; [reflexivity|].
  destruct l as [|b l]; [reflexivity|]. exact IH.
Qed.

(** X2. The Hz with which both oscillators leave a block: it is the Hz
    of the most recent pitch sample that differs from the first sample
    of the block, and the Hz of the first sample when none differs.
    The pitch samples after that one, all equal to the first sample,
    do not count. *)
Theorem osc_hz_is_last_change (pos : F) (ts : TrigSt) (s0 : F)
    (s t : list F) :
  (length (s0 :: s) <= length t)%nat ->
  (exists out st ts',
     loop (square_step waveHz Exp2) s0 ts (Osc pos (sampleToHz Exp2 s0))
       (s0 :: s) t = Some (out, st, ts') /\
     osc_hz st = sampleToHz Exp2 (last_change s0 (s0 :: s))) /\
  (exists out st ts',
     loop (sin_step waveHz Exp2 Sin Pi) s0 ts (Osc pos (sampleToHz Exp2 s0))
       (s0 :: s) t = Some (out, st, ts') /\
     osc_hz st = sampleToHz Exp2 (last_change s0 (s0 :: s))).
Proof.
  intros Hlen. unfold last_change. rewrite <- last_map_default.
  rewrite <- hz_after_last_change. split.
  - destruct (osc_loop_total isTrigger (square_step waveHz Exp2) s0
                (s0 :: s) t ts (Osc pos (sampleToHz Exp2 s0)) Hlen)
      as (out & st & ts' & E & _).
    exists out, st, ts'. split; [exact E|].
    apply (osc_loop_hz Exp2 isTrigger (square_step waveHz Exp2) s0
             (square_step_hz waveHz Exp2 s0) (s0 :: s) t ts _ E).
  - destruct (osc_loop_total isTrigger (sin_step waveHz Exp2 Sin Pi) s0
                (s0 :: s) t ts (Osc pos (sampleToHz Exp2 s0)) Hlen)
      as (out & st & ts' & E & _).
    exists out, st, ts'. split; [exact E|].
    apply (osc_loop_hz Exp2 isTrigger (sin_step waveHz Exp2 Sin Pi) s0
             (sin_step_hz waveHz Exp2 Sin Pi s0) (s0 :: s) t ts _ E).
Qed.

(** With a constant pitch the Hz never changes. *)
Lemma hz_after_constant (c : F) (s : list F) :
  hz_after Exp2 c (sampleToHz Exp2 c) (Value_Process c s) = sampleToHz Exp2 c.
Proof.
  unfold hz_after, Value_Process.
  induction s as [|x s IH]; [reflexivity|].
  cbn [map fold_left]. unfold pickHz at 2.
  destruct (c !=? c)%smp; exact IH.
Qed.

Lemma Value_Process_app (c : F) (s1 s2 : list F) :
  Value_Process c (s1 ++ s2) = Value_Process c s1 ++ Value_Process c s2.
Proof. apply map_app. Qed.

Lemma Value_Process_length (c : F) (s : list F) :
  length (Value_Process c s) = length s.
Proof. apply length_map. Qed.

(** Two consecutive calls on a constant pitch are one call on the two
    blocks joined. *)
Lemma osc_Process_blocks (step : F -> bool -> F -> osc -> osc * F)
    (Hstep : forall lastS fire si st,
       osc_hz (fst (step lastS fire si st))
         = pickHz Exp2 lastS si (osc_hz st))
    (c pos : F) (ts : TrigSt) (b1 b2 t1 t2 : list F)
    (out1 out2 : list F) (pos1 pos2 : F) (ts1 ts2 : TrigSt) :
  length t1 = length b1 ->
  osc_Process Exp2 isTrigger step pos ts (Value_Process c b1) t1
    = Some (out1, pos1, ts1) ->
  osc_Process Exp2 isTrigger step pos1 ts1 (Value_Process c b2) t2
    = Some (out2, pos2, ts2) ->
  osc_Process Exp2 isTrigger step pos ts (Value_Process c (b1 ++ b2))
    (t1 ++ t2) = Some (out1 ++ out2, pos2, ts2).
Proof.
  intros Hlen E1 E2. unfold osc_Process in *.
  destruct b1 as [|x1 b1]; [discriminate|].
  destruct b2 as [|x2 b2]; [discriminate|].
  cbn [Value_Process map app] in *. fold (Value_Process c b1) in *.
  fold (Value_Process c b2) in *. fold (Value_Process c (b1 ++ x2 :: b2)).
  destruct (loop step c ts (Osc pos (sampleToHz Exp2 c))
              (c :: Value_Process c b1) t1) as [[[o1 st1] ts1']|] eqn:L1;
    [|discriminate].
  injection E1 as <- <- <-.
  destruct (loop step c ts1' (Osc (osc_p st1) (sampleToHz Exp2 c))
              (c :: Value_Process c b2) t2) as [[[o2 st2] ts2']|] eqn:L2;
    [|discriminate].
  injection E2 as <- <- <-.
  assert (Hhz : osc_hz st1 = sampleToHz Exp2 c).
  { rewrite (osc_loop_hz Exp2 isTrigger step c (Hstep c) _ _ _ _ L1).
    cbn [osc_hz]. apply (hz_after_constant c (x1 :: b1)). }
  assert (Hl : length (c :: Value_Process c b1) = length t1).
  { cbn [length] in *. rewrite Value_Process_length. lia. }
  rewrite Value_Process_app.
  change (c :: Value_Process c b1 ++ Value_Process c (x2 :: b2))
    with ((c :: Value_Process c b1) ++ (c :: Value_Process c b2)).
  rewrite (osc_loop_app isTrigger step c (c :: Value_Process c b1)
             (c :: Value_Process c b2) (t1 ++ t2) ts _ (out1:=o1)
             (st1:=st1) (ts1:=ts1')).
  - rewrite Hl, skipn_app, Nat.sub_diag, skipn_all. cbn [app skipn].
    destruct st1 as [p1 hz1]. cbn [osc_p osc_hz] in *. subst hz1.
    rewrite L2. reflexivity.
  - rewrite Hl, firstn_app, Nat.sub_diag, firstn_all. cbn [firstn].
    rewrite app_nil_r. exact L1.
Qed.

(** X3. Phase continuity across blocks.  On a constant pitch, as
    [Value.Process] writes it, processing a block and then the next one
    with the phase the first call stored gives the output, the phase
    and the trigger state of one call on the two blocks joined: the
    block size does not show in the wave.  This holds of
    [Square.Process] and of [Sin.Process], in any arithmetic. *)
Theorem osc_Process_constant_pitch_blocks (c pos : F) (ts : TrigSt)
    (b1 b2 t1 t2 : list F) :
  length t1 = length b1 ->
  (forall out1 out2 pos1 pos2 ts1 ts2,
   Square_Process waveHz Exp2 isTrigger pos ts (Value_Process c b1) t1
     = Some (out1, pos1, ts1) ->
   Square_Process waveHz Exp2 isTrigger pos1 ts1 (Value_Process c b2) t2
     = Some (out2, pos2, ts2) ->
   Square_Process waveHz Exp2 isTrigger pos ts (Value_Process c (b1 ++ b2))
     (t1 ++ t2) = Some (out1 ++ out2, pos2, ts2)) /\
  (forall out1 out2 pos1 pos2 ts1 ts2,
   Sin_Process waveHz Exp2 Sin Pi isTrigger pos ts (Value_Process c b1) t1
     = Some (out1, pos1, ts1) ->
   Sin_Process waveHz Exp2 Sin Pi isTrigger pos1 ts1 (Value_Process c b2) t2
     = Some (out2, pos2, ts2) ->
   Sin_Process waveHz Exp2 Sin Pi isTrigger pos ts
     (Value_Process c (b1 ++ b2)) (t1 ++ t2)
     = Some (out1 ++ out2, pos2, ts2)).
Proof.
  intros Hlen. split; intros out1 out2 pos1 pos2 ts1 ts2 E1 E2.
  - exact (osc_Process_blocks (square_step waveHz Exp2)
             (fun l => square_step_hz waveHz Exp2 l)
             c pos ts b1 b2 t1 t2 out1 out2 pos1 pos2 ts1 ts2 Hlen E1 E2).
  - exact (osc_Process_blocks (sin_step waveHz Exp2 Sin Pi)
             (fun l => sin_step_hz waveHz Exp2 Sin Pi l)
             c pos ts b1 b2 t1 t2 out1 out2 pos1 pos2 ts1 ts2 Hlen E1 E2).
Qed.
End OscBlocks.

Lemma osc_hz_is_last_change_witness :
  let s0 := 0%float in
  let s := [0x1p-3; 0; 0]%float in
  let t := [0; 1; 0; 1]%float in
  (exists out st ts',
     osc_loop edge_isTrigger (square_step 44100%float exp2_ref) s0 0%float
       (Osc 0%float (sampleToHz exp2_ref s0)) (s0 :: s) t
     = Some (out, st, ts') /\
     osc_hz st = sampleToHz exp2_ref (last_change s0 (s0 :: s))) /\
  (exists out st ts',
     osc_loop edge_isTrigger
       (sin_step 44100%float exp2_ref (fun x => x) 0x3p+0%float) s0 0%float
       (Osc 0%float (sampleToHz exp2_ref s0)) (s0 :: s) t
     = Some (out, st, ts') /\
     osc_hz st = sampleToHz exp2_ref (last_change s0 (s0 :: s))).
Proof.
  intros s0 s t.
  apply (osc_hz_is_last_change 44100%float exp2_ref (fun x => x)
           0x3p+0%float float edge_isTrigger 0%float 0%float s0 s t).
  simpl. lia.
Defined.

Lemma osc_Process_constant_pitch_blocks_witness :
  let c := 0%float in
  let b1 := [7; 7]%float in
  let b2 := [7; 7; 7]%float in
  let t1 := [0; 1]%float in
  let t2 := [1; 0; 1]%float in
  exists out1 out2 pos1 pos2 ts1 ts2,
    Square_Process 44100%float exp2_ref edge_isTrigger 0%float 0%float
      (Value_Process c b1) t1 = Some (out1, pos1, ts1) /\
    Square_Process 44100%float exp2_ref edge_isTrigger pos1 ts1
      (Value_Process c b2) t2 = Some (out2, pos2, ts2) /\
    Square_Process 44100%float exp2_ref edge_isTrigger 0%float 0%float
      (Value_Process c (b1 ++ b2)) (t1 ++ t2)
    = Some (out1 ++ out2, pos2, ts2).
Proof.
  intros c b1 b2 t1 t2.
  destruct (osc_Process_constant_pitch_blocks 44100%float exp2_ref
              (fun x => x) 0x3p+0%float float edge_isTrigger c 0%float
              0%float b1 b2 t1 t2 eq_refl) as [A _].
  destruct (Square_Process 44100%float exp2_ref edge_isTrigger 0%float
              0%float (Value_Process c b1) t1) as [[[out1 pos1] ts1]|] eqn:E1;
    [|vm_compute in E1; discriminate E1].
  destruct (Square_Process 44100%float exp2_ref edge_isTrigger pos1 ts1
              (Value_Process c b2) t2) as [[[out2 pos2] ts2]|] eqn:E2.
  - exists out1, out2, pos1, pos2, ts1, ts2.
    split; [reflexivity|]. split; [exact E2|].
    exact (A out1 out2 pos1 pos2 ts1 ts2 eq_refl E2).
  - vm_compute in E1. injection E1 as <- <- <-.
    vm_compute in E2. discriminate E2.
Defined.

(* ================================================================== *)
(** * Oscillators: a trigger event resynchronises the wave *)

Section OscSync.
Context {F : Type} {ops : SampleOps F}.
Variable waveHz : F.
Variable Exp2 : F -> F.
Variable Sin : F -> F.
Variable Pi : F.
Variable TrigSt : Type.
Variable isTrigger : TrigSt -> F -> bool * TrigSt.

(** Two runs of a loop that differ in the phase they start from agree
    from the first trigger event on. *)
Lemma osc_loop_resync (step : F -> bool -> F -> osc -> osc * F)
    (Hfire : forall lastS si p p' hz,
       step lastS true si (Osc p hz) = step lastS true si (Osc p' hz))
    (Hhz : forall lastS fire si st,
       osc_hz (fst (step lastS fire si st))
         = pickHz Exp2 lastS si (osc_hz st))
    (lastS : F) (k : nat) :
  forall (s t : list F) (ts : TrigSt) (p p' hz : F) out st1 ts1,
  nth k (fired isTrigger ts t) false = true -> (k < length s)%nat ->
  osc_loop isTrigger step lastS ts (Osc p hz) s t = Some (out, st1, ts1) ->
  exists out',
    osc_loop isTrigger step lastS ts (Osc p' hz) s t = Some (out', st1, ts1) /\
    skipn k out' = skipn k out.
Proof.
  induction k as [|k IH]; intros s t ts p p' hz out st1 ts1 Hn Hk E.
  - destruct s as [|si s]; [simpl in Hk; lia|].
    destruct t as [|ti t]; [discriminate|].
    cbn [osc_loop fired] in E, Hn |- *.
    destruct (isTrigger ts ti) as [fire ts2]. cbn [nth] in Hn. subst fire.
    rewrite (Hfire lastS si p' p hz). exists out. now rewrite E.
  - destruct s as [|si s]; [simpl in Hk; lia|].
    destruct t as [|ti t]; [discriminate|].
    cbn [osc_loop fired] in E, Hn |- *.
    destruct (isTrigger ts ti) as [fire ts2]. cbn [nth] in Hn.
    pose proof (Hhz lastS fire si (Osc p hz)) as H1.
    pose proof (Hhz lastS fire si (Osc p' hz)) as H2.
    destruct (step lastS fire si (Osc p hz)) as [[q h] o].
    destruct (step lastS fire si (Osc p' hz)) as [[q' h'] o'].
    cbn [fst osc_hz] in H1, H2. subst h h'.
    destruct (osc_loop isTrigger step lastS ts2
                (Osc q (pickHz Exp2 lastS si hz)) s t)
      as [[[out2 st2] ts3]|] eqn:E2; [|discriminate].
    injection E as <- <- <-.
    destruct (IH s t ts2 q q' (pickHz Exp2 lastS si hz) out2 st2 ts3 Hn)
      as (out' & E' & Hs);
      [simpl in Hk; lia | exact E2 |].
    rewrite E'. exists (o' :: out'). split; [reflexivity | exact Hs].
Qed.

(** X4. Hard sync.  A trigger event at sample [k] of a block makes
    both oscillators forget the phase carried in: two calls that
    differ only in that phase write the same samples from index [k]
    on and store the same phase and trigger state.  This holds in
    any arithmetic. *)
Theorem osc_trigger_resyncs (pos pos' : F) (ts : TrigSt) (s t : list F)
    (k : nat) :
  nth k (fired isTrigger ts t) false = true -> (k < length s)%nat ->
  (forall out p1 ts1,
     Square_Process waveHz Exp2 isTrigger pos ts s t = Some (out, p1, ts1) ->
     exists out',
       Square_Process waveHz Exp2 isTrigger pos' ts s t
       = Some (out', p1, ts1) /\ skipn k out' = skipn k out) /\
  (forall out p1 ts1,
     Sin_Process waveHz Exp2 Sin Pi isTrigger pos ts s t
     = Some (out, p1, ts1) ->
     exists out',
       Sin_Process waveHz Exp2 Sin Pi isTrigger pos' ts s t
       = Some (out', p1, ts1) /\ skipn k out' = skipn k out).
Proof.
  intros Hn Hk. unfold Square_Process, Sin_Process, osc_Process.
  destruct s as [|s0 s]; [simpl in Hk; lia|].
  split; intros out p1 ts1 E.
  - destruct (osc_loop isTrigger (square_step waveHz Exp2) s0 ts
                (Osc pos (sampleToHz Exp2 s0)) (s0 :: s) t)
      as [[[out1 st1] ts2]|] eqn:E1; [|discriminate].
    injection E as <- <- <-.
    destruct (osc_loop_resync (square_step waveHz Exp2)
                (fun _ _ _ _ _ => eq_refl)
                (fun l => square_step_hz waveHz Exp2 l)
                s0 k (s0 :: s) t ts pos pos' _ out1 st1 ts2 Hn Hk E1)
      as (out' & E' & Hs).
    rewrite E'. exists out'. split; [reflexivity | exact Hs].
  - destruct (osc_loop isTrigger (sin_step waveHz Exp2 Sin Pi) s0 ts
                (Osc pos (sampleToHz Exp2 s0)) (s0 :: s) t)
      as [[[out1 st1] ts2]|] eqn:E1; [|discriminate].
    injection E as <- <- <-.
    destruct (osc_loop_resync (sin_step waveHz Exp2 Sin Pi)
                (fun _ _ _ _ _ => eq_refl)
                (fun l => sin_step_hz waveHz Exp2 Sin Pi l)
                s0 k (s0 :: s) t ts pos pos' _ out1 st1 ts2 Hn Hk E1)
      as (out' & E' & Hs).
    rewrite E'. exists out'. split; [reflexivity | exact Hs].
Qed.
End OscSync.

Lemma osc_trigger_resyncs_witness :
  let s := [0; 0; 0; 0]%float in
  let t := [0; 0; 1; 0]%float in
  exists out out' p1 ts1,
    Square_Process 44100%float exp2_ref edge_isTrigger 20000%float 0%float
      s t = Some (out, p1, ts1) /\
    Square_Process 44100%float exp2_ref edge_isTrigger 30000%float 0%float
      s t = Some (out', p1, ts1) /\
    skipn 2 out' = skipn 2 out /\ out' <> out.
Proof.
  intros s t.
  assert (Hn : nth 2 (fired edge_isTrigger 0%float t) false = true)
    by (vm_compute; reflexivity).
  destruct (osc_trigger_resyncs 44100%float exp2_ref (fun x => x)
              0x3p+0%float float edge_isTrigger 20000%float 30000%float
              0%float s t 2 Hn) as [A _]; [simpl; lia|].
  destruct (Square_Process 44100%float exp2_ref edge_isTrigger 20000%float
              0%float s t) as [[[out p1] ts1]|] eqn:E;
    [|vm_compute in E; discriminate E].
  destruct (A out p1 ts1 eq_refl) as (out' & E' & Hs).
  exists out, out', p1, ts1. split; [reflexivity|]. split; [exact E'|].
  split; [exact Hs|].
  vm_compute in E. injection E as <- _ _.
  vm_compute in E'. injection E' as <- _ _. discriminate.
Defined.


(* ================================================================== *)
(** * Mul and Sum: panics, and the order of the inputs *)

Section CombinatorEdges.
Context {F : Type} {ops : SampleOps F}.

(** [zip_range] panics exactly when the second buffer is shorter. *)
Lemma zip_range_None (f : F -> F -> F) (s : list F) :
  forall m, zip_range f s m = None <-> (length m < length s)%nat.
Proof.
  induction s as [|si s IH]; intros m.
  - simpl. split; [discriminate | lia].
  - destruct m as [|mi m]; simpl.
    + split; [lia | reflexivity].
    + specialize (IH m). destruct (zip_range f s m).
      * split; [discriminate|]. intros H.
        assert (H' : (length m < length s)%nat) by lia.
        apply IH in H'. discriminate.
      * split; [|reflexivity]. intros _.
        assert (H' : (length m < length s)%nat) by now apply IH. lia.
Qed.

(** It reads only as many samples of the second buffer as the first
    one holds. *)
Lemma zip_range_firstn (f : F -> F -> F) (s : list F) :
  forall m, zip_range f s m = zip_range f s (firstn (length s) m).
Proof.
  induction s as [|si s IH]; intros m; [reflexivity|].
  destruct m as [|mi m]; [reflexivity|].
  cbn [length firstn zip_range]. now rewrite <- IH.
Qed.

(** With a commutative operation and buffers of one length, the two
    inputs can be exchanged. *)
Lemma zip_range_comm (f : F -> F -> F)
    (Hf : forall x y, f x y = f y x) (s : list F) :
  forall m, length s = length m -> zip_range f s m = zip_range f m s.
Proof.
  induction s as [|si s IH]; intros [|mi m] Hlen;
    try reflexivity; try discriminate.
  cbn [zip_range]. rewrite (IH m), (Hf si mi); [reflexivity|].
  simpl in Hlen. lia.
Qed.

(** X5. [Mul.Process] and [Sum.Process] panic exactly when the
    secondary input's buffer is shorter than the primary one's
    ([b[i]] out of range); when it is longer they read only its first
    [len(a)] samples. *)
Theorem Mul_Sum_Process_panic_iff (a b : list F) :
  (Mul_Process a b = None <-> (length b < length a)%nat) /\
  (Sum_Process a b = None <-> (length b < length a)%nat) /\
  Mul_Process a b = Mul_Process a (firstn (length a) b) /\
  Sum_Process a b = Sum_Process a (firstn (length a) b).
Proof.
  unfold Mul_Process, Sum_Process.
  split; [apply zip_range_None|]. split; [apply zip_range_None|].
  split; apply zip_range_firstn.
Qed.
End CombinatorEdges.

Section F64Commutative.

Lemma SFmul_comm (x y : spec_float) :
  SFmul prec emax x y = SFmul prec emax y x.
Proof.
  destruct x as [sx|sx| |sx mx ex], y as [sy|sy| |sy my ey];
    cbn [SFmul]; try reflexivity;
    try (now rewrite xorb_comm).
  now rewrite xorb_comm, Pos.mul_comm, Z.add_comm.
Qed.

Lemma SFadd_comm (x y : spec_float) :
  SFadd prec emax x y = SFadd prec emax y x.
Proof.
  destruct x as [sx|sx| |sx mx ex], y as [sy|sy| |sy my ey];
    cbn [SFadd]; try reflexivity;
    try (destruct sx, sy; reflexivity).
  rewrite (Z.min_comm ey ex).
  now rewrite Z.add_comm.
Qed.

Lemma f64_mul_comm (x y : float) : (x * y = y * x)%float.
Proof.
  apply Prim2SF_inj. rewrite !mul_spec. apply SFmul_comm.
Qed.

Lemma f64_add_comm (x y : float) : (x + y = y + x)%float.
Proof.
  apply Prim2SF_inj. rewrite !add_spec. apply SFadd_comm.
Qed.

(** X6. In binary64 the two inputs of [Sum] and of [Mul] can be
    exchanged: on buffers of one length the node computes the same
    binary64 values whichever input is the primary one, also where a
    sample is NaN, an infinity or a zero of either sign. *)
Theorem Mul_Sum_inputs_commute (a b : list float) :
  length a = length b ->
  Mul_Process a b = Mul_Process b a /\ Sum_Process a b = Sum_Process b a.
Proof.
  intros Hlen. unfold Mul_Process, Sum_Process. split.
  - apply (zip_range_comm (F:=float) PrimFloat.mul f64_mul_comm a b Hlen).
  - apply (zip_range_comm (F:=float) PrimFloat.add f64_add_comm a b Hlen).
Qed.
End F64Commutative.

Lemma Mul_Sum_inputs_commute_witness :
  let a := [0x1p-1; -3; nan; infinity]%float in
  let b := [2; 0x1p-2; 7; neg_infinity]%float in
  Mul_Process a b = Mul_Process b a /\ Sum_Process a b = Sum_Process b a.
Proof.
  intros a b. apply (Mul_Sum_inputs_commute a b). reflexivity.
Defined.

(* ================================================================== *)
(** * The phase of the oscillators stays in range, in binary64 *)

Section OscInvariant.
Context {F : Type} {ops : SampleOps F}.
Variable TrigSt : Type.
Variable isTrigger : TrigSt -> F -> bool * TrigSt.

(** What holds of the loop variables before a loop holds after it,
    when every iteration on a sample of the block keeps it. *)
Lemma osc_loop_invariant (I : osc -> Prop)
    (step : F -> bool -> F -> osc -> osc * F) (lastS : F) (s : list F) :
  forall (P : F -> Prop),
  (forall fire si st, P si -> I st -> I (fst (step lastS fire si st))) ->
  Forall P s ->
  forall t ts st out st' ts',
  I st ->
  osc_loop isTrigger step lastS ts st s t = Some (out, st', ts') -> I st'.
Proof.
  intros P Hstep. induction s as [|si s IH]; intros HP t ts st out st' ts' Hi E.
  - simpl in E. injection E as _ <- _. exact Hi.
  - destruct t as [|ti t]; [discriminate|].
    apply Forall_cons_iff in HP as [Hsi HP].
    simpl in E. destruct (isTrigger ts ti) as [fire ts1].
    pose proof (Hstep fire si st Hsi Hi) as H1.
    destruct (step lastS fire si st) as [st1 o]. cbn [fst] in H1.
    destruct (osc_loop isTrigger step lastS ts1 st1 s t)
      as [[[out1 st2] ts2]|] eqn:E1; [|discriminate].
    injection E as _ <- _. exact (IH HP t ts1 st1 out1 st2 ts2 H1 E1).
Qed.
End OscInvariant.

Section PhaseF64.
Local Open Scope R_scope.

(** A binary64 number between two finite ones is finite, and the real
    numbers they stand for are in the same order. *)
Lemma in_range_R (lo hi x : float) :
  is_finite lo = true -> is_finite hi = true ->
  in_range lo hi x = true ->
  is_finite x = true /\ f64R lo <= f64R x <= f64R hi.
Proof.
  intros Fl Fh H. unfold in_range in H. apply andb_true_iff in H as [A B].
  assert (Fx : is_finite x = true).
  { rewrite is_finite_SF in *. rewrite leb_spec in A, B.
    destruct (Prim2SF x) as [s|[|]| |s m e]; try reflexivity.
    - destruct (Prim2SF lo) as [s'|s'| |s' m' e']; try discriminate;
        cbn in A; discriminate.
    - destruct (Prim2SF hi) as [s'|s'| |s' m' e']; try discriminate;
        cbn in B; discriminate.
    - destruct (Prim2SF lo) as [s'|s'| |s' m' e']; cbn in A; discriminate. }
  split; [exact Fx|]. split.
  - now apply (f64_leb_R lo x Fl Fx).
  - now apply (f64_leb_R x hi Fx Fh).
Qed.

Lemma in_range_intro (lo hi x : float) :
  is_finite lo = true -> is_finite hi = true -> is_finite x = true ->
  f64R lo <= f64R x <= f64R hi -> in_range lo hi x = true.
Proof.
  intros Fl Fh Fx [A B]. unfold in_range. apply andb_true_iff. split.
  - now apply (f64_leb_R lo x Fl Fx).
  - now apply (f64_leb_R x hi Fx Fh).
Qed.

(** Twice a number of the format up to [2^1022] is of the format. *)
Lemma format_double (w : float) :
  0 <= f64R w <= pow2 1022 -> format (2 * f64R w).
Proof.
  intros [H0 H1]. destruct (f64_format w) as (M & E & Ew & HM & HE).
  rewrite Ew in *.
  destruct (Z.eq_dec E 971) as [->|Hne].
  - exists (2 * M)%Z, 971%Z. split.
    + unfold F2R. rewrite mult_IZR. ring.
    + split; [|lia].
      assert (M <= 2 ^ 51)%Z.
      { apply (F2R_le_inv _ _ 971). rewrite (F2R_pow2 51 971) by lia.
        exact H1. }
      assert (0 <= M)%Z.
      { apply (F2R_le_inv _ _ 971). now rewrite F2R_0. }
      lia.
  - exists M, (E + 1)%Z. split.
    + unfold F2R. rewrite pow2_add, pow2_1. ring.
    + split; [exact HM | lia].
Qed.

Lemma f64R_cst_0 : f64R (cst 0) = 0.
Proof. reflexivity. Qed.

Lemma f64R_cst_100 : f64R (cst 100) = 100.
Proof.
  assert (D : dyadic 0 100 (cst 100) = true) by (vm_compute; reflexivity).
  destruct (dyadic_R 0 100 (cst 100) D) as [_ ->].
  unfold F2R. rewrite pow2_0. ring.
Qed.

(** One iteration of [Square.Process] keeps the phase within
    [[0, waveHz]]: the sum is at most [2 waveHz], and one subtraction
    brings it back. *)
Lemma square_step_bounds_f64 (W : float) (Exp2 : float -> float)
    (lastS : float) (fire : bool) (si : float) (st : osc) :
  in_range 0 0x1p+1022 W = true ->
  in_range 0 W (sampleToHz Exp2 si) = true ->
  (in_range 0 W (osc_p st) = true /\ in_range 0 W (osc_hz st) = true) ->
  let st' := fst (square_step W Exp2 lastS fire si st) in
  in_range 0 W (osc_p st') = true /\ in_range 0 W (osc_hz st') = true.
Proof.
  intros HW Hsi [Hp Hhz]. unfold square_step, pickHz.
  cbn [osc_p osc_hz fst].
  set (hz := if (si !=? lastS)%smp then sampleToHz Exp2 si else osc_hz st).
  assert (Hh : in_range 0 W hz = true)
    by (subst hz; destruct (si !=? lastS)%smp; assumption).
  destruct (in_range_R 0 0x1p+1022 W eq_refl eq_refl HW) as [FW [W0 W1]].
  change (f64R 0) with 0 in W0.
  assert (E1022 : f64R 0x1p+1022 = pow2 1022).
  { assert (D : dyadic 970 (2 ^ 52) 0x1p+1022 = true)
      by (vm_compute; reflexivity).
    destruct (dyadic_R 970 (2 ^ 52) 0x1p+1022 D) as [_ ->].
    now rewrite (F2R_pow2 52 970) by lia. }
  rewrite E1022 in W1.
  set (p := if fire then cst 0 else osc_p st).
  assert (Hp' : in_range 0 W p = true).
  { subst p. destruct fire; [|exact Hp].
    apply in_range_intro; try reflexivity; [exact FW|].
    change (f64R 0) with 0. change (f64R (cst 0)) with 0. lra. }
  split; [|exact Hh].
  destruct (in_range_R 0 W p eq_refl FW Hp') as [Fp [P0 P1]].
  destruct (in_range_R 0 W hz eq_refl FW Hh) as [Fz [Z0 Z1]].
  change (f64R 0) with 0 in P0, Z0.
  destruct (f64_add_sandwich p hz 0 (2 * f64R W) Fp Fz format_0
              (format_double W (conj W0 W1)) ltac:(lra)) as [Fq [Q0 Q1]].
  cbn [f_gt f_add f_sub F64].
  destruct (W <? p + hz)%float eqn:L.
  - apply (f64_ltb_R W (p + hz) FW Fq) in L.
    destruct (f64_sub_sandwich (p + hz) W 0 (f64R W) Fq FW format_0
                (f64_format W) ltac:(lra)) as [Fr [R0 R1]].
    apply in_range_intro; try reflexivity; try assumption.
    change (f64R 0) with 0. lra.
  - assert (~ f64R W < f64R (p + hz)%float).
    { intros C. apply (f64_ltb_R W (p + hz) FW Fq) in C. congruence. }
    apply in_range_intro; try reflexivity; try assumption.
    change (f64R 0) with 0. lra.
Qed.

(** One iteration of [Sin.Process] keeps the phase within [[0, 100]]. *)
Lemma sin_step_bounds_f64 (W : float) (Exp2 Sin : float -> float)
    (Pi lastS : float) (fire : bool) (si : float) (st : osc) :
  in_range 0 100 (sampleToHz Exp2 si / W)%float = true ->
  (in_range 0 100 (osc_p st) = true /\
   in_range 0 100 (osc_hz st / W)%float = true) ->
  let st' := fst (sin_step W Exp2 Sin Pi lastS fire si st) in
  in_range 0 100 (osc_p st') = true /\
  in_range 0 100 (osc_hz st' / W)%float = true.
Proof.
  intros Hsi [Hp Hhz]. unfold sin_step, pickHz.
  cbn [osc_p osc_hz fst].
  set (hz := if (si !=? lastS)%smp then sampleToHz Exp2 si else osc_hz st).
  assert (Hh : in_range 0 100 (hz / W)%float = true)
    by (subst hz; destruct (si !=? lastS)%smp; assumption).
  set (p := if fire then cst 0 else osc_p st).
  assert (Hp' : in_range 0 100 p = true)
    by (subst p; destruct fire; [reflexivity | exact Hp]).
  split; [|exact Hh].
  assert (E100 : f64R 100 = 100) by exact f64R_cst_100.
  destruct (in_range_R 0 100 p eq_refl eq_refl Hp') as [Fp [P0 P1]].
  destruct (in_range_R 0 100 (hz / W)%float eq_refl eq_refl Hh)
    as [Fz [Z0 Z1]].
  change (f64R 0) with 0 in P0, Z0. rewrite E100 in P1, Z1.
  assert (F200 : format 200).
  { exists 200%Z, 0%Z. split; [unfold F2R; rewrite pow2_0; ring|].
    split; [reflexivity | lia]. }
  assert (F100 : format 100) by (rewrite <- E100; apply f64_format).
  destruct (f64_add_sandwich p (hz / W)%float 0 200 Fp Fz format_0 F200
              ltac:(lra)) as [Fq [Q0 Q1]].
  cbn [f_gt f_add f_sub f_div F64].
  change (cst 100) with 100%float.
  destruct (100 <? p + hz / W)%float eqn:L.
  - apply (f64_ltb_R 100 (p + hz / W) eq_refl Fq) in L. rewrite E100 in L.
    destruct (f64_sub_sandwich (p + hz / W) 100 0 100 Fq eq_refl format_0
                F100 ltac:(rewrite E100; lra)) as [Fr [R0 R1]].
    apply in_range_intro; try reflexivity; try assumption.
    change (f64R 0) with 0. rewrite E100. lra.
  - assert (~ 100 < f64R (p + hz / W)%float).
    { intros C. rewrite <- E100 in C.
      apply (f64_ltb_R 100 (p + hz / W) eq_refl Fq) in C. congruence. }
    apply in_range_intro; try reflexivity; try assumption.
    change (f64R 0) with 0. rewrite E100. lra.
Qed.

(** X8. The stored phase stays in range, in binary64, for every pitch
    buffer and every behaviour of the trigger.  With
    [0 <= waveHz <= 2^1022]: when the Hz of every pitch sample is
    within [[0, waveHz]], [Square.Process] takes a phase in
    [[0, waveHz]] to a phase in [[0, waveHz]].  When the phase
    increment [hz / waveHz] of every pitch sample is within
    [[0, 100]], [Sin.Process] takes a phase in [[0, 100]] to a phase
    in [[0, 100]].  One subtraction per sample is then enough to
    wrap, and the phase is never NaN or infinite. *)
Theorem osc_phase_stays_in_range (W : float) (Exp2 Sin : float -> float)
    (Pi : float) (TrigSt : Type)
    (isTrigger : TrigSt -> float -> bool * TrigSt)
    (pos : float) (ts : TrigSt) (s t : list float) :
  s <> [] -> (length s <= length t)%nat ->
  (in_range 0 0x1p+1022 W = true ->
   Forall (fun x => in_range 0 W (sampleToHz Exp2 x) = true) s ->
   in_range 0 W pos = true ->
   exists out pos' ts',
     Square_Process W Exp2 isTrigger pos ts s t = Some (out, pos', ts') /\
     in_range 0 W pos' = true) /\
  (Forall (fun x => in_range 0 100 (sampleToHz Exp2 x / W)%float = true) s ->
   in_range 0 100 pos = true ->
   exists out pos' ts',
     Sin_Process W Exp2 Sin Pi isTrigger pos ts s t = Some (out, pos', ts') /\
     in_range 0 100 pos' = true).
Proof.
  intros Hne Hlen. destruct s as [|s0 s]; [contradiction|].
  unfold Square_Process, Sin_Process, osc_Process. split.
  - intros HW Hs Hp.
    destruct (osc_loop_total isTrigger (square_step W Exp2) s0 (s0 :: s) t ts
                (Osc pos (sampleToHz Exp2 s0)) Hlen)
      as (out & st' & ts' & E & _).
    rewrite E. exists out, (osc_p st'), ts'. split; [reflexivity|].
    refine (proj1 (osc_loop_invariant TrigSt isTrigger
              (fun st => in_range 0 W (osc_p st) = true /\
                         in_range 0 W (osc_hz st) = true)
              (square_step W Exp2) s0 (s0 :: s) _ _ Hs t ts _ out st' ts' _ E)).
    + intros fire si st Hsi Hi. now apply square_step_bounds_f64.
    + cbn [osc_p osc_hz]. split; [exact Hp|].
      now apply Forall_cons_iff in Hs as [H0 _].
  - intros Hs Hp.
    destruct (osc_loop_total isTrigger (sin_step W Exp2 Sin Pi) s0 (s0 :: s)
                t ts (Osc pos (sampleToHz Exp2 s0)) Hlen)
      as (out & st' & ts' & E & _).
    rewrite E. exists out, (osc_p st'), ts'. split; [reflexivity|].
    refine (proj1 (osc_loop_invariant TrigSt isTrigger
              (fun st => in_range 0 100 (osc_p st) = true /\
                         in_range 0 100 (osc_hz st / W)%float = true)
              (sin_step W Exp2 Sin Pi) s0 (s0 :: s) _ _ Hs t ts _ out st' ts'
              _ E)).
    + intros fire si st Hsi Hi. now apply sin_step_bounds_f64.
    + cbn [osc_p osc_hz]. split; [exact Hp|].
      now apply Forall_cons_iff in Hs as [H0 _].
Qed.
End PhaseF64.

Lemma osc_phase_stays_in_range_witness :
  (exists out pos' ts',
      Square_Process 44100%float exp2_ref edge_isTrigger 44000%float 0%float
        [0; 0x1.999999999999ap-4; 0x1.999999999999ap-3]%float [0; 1; 0]%float
      = Some (out, pos', ts') /\
      in_range 0 44100 pos' = true) /\
  (exists out pos' ts',
      Sin_Process 44100%float exp2_ref (fun x => x) 0x1.921fb54442d18p+1%float
        edge_isTrigger 0x1.8ffffffffffffp+6%float 0%float
        [0; 0x1.999999999999ap-4; 0x1.999999999999ap-3]%float [0; 1; 0]%float
      = Some (out, pos', ts') /\
      in_range 0 100 pos' = true).
Proof.
  split.
  - apply (osc_phase_stays_in_range 44100%float exp2_ref (fun x => x)
             0x1.921fb54442d18p+1%float float edge_isTrigger 44000%float
             0%float [0; 0x1.999999999999ap-4; 0x1.999999999999ap-3]%float [0; 1; 0]%float).
    + discriminate.
    + simpl. lia.
    + vm_compute. reflexivity.
    + repeat (apply Forall_cons || apply Forall_nil); vm_compute; reflexivity.
    + vm_compute. reflexivity.
  - apply (osc_phase_stays_in_range 44100%float exp2_ref (fun x => x)
             0x1.921fb54442d18p+1%float float edge_isTrigger
             0x1.8ffffffffffffp+6%float
             0%float [0; 0x1.999999999999ap-4; 0x1.999999999999ap-3]%float [0; 1; 0]%float).
    + discriminate.
    + simpl. lia.
    + repeat (apply Forall_cons || apply Forall_nil); vm_compute; reflexivity.
    + vm_compute. reflexivity.
Defined.

(** The blocks of the witness: the square oscillator wraps at the
    first sample, from 44000 + 440 to 340, and restarts from 0 at the
    rising edge of sample 1. *)
Example Square_Process_wraps :
  Square_Process 44100%float exp2_ref edge_isTrigger 44000%float 0%float
    [0; 0x1.999999999999ap-4; 0x1.999999999999ap-3]%float [0; 1; 0]%float
  = Some ([1; 1; 1]%float, 2640%float, 0%float).
Proof. vm_compute. reflexivity. Qed.

(* ================================================================== *)
(** * The sine oscillator at a constant pitch *)

Section SinPhase.
Context {F : Type} {ops : SampleOps F}.
Variable W : F.
Variable Exp2 : F -> F.
Variable Sin : F -> F.
Variable Pi : F.
Variable TrigSt : Type.
Variable isTrigger : TrigSt -> F -> bool * TrigSt.
Local Open Scope sample_scope.

Lemma map_seq_shift (A : Type) (g : nat -> A) (n : nat) :
  map (fun k => g (S k)) (seq 0 n) = map g (seq 1 n).
Proof. now rewrite <- seq_shift, map_map. Qed.

Lemma sin_loop_constant (c : F) (n : nat) :
  let hz := sampleToHz Exp2 c in
  let next := fun p : F => p + hz / W in
  forall (t : list F) (ts : TrigSt) (p : F),
  firstn n (fired isTrigger ts t) = repeat false n ->
  (forall k, (0 < k <= n)%nat -> (Nat.iter k next p >? cst 100) = false) ->
  exists ts',
    osc_loop isTrigger (sin_step W Exp2 Sin Pi) c ts (Osc p hz) (repeat c n) t
    = Some (map (fun k => Sin (Nat.iter k next p * cst 2 * Pi)) (seq 0 n),
            Osc (Nat.iter n next p) hz, ts').
Proof.
  intros hz next. induction n as [|n IH]; intros t ts p Hf Hk.
  - exists ts. reflexivity.
  - destruct t as [|ti t]; [discriminate|].
    cbn [repeat osc_loop]. cbn [fired] in Hf.
    destruct (isTrigger ts ti) as [f ts1]. cbn [firstn repeat] in Hf.
    injection Hf as -> Hf.
    unfold sin_step at 1, pickHz. cbn [osc_p osc_hz].
    assert (Eh : (if c !=? c then sampleToHz Exp2 c else hz) = hz)
      by (destruct (c !=? c); reflexivity).
    rewrite Eh. fold hz.
    pose proof (Hk 1%nat ltac:(lia)) as H1. cbn [Nat.iter nat_rect] in H1.
    unfold next at 1 in H1. rewrite H1.
    destruct (IH t ts1 (p + hz / W) Hf) as [ts' E].
    { intros k Hk'. pose proof (Hk (S k) ltac:(lia)) as H.
      rewrite Nat.iter_succ_r in H. exact H. }
    assert (Em : map (fun k => Sin (Nat.iter k next (p + hz / W) * cst 2 * Pi))
                   (seq 0 n)
                 = map (fun k => Sin (Nat.iter k next p * cst 2 * Pi))
                     (seq 1 n)).
    { rewrite <- seq_shift, map_map. apply map_ext. intros k.
      now rewrite Nat.iter_succ_r. }
    assert (Ep : Nat.iter n next (p + hz / W) = Nat.iter (S n) next p)
      by (now rewrite Nat.iter_succ_r).
    rewrite E, Em, Ep. exists ts'. reflexivity.
Qed.

(** X10. The sine oscillator at a constant pitch, in any arithmetic.
    With [n > 0] copies of [c] in the pitch buffer and no trigger
    event, let [phase k] be the phase carried in after [k] additions
    of [hz / waveHz], each sum computed in the arithmetic of the
    samples.  While no [phase k] exceeds [100], sample [i] is
    [Sin (phase i * 2 * Pi)] and the phase stored is [phase n]: the
    phase is in cycles, advances by [hz / waveHz] per sample, and the
    sample is taken before the phase advances. *)
Theorem Sin_constant_pitch_phase (pos c : F) (ts : TrigSt) (t : list F)
    (n : nat) :
  let phase := fun k => Nat.iter k (fun p => p + sampleToHz Exp2 c / W) pos in
  (0 < n)%nat ->
  firstn n (fired isTrigger ts t) = repeat false n ->
  (forall k, (0 < k <= n)%nat -> (phase k >? cst 100) = false) ->
  exists ts',
    Sin_Process W Exp2 Sin Pi isTrigger pos ts (repeat c n) t
    = Some (map (fun k => Sin (phase k * cst 2 * Pi)) (seq 0 n),
            phase n, ts').
Proof.
  intros phase Hn Hf Hk. unfold Sin_Process, osc_Process.
  destruct n as [|n]; [lia|].
  destruct (sin_loop_constant c (S n) t ts pos Hf Hk) as [ts' El].
  cbn [repeat] in El |- *. rewrite El. exists ts'. reflexivity.
Qed.
End SinPhase.

Lemma Sin_constant_pitch_phase_witness :
  let phase := fun k =>
    Nat.iter k (fun p => p + sampleToHz exp2_ref 0%float / 44100%float)%smp
      0x1p-1%float in
  exists ts',
    Sin_Process 44100%float exp2_ref (fun x => x) 0x1.921fb54442d18p+1%float
      edge_isTrigger 0x1p-1%float 0%float (repeat 0%float 3)
      [0; 0; 0]%float
    = Some (map (fun k => (fun x => x)
                            (phase k * cst 2 * 0x1.921fb54442d18p+1%float)%smp)
              (seq 0 3),
            phase 3%nat, ts').
Proof.
  apply (Sin_constant_pitch_phase 44100%float exp2_ref (fun x => x)
           0x1.921fb54442d18p+1%float float edge_isTrigger
           0x1p-1%float 0%float 0%float [0; 0; 0]%float 3).
  - lia.
  - reflexivity.
  - intros [|[|[|[|k]]]] Hk; try lia; vm_compute; reflexivity.
Defined.

(* ================================================================== *)
(** * The envelope: the attack and the decay ramp *)

Section EnvRamps.
Context {F : Type} {ops : SampleOps F}.
Variable W : F.
Variable TrigSt : Type.
Variable isTrigger : TrigSt -> F -> bool * TrigSt.
Local Open Scope sample_scope.

Lemma firstn_repeat_cons (A : Type) (a : A) (n : nat) (l : list A) :
  firstn (S n) l = repeat a (S n) ->
  hd_error l = Some a /\ firstn n (tl l) = repeat a n.
Proof.
  destruct l as [|x l]; [discriminate|]. cbn [firstn repeat hd_error tl].
  intros H. injection H as -> H. split; [reflexivity | exact H].
Qed.

(** One sample of attack that the clamp leaves alone. *)
Lemma env_step_attack (fire : bool) (g a : F) (d : option F) (v : F) :
  (a >? cst 0) = true ->
  (v + cst 1 / (a * W * cst 10) >? cst 1) = false ->
  (v + cst 1 / (a * W * cst 10) <? cst 0) = false ->
  env_step W fire g (Some a) d (Env v true)
  = Some (Env (v + cst 1 / (a * W * cst 10)) true).
Proof.
  intros Ha H1 H0.
  unfold env_step, env_raw, env_select, env_attack, env_clamp.
  cbn [env_up env_v negb]. rewrite Ha. cbn [env_up env_v].
  now rewrite H1, H0.
Qed.

(** One sample of decay that the clamp leaves alone. *)
Lemma env_step_decay (g : F) (a : option F) (d v : F) :
  (d >? cst 0) = true -> (v <? g) = false -> (v >? g) = true ->
  (v - cst 1 / (d * W * cst 10) >? cst 1) = false ->
  (v - cst 1 / (d * W * cst 10) <? cst 0) = false ->
  env_step W false g a (Some d) (Env v false)
  = Some (Env (v - cst 1 / (d * W * cst 10)) false).
Proof.
  intros Hd Hl Hg H1 H0.
  unfold env_step, env_raw, env_select, env_attack, env_clamp.
  cbn [env_up env_v negb orb]. rewrite Hl, Hg, Hd. cbn [env_up env_v].
  now rewrite H1, H0.
Qed.

(** X12. The attack ramp, in any arithmetic.  While the envelope
    attacks with the attack rate [a > 0] at every sample, let
    [level k] be the level carried in after [k] additions of
    [1 / (a * waveHz * 10)], each computed in the arithmetic of the
    samples.  As long as no [level k] is above [1] or below [0], the
    samples written are [level 1 .. level n], the level stored is
    [level n] and the envelope stays in attack.  During the ramp the
    gate samples, the trigger and the decay buffer, which may be
    empty, have no influence. *)
Theorem Env_attack_ramp (a : F) (n : nat) (s att dec t : list F)
    (ts : TrigSt) (v : F) :
  let level := fun k => Nat.iter k (fun x => x + cst 1 / (a * W * cst 10)) v in
  (a >? cst 0) = true -> length s = n -> (n <= length t)%nat ->
  firstn n att = repeat a n ->
  (forall k, (0 < k <= n)%nat ->
     (level k >? cst 1) = false /\ (level k <? cst 0) = false) ->
  exists ts',
    Env_Process W isTrigger ts (Env v true) s att dec t
    = Some (map level (seq 1 n), Env (level n) true, ts').
Proof.
  intros level Ha. subst level. revert s att dec t ts v.
  induction n as [|n IH]; intros s att dec t ts v Hs Ht Hatt Hk.
  - destruct s; [|discriminate]. exists ts. reflexivity.
  - destruct s as [|g s]; [discriminate|].
    destruct t as [|ti t]; [simpl in Ht; lia|].
    apply firstn_repeat_cons in Hatt as [Ha0 Hatt].
    cbn [Env_Process]. destruct (isTrigger ts ti) as [fire ts1].
    destruct (Hk 1%nat ltac:(lia)) as [H1 H0]. cbn [Nat.iter nat_rect] in H1, H0.
    rewrite Ha0, (env_step_attack fire g a (hd_error dec) v Ha H1 H0).
    destruct (IH s (tl att) (tl dec) t ts1 (v + cst 1 / (a * W * cst 10)))
      as [ts' E];
      [simpl in Hs; lia | simpl in Ht; lia | exact Hatt | |].
    { intros k Hk'. pose proof (Hk (S k) ltac:(lia)) as H.
      rewrite Nat.iter_succ_r in H. exact H. }
    set (next := fun x => x + cst 1 / (a * W * cst 10)) in *.
    assert (Em : map (fun k => Nat.iter k next (next v)) (seq 1 n)
                 = map (fun k => Nat.iter k next v) (seq 2 n)).
    { rewrite <- (seq_shift n 1), map_map. apply map_ext. intros k.
      now rewrite Nat.iter_succ_r. }
    assert (Ep : Nat.iter n next (next v) = Nat.iter (S n) next v)
      by (now rewrite Nat.iter_succ_r).
    change (v + cst 1 / (a * W * cst 10)) with (next v) in E |- *.
    rewrite E, Em, Ep. exists ts'. reflexivity.
Qed.

(** X13. The decay ramp, in any arithmetic.  While the envelope is
    not attacking and no trigger event arrives, with the decay rate
    [d > 0] at every sample, let [level k] be the level carried in
    after [k] subtractions of [1 / (d * waveHz * 10)].  As long as
    each gate sample is below the level before it and no [level k]
    is above [1] or below [0], the samples written are
    [level 1 .. level n], the level stored is [level n] and the
    envelope does not enter attack.  The attack buffer, which may be
    empty, is not read. *)
Theorem Env_decay_ramp (d : F) (n : nat) (s att dec t : list F)
    (ts : TrigSt) (v : F) :
  let level := fun k => Nat.iter k (fun x => x - cst 1 / (d * W * cst 10)) v in
  (d >? cst 0) = true -> length s = n ->
  firstn n (fired isTrigger ts t) = repeat false n ->
  firstn n dec = repeat d n ->
  (forall k g, nth_error s k = Some g ->
     (level k <? g) = false /\ (level k >? g) = true) ->
  (forall k, (0 < k <= n)%nat ->
     (level k >? cst 1) = false /\ (level k <? cst 0) = false) ->
  exists ts',
    Env_Process W isTrigger ts (Env v false) s att dec t
    = Some (map level (seq 1 n), Env (level n) false, ts').
Proof.
  intros level Hd. subst level. revert s att dec t ts v.
  induction n as [|n IH]; intros s att dec t ts v Hs Hf Hdec Hg Hk.
  - destruct s; [|discriminate]. exists ts. reflexivity.
  - destruct s as [|g s]; [discriminate|].
    destruct t as [|ti t]; [discriminate|].
    apply firstn_repeat_cons in Hdec as [Hd0 Hdec].
    cbn [Env_Process]. cbn [fired] in Hf.
    destruct (isTrigger ts ti) as [fire ts1]. cbn [firstn repeat] in Hf.
    injection Hf as -> Hf.
    destruct (Hk 1%nat ltac:(lia)) as [H1 H0]. cbn [Nat.iter nat_rect] in H1, H0.
    destruct (Hg 0%nat g eq_refl) as [Hl Hgt]. cbn [Nat.iter nat_rect] in Hl, Hgt.
    rewrite Hd0, (env_step_decay g (hd_error att) d v Hd Hl Hgt H1 H0).
    destruct (IH s (tl att) (tl dec) t ts1 (v - cst 1 / (d * W * cst 10)))
      as [ts' E]; [simpl in Hs; lia | exact Hf | exact Hdec | | |].
    { intros k g' Hn. pose proof (Hg (S k) g' Hn) as H.
      rewrite Nat.iter_succ_r in H. exact H. }
    { intros k Hk'. pose proof (Hk (S k) ltac:(lia)) as H.
      rewrite Nat.iter_succ_r in H. exact H. }
    set (next := fun x => x - cst 1 / (d * W * cst 10)) in *.
    assert (Em : map (fun k => Nat.iter k next (next v)) (seq 1 n)
                 = map (fun k => Nat.iter k next v) (seq 2 n)).
    { rewrite <- (seq_shift n 1), map_map. apply map_ext. intros k.
      now rewrite Nat.iter_succ_r. }
    assert (Ep : Nat.iter n next (next v) = Nat.iter (S n) next v)
      by (now rewrite Nat.iter_succ_r).
    change (v - cst 1 / (d * W * cst 10)) with (next v) in E |- *.
    rewrite E, Em, Ep. exists ts'. reflexivity.
Qed.
End EnvRamps.

Lemma Env_attack_ramp_witness :
  let level := fun k =>
    Nat.iter k (fun x => x + cst 1 / (0x1p-10%float * 44100%float * cst 10))%smp
      0%float in
  exists ts',
    Env_Process 44100%float edge_isTrigger 0%float (Env 0%float true)
      [0; 1; -1]%float (repeat 0x1p-10%float 3) [] [0; 1; 0]%float
    = Some (map level (seq 1 3), Env (level 3%nat) true, ts').
Proof.
  apply (Env_attack_ramp 44100%float float edge_isTrigger 0x1p-10%float 3
           [0; 1; -1]%float (repeat 0x1p-10%float 3) [] [0; 1; 0]%float
           0%float 0%float).
  - reflexivity.
  - reflexivity.
  - simpl. lia.
  - reflexivity.
  - intros [|[|[|[|k]]]] Hk; try lia; split; vm_compute; reflexivity.
Defined.

Lemma Env_decay_ramp_witness :
  let level := fun k =>
    Nat.iter k (fun x => x - cst 1 / (0x1p-10%float * 44100%float * cst 10))%smp
      1%float in
  exists ts',
    Env_Process 44100%float edge_isTrigger 0%float (Env 1%float false)
      [0; 0; 0x1p-1]%float [] (repeat 0x1p-10%float 3) [0; 0; 0]%float
    = Some (map level (seq 1 3), Env (level 3%nat) false, ts').
Proof.
  apply (Env_decay_ramp 44100%float float edge_isTrigger 0x1p-10%float 3
           [0; 0; 0x1p-1]%float [] (repeat 0x1p-10%float 3) [0; 0; 0]%float
           0%float 1%float).
  - reflexivity.
  - reflexivity.
  - reflexivity.
  - reflexivity.
  - intros k g Hn.
    do 3 (destruct k as [|k];
          [injection Hn as <-; split; vm_compute; reflexivity|]).
    destruct k; discriminate.
  - intros [|[|[|[|k]]]] Hk; try lia; split; vm_compute; reflexivity.
Defined.

(** The two ramps of the witnesses, evaluated: from 0 up and from 1
    down in steps of [1 / (2^-10 * 44100 * 10)]. *)
Example Env_ramps_evaluated :
  Env_Process 44100%float edge_isTrigger 0%float (Env 0%float true)
    [0; 1; -1]%float (repeat 0x1p-10%float 3) [] [0; 1; 0]%float
  = Some ([0x1.30593d2a7f45fp-9; 0x1.30593d2a7f45fp-8;
           0x1.c885dbbfbee8ep-8]%float,
          Env 0x1.c885dbbfbee8ep-8%float true, 0%float).
Proof. vm_compute. reflexivity. Qed.

(* ================================================================== *)
(** * The envelope at rest *)

Section EnvRest.
Context {F : Type} {ops : SampleOps F}.
Variable waveHz : F.
Variable TrigSt : Type.
Variable isTrigger : TrigSt -> F -> bool * TrigSt.
Local Open Scope sample_scope.

(** X14. The envelope rests at the gate level.  While it is not
    attacking and no trigger event arrives, at a sample whose gate is
    neither above nor below the level (it equals the level, or it is
    NaN) the level is written unchanged, if it is within [[0, 1]]: a
    gate held at the level holds the envelope there, for any length
    of time.  The attack and decay buffers are not read and may be
    empty.  This holds in any arithmetic. *)
Theorem Env_rests_at_gate_level (v : F) (s att dec t : list F)
    (ts : TrigSt) :
  (v >? cst 1) = false -> (v <? cst 0) = false ->
  Forall (fun g => (v <? g) = false /\ (v >? g) = false) s ->
  firstn (length s) (fired isTrigger ts t) = repeat false (length s) ->
  exists ts',
    Env_Process waveHz isTrigger ts (Env v false) s att dec t
    = Some (repeat v (length s), Env v false, ts').
Proof.
  intros H1 H0. revert att dec t ts.
  induction s as [|g s IH]; intros att dec t ts Hg Hf.
  - exists ts. reflexivity.
  - destruct t as [|ti t]; [discriminate|].
    apply Forall_cons_iff in Hg as [[Hl Hgt] Hg].
    cbn [Env_Process]. cbn [fired length] in Hf.
    destruct (isTrigger ts ti) as [fire ts1]. cbn [firstn repeat] in Hf.
    injection Hf as -> Hf.
    unfold env_step, env_raw, env_select, env_attack, env_clamp.
    cbn [env_up env_v negb orb]. rewrite Hl, Hgt.
    cbn [env_up env_v]. rewrite H1, H0.
    destruct (IH (tl att) (tl dec) t ts1 Hg Hf) as (ts' & E).
    rewrite E. exists ts'. reflexivity.
Qed.
End EnvRest.

Lemma Env_rests_at_gate_level_witness :
  exists ts',
    Env_Process 44100%float edge_isTrigger 0%float (Env 0x1p-1%float false)
      [0x1p-1; nan; 0x1p-1]%float [] [] [0; 0; -1]%float
    = Some (repeat 0x1p-1%float 3, Env 0x1p-1%float false, ts').
Proof.
  apply (Env_rests_at_gate_level 44100%float float edge_isTrigger
           0x1p-1%float [0x1p-1; nan; 0x1p-1]%float [] [] [0; 0; -1]%float
           0%float).
  - reflexivity.
  - reflexivity.
  - repeat (apply Forall_cons || apply Forall_nil); split; reflexivity.
  - reflexivity.
Defined.

(* ================================================================== *)
(** * Rand: panics and the use of the generator *)

Section RandEdges.
Context {F : Type} {ops : SampleOps F}.
Variable TrigSt : Type.
Variable isTrigger : TrigSt -> F -> bool * TrigSt.
Variable Rng : Type.
Variable Float64 : Rng -> F * Rng.

Lemma draws_S (k : nat) (g : Rng) :
  draws Float64 (S k) g = draws Float64 k (snd (Float64 g)).
Proof. unfold draws. now rewrite Nat.iter_succ_r. Qed.

(** X15. [Rand.Process] returns exactly when the trigger buffer is at
    least as long as the block and every trigger event of the block
    falls at an index the [max] buffer holds: [max[i]] is read only
    at a trigger event, so without one the [max] buffer may even be
    empty. *)
Theorem Rand_Process_returns_iff (s : list F) :
  forall (mx t : list F) (ts : TrigSt) (g : Rng) (v : F),
  (exists r, Rand_Process isTrigger Float64 ts g v s mx t = Some r) <->
  (length s <= length t)%nat /\
  forall i, (i < length s)%nat ->
    nth i (fired isTrigger ts t) false = true -> (i < length mx)%nat.
Proof.
  unfold Rand_Process.
  induction s as [|si s IH]; intros mx t ts g v.
  - split.
    + intros _. split; [simpl; lia|]. intros i Hi. simpl in Hi. lia.
    + intros _. eexists. reflexivity.
  - destruct t as [|ti t].
    + split; [intros [r H]; discriminate | intros [H _]; simpl in H; lia].
    + cbn [Rand_loop fired length].
      destruct (isTrigger ts ti) as [fire ts1].
      destruct fire, mx as [|m mx]; cbn [rand_step hd_error tl].
      * split; [intros [r H]; discriminate|].
        intros [_ H]. specialize (H 0%nat). cbn [nth length] in H.
        assert (0 < 0)%nat by (apply H; [lia | reflexivity]). lia.
      * destruct (Float64 g) as [r g1].
        specialize (IH mx t ts1 g1 (f_add si (f_mul r (f_sub m si)))).
        destruct (Rand_loop isTrigger Float64 ts1 g1 _ s mx t)
          as [[[[out v2] g2] ts2]|].
        -- split; [|intros _; eexists; reflexivity].
           intros _. destruct IH as [IH _].
           destruct IH as [Hl Hi]; [eexists; reflexivity|].
           split; [lia|]. intros [|i] Hlt Hn; cbn [nth length] in *; [lia|].
           apply Nat.succ_lt_mono in Hlt. specialize (Hi i Hlt Hn). lia.
        -- split; [intros [r0 H]; discriminate|].
           intros [Hl Hi]. destruct IH as [_ IH].
           destruct IH as [r0 H]; [|discriminate].
           split; [lia|]. intros i Hlt Hn.
           specialize (Hi (S i)). cbn [nth length] in Hi.
           apply Nat.succ_lt_mono in Hlt.
           specialize (Hi Hlt Hn). lia.
      * specialize (IH [] t ts1 g v).
        destruct (Rand_loop isTrigger Float64 ts1 g v s [] t)
          as [[[[out v2] g2] ts2]|].
        -- split; [|intros _; eexists; reflexivity].
           intros _. destruct IH as [IH _].
           destruct IH as [Hl Hi]; [eexists; reflexivity|].
           split; [lia|]. intros [|i] Hlt Hn; cbn [nth length] in *;
             [discriminate|].
           apply Nat.succ_lt_mono in Hlt. specialize (Hi i Hlt Hn).
           simpl in Hi. lia.
        -- split; [intros [r0 H]; discriminate|].
           intros [Hl Hi]. destruct IH as [_ IH].
           destruct IH as [r0 H]; [|discriminate].
           split; [lia|]. intros i Hlt Hn.
           specialize (Hi (S i)). cbn [nth length] in Hi.
           apply Nat.succ_lt_mono in Hlt.
           specialize (Hi Hlt Hn). lia.
      * specialize (IH mx t ts1 g v).
        destruct (Rand_loop isTrigger Float64 ts1 g v s mx t)
          as [[[[out v2] g2] ts2]|].
        -- split; [|intros _; eexists; reflexivity].
           intros _. destruct IH as [IH _].
           destruct IH as [Hl Hi]; [eexists; reflexivity|].
           split; [lia|]. intros [|i] Hlt Hn; cbn [nth length] in *; [lia|].
           apply Nat.succ_lt_mono in Hlt. specialize (Hi i Hlt Hn). lia.
        -- split; [intros [r0 H]; discriminate|].
           intros [Hl Hi]. destruct IH as [_ IH].
           destruct IH as [r0 H]; [|discriminate].
           split; [lia|]. intros i Hlt Hn.
           specialize (Hi (S i)). cbn [nth length] in Hi.
           apply Nat.succ_lt_mono in Hlt.
           specialize (Hi Hlt Hn). lia.
Qed.

(** The generator after the loop. *)
Lemma Rand_loop_draws (s : list F) :
  forall (mx t : list F) (ts : TrigSt) (g : Rng) (v : F) out v' g' ts',
  Rand_loop isTrigger Float64 ts g v s mx t = Some (out, v', g', ts') ->
  g' = draws Float64
         (count_fired (firstn (length s) (fired isTrigger ts t))) g.
Proof.
  induction s as [|si s IH]; intros mx t ts g v out v' g' ts' E.
  - simpl in E. injection E as _ _ <- _. reflexivity.
  - destruct t as [|ti t]; [discriminate|].
    cbn [Rand_loop fired length] in E |- *.
    destruct (isTrigger ts ti) as [fire ts1].
    destruct (rand_step Float64 fire si (hd_error mx) v g)
      as [[v1 g1]|] eqn:Es; [|discriminate].
    destruct (Rand_loop isTrigger Float64 ts1 g1 v1 s (tl mx) t)
      as [[[[out1 v2] g2] ts2]|] eqn:El; [|discriminate].
    injection E as _ _ <- _.
    rewrite (IH _ _ _ _ _ _ _ _ _ El).
    unfold count_fired. cbn [firstn filter].
    unfold rand_step in Es. destruct fire.
    + destruct (hd_error mx) as [m|]; [|discriminate].
      cbn [length]. rewrite draws_S.
      destruct (Float64 g) as [r g0]. injection Es as _ <-. reflexivity.
    + injection Es as _ <-. reflexivity.
Qed.

(** X16. [Rand.Process] calls the generator once per trigger event of
    the block and never otherwise: the generator it leaves is the one
    it found advanced by as many draws as the block has trigger
    events.  A block without trigger event leaves the generator and
    the latched value untouched and writes that value at every
    sample. *)
Theorem Rand_one_draw_per_trigger (s mx t : list F) (ts : TrigSt)
    (g : Rng) (v : F) (out : list F) (v' : F) (g' : Rng) (ts' : TrigSt) :
  Rand_Process isTrigger Float64 ts g v s mx t = Some (out, v', g', ts') ->
  g' = draws Float64
         (count_fired (firstn (length s) (fired isTrigger ts t))) g /\
  (count_fired (firstn (length s) (fired isTrigger ts t)) = 0%nat ->
   out = repeat v (length s) /\ v' = v /\ g' = g).
Proof.
  intros E. split; [exact (Rand_loop_draws s mx t ts g v out v' g' ts' E)|].
  unfold Rand_Process in E. clear - E. revert mx t ts out v' g' ts' E.
  induction s as [|si s IH]; intros mx t ts out v' g' ts' E Hc.
  - simpl in E. injection E as <- <- <- _. repeat split.
  - destruct t as [|ti t]; [discriminate|].
    cbn [Rand_loop fired length] in E, Hc.
    destruct (isTrigger ts ti) as [fire ts1].
    unfold count_fired in Hc. cbn [firstn filter] in Hc.
    destruct fire; [discriminate|]. cbn [rand_step] in E.
    destruct (Rand_loop isTrigger Float64 ts1 g v s (tl mx) t)
      as [[[[out1 v2] g2] ts2]|] eqn:El; [|discriminate].
    injection E as <- <- <- _.
    destruct (IH (tl mx) t ts1 out1 v2 g2 ts2 El Hc) as (Eo & Ev & Eg).
    cbn [length repeat]. now rewrite Eo.
Qed.
End RandEdges.

Lemma Rand_one_draw_per_trigger_witness :
  [] = draws (F:=float) script_Float64
         (count_fired (firstn 6 (fired edge_isTrigger 0%float
                                   [0; 1; 1; 0; 1; 1]%float)))
         [0x1p-2; 0x1p-1]%float /\
  (count_fired (firstn 6 (fired edge_isTrigger 0%float
                            [0; 1; 1; 0; 1; 1]%float)) = 0%nat ->
   [9; 1; 1; 1; 3; 3]%float = repeat 9%float 6 /\ 3%float = 9%float /\
   [] = [0x1p-2; 0x1p-1]%float).
Proof.
  apply (Rand_one_draw_per_trigger float edge_isTrigger (list float)
           script_Float64
           [0; 0; 0; 0; 2; 2]%float [4; 4; 4; 4; 4; 4]%float
           [0; 1; 1; 0; 1; 1]%float 0%float [0x1p-2; 0x1p-1]%float 9%float
           [9; 1; 1; 1; 3; 3]%float 3%float [] 1%float).
  vm_compute. reflexivity.
Defined.

(* ================================================================== *)
(** * The fan-out mechanism: handles, the source and the buffers *)

Module DupFacts.
Import Fanout.

Section DupFacts.
Variable Sample : Type.
Variable zero : Sample.
Variable nSamples : nat.
Variable Proc : Type.
Variable Heap : Type.
Variable run : Proc -> Heap -> list Sample -> Heap * list Sample.

Local Abbreviation World := (World Sample Proc Heap).
Local Abbreviation op := (op Sample Proc).
Local Abbreviation step := (step zero nSamples run).
Local Abbreviation steps := (steps zero nSamples run).
Local Abbreviation reachable := (reachable zero nSamples run).
Local Abbreviation pull := (pull run).

(** An operation that is no pull evaluates nothing and leaves a clear
    flag clear. *)
Lemma step_no_pull (w : World) (c : op) :
  is_pull c = false ->
  log (fst (step w c)) = log w /\ heap (fst (step w c)) = heap w /\
  (done (dup w) = false -> done (dup (fst (step w c))) = false).
Proof.
  destruct c as [|p| |o p|o]; try discriminate; intros _;
    cbn [Fanout.step fst]; unfold on_dup; cbn [log heap dup];
    repeat split; auto.
  unfold Output_Close. destruct (index_of o (outs (dup w))); auto.
Qed.

Lemma steps_no_pull (cs : list op) :
  forall w : World,
  forallb (fun c => negb (is_pull c)) cs = true ->
  log (fst (steps w cs)) = log w /\ heap (fst (steps w cs)) = heap w /\
  (done (dup w) = false -> done (dup (fst (steps w cs))) = false).
Proof.
  induction cs as [|c cs IH]; intros w H; [repeat split; auto|].
  simpl in H. apply andb_true_iff in H as [Hc Hcs].
  apply negb_true_iff in Hc.
  destruct (step_no_pull w c Hc) as (L & Hh & D).
  cbn [Fanout.steps]. destruct (step w c) as [w1 r]. cbn [fst] in *.
  destruct (IH w1 Hcs) as (L1 & Hh1 & D1).
  destruct (steps w1 cs) as [w2 rs]. cbn [fst] in *.
  repeat split; try congruence. auto.
Qed.

(** A pull with the flag clear evaluates the source. *)
Lemma pull_evaluates (w : World) (o : Output) (p : list Sample) :
  done (dup w) = false ->
  let w' := fst (step w (OpProcess o p)) in
  log w' = src (dup w) :: log w /\ done (dup w') = true /\
  exists b, heap w' = fst (run (src (dup w)) (heap w) b).
Proof.
  intros D. cbn [Fanout.step]. unfold Output_Process. rewrite D.
  cbn [negb]. unfold Fanout.pull.
  destruct (length (outs (dup w)) =? 1)%nat.
  - destruct (run (src (dup w)) (heap w) p) as [h' r] eqn:E.
    cbn [fst log dup done heap]. split; [reflexivity|].
    split; [reflexivity|]. exists p. now rewrite E.
  - destruct (run (src (dup w)) (heap w) (scratch (dup w))) as [h' r] eqn:E.
    cbn [fst log dup done heap]. split; [reflexivity|].
    split; [reflexivity|]. exists (scratch (dup w)). now rewrite E.
Qed.

(** With the flag set, nothing but [Tick] changes the log, the heap
    or the flag. *)
Lemma step_done_frame (w : World) (c : op) :
  is_tick c = false -> done (dup w) = true ->
  log (fst (step w c)) = log w /\ heap (fst (step w c)) = heap w /\
  done (dup (fst (step w c))) = true.
Proof.
  destruct c as [|q| |o p|o]; try discriminate; intros _ D;
    cbn [Fanout.step fst]; unfold on_dup; cbn [log heap dup done];
    repeat split; auto.
  - unfold Output_Process. rewrite D. cbn [negb].
    now destruct (length (outs (dup w)) =? 1)%nat.
  - unfold Output_Process. rewrite D. cbn [negb].
    now destruct (length (outs (dup w)) =? 1)%nat.
  - unfold Output_Process. rewrite D. cbn [negb].
    now destruct (length (outs (dup w)) =? 1)%nat.
  - unfold Output_Close. now destruct (index_of o (outs (dup w))).
Qed.

Lemma steps_done_frame (cs : list op) :
  forall w : World,
  forallb (fun c => negb (is_tick c)) cs = true -> done (dup w) = true ->
  log (fst (steps w cs)) = log w /\ heap (fst (steps w cs)) = heap w /\
  done (dup (fst (steps w cs))) = true.
Proof.
  induction cs as [|c cs IH]; intros w H D; [repeat split; auto|].
  simpl in H. apply andb_true_iff in H as [Hc Hcs].
  apply negb_true_iff in Hc.
  destruct (step_done_frame w c Hc D) as (L & Hh & D1).
  cbn [Fanout.steps]. destruct (step w c) as [w1 r]. cbn [fst] in *.
  destruct (IH w1 Hcs D1) as (L1 & Hh1 & D2).
  destruct (steps w1 cs) as [w2 rs]. cbn [fst] in *.
  repeat split; congruence.
Qed.

Lemma steps_cons (w : World) (c : op) (cs : list op) :
  fst (steps w (c :: cs)) = fst (steps (fst (step w c)) cs).
Proof.
  cbn [Fanout.steps]. destruct (step w c) as [w1 r]. cbn [fst].
  now destruct (steps w1 cs).
Qed.

(** X17. Evaluation is lazy and happens exactly once.  After [Tick]
    the operations that are no pull evaluate nothing; the first
    [Output.Process] call of the tick, on whichever handle, calls the
    [Process] of the source then current, once, on the heap as the
    tick found it; and whatever follows up to the next [Tick] calls no
    upstream [Process] again. *)
Theorem Dup_first_pull_evaluates_source (w : World) (pre post : list op)
    (o : Output) (p : list Sample) :
  forallb (fun c => negb (is_pull c)) pre = true ->
  forallb (fun c => negb (is_tick c)) post = true ->
  let w1 := fst (steps w (OpTick :: pre)) in
  let w2 := fst (steps w (OpTick :: pre ++ OpProcess o p :: post)) in
  log w1 = log w /\ heap w1 = heap w /\
  log w2 = src (dup w1) :: log w /\
  exists b, heap w2 = fst (run (src (dup w1)) (heap w) b).
Proof.
  intros Hpre Hpost w1 w2.
  destruct (steps_no_pull (OpTick :: pre) w) as (L1 & H1 & D1);
    [exact Hpre|].
  fold w1 in L1, H1, D1.
  assert (D : done (dup w1) = false).
  { subst w1. rewrite steps_cons.
    destruct (steps_no_pull pre (fst (step w OpTick)) Hpre) as (_ & _ & D).
    apply D. reflexivity. }
  split; [exact L1|]. split; [exact H1|].
  assert (E : w2 = fst (steps (fst (step w1 (OpProcess o p))) post)).
  { subst w2 w1. change (OpTick :: pre ++ OpProcess o p :: post)
      with ((OpTick :: pre) ++ OpProcess o p :: post).
    rewrite (FanoutFacts.steps_app Sample zero nSamples Proc Heap run).
    cbn [fst]. apply steps_cons. }
  destruct (pull_evaluates w1 o p D) as (L2 & D2 & b & H2).
  cbn zeta in L2, D2, H2.
  destruct (steps_done_frame post (fst (step w1 (OpProcess o p))) Hpost D2)
    as (L3 & H3 & _).
  rewrite <- E in L3, H3. split; [congruence|].
  exists b. congruence.
Qed.

(** With one handle and the flag set, a pull changes nothing. *)
Lemma pulls_single_done (calls : list (Output * list Sample)) (w : World) :
  length (outs (dup w)) = 1%nat -> done (dup w) = true ->
  steps w (pulls_ops calls) = (w, map snd calls).
Proof.
  intros M D. induction calls as [|[o p] calls IH]; [reflexivity|].
  cbn [pulls_ops map fst snd Fanout.steps Fanout.step].
  unfold Output_Process. rewrite M, D. cbn [Nat.eqb negb].
  fold (@pulls_ops Sample Proc calls). now rewrite IH.
Qed.

(** X18. A single consumer is served without a copy.  With exactly
    one registered handle, the first pull of a tick has the source
    write straight into the caller's buffer and leaves the scratch
    buffer alone; every further pull of that tick returns with the
    caller's buffer untouched and evaluates nothing. *)
Theorem Dup_single_consumer_passthrough (w : World) (o : Output)
    (p : list Sample) (calls : list (Output * list Sample)) :
  length (outs (dup w)) = 1%nat ->
  let r := steps w (OpTick :: OpProcess o p :: pulls_ops calls) in
  snd r = snd (pull (src (dup w)) (heap w) p) :: map snd calls /\
  heap (fst r) = fst (pull (src (dup w)) (heap w) p) /\
  buf (dup (fst r)) = buf (dup w) /\
  log (fst r) = src (dup w) :: log w.
Proof.
  intros M. cbn [Fanout.steps Fanout.step].
  unfold Output_Process, on_dup, Tick. cbn [dup outs done src buf heap log].
  rewrite M. cbn [Nat.eqb negb].
  destruct (pull (src (dup w)) (heap w) p) as [h' r'].
  rewrite pulls_single_done; [|exact M | reflexivity].
  cbn [fst snd dup buf heap log]. repeat split.
Qed.

Lemma filter_absent (o : Output) (l : list Output) :
  ~ In o l -> filter (fun x => negb (x =? o)%nat) l = l.
Proof.
  induction l as [|a l IH]; intros H; [reflexivity|].
  cbn [filter]. destruct (a =? o)%nat eqn:E.
  - apply Nat.eqb_eq in E. subst a. exfalso. apply H. now left.
  - cbn [negb]. rewrite IH; [reflexivity|]. intros H'. apply H. now right.
Qed.

(** X19. [Output.Close] keeps the order of the remaining handles and
    can be repeated.  In every world a host can reach, the handles
    after [Close] are the handles before it without the closed one, in
    the same order; the source, the scratch buffer and the flag are
    untouched; and closing a handle that is not registered, so also
    closing one a second time, changes nothing. *)
Theorem Output_Close_order_and_repeat (w : World) (o : Output) :
  reachable w ->
  let d := Output_Close o (dup w) in
  outs d = filter (fun x => negb (x =? o)%nat) (outs (dup w)) /\
  src d = src (dup w) /\ buf d = buf (dup w) /\ done d = done (dup w) /\
  Output_Close o d = d.
Proof.
  intros R d.
  destruct (FanoutFacts.reachable_inv Sample zero nSamples Proc Heap run w R)
    as (_ & ND & _).
  destruct (in_dec Nat.eq_dec o (outs (dup w))) as [Hin | Hout].
  - destruct (FanoutFacts.Output_Close_outs Sample Proc o (dup w) Hin)
      as (l1 & l2 & El & N1 & Ec).
    subst d. rewrite Ec. cbn [outs src buf done].
    rewrite El in ND |- *.
    assert (N2 : ~ In o (l1 ++ l2)) by now apply NoDup_remove_2 in ND.
    split.
    + rewrite filter_app. cbn [filter]. rewrite Nat.eqb_refl. cbn [negb].
      rewrite <- filter_app. symmetry. now apply filter_absent.
    + repeat split.
      now apply (FanoutFacts.Output_Close_absent Sample Proc).
  - subst d.
    rewrite (FanoutFacts.Output_Close_absent Sample Proc o (dup w) Hout).
    split; [symmetry; now apply filter_absent|]. repeat split.
    now apply (FanoutFacts.Output_Close_absent Sample Proc).
Qed.

(** X20. [Dup.Output] registers a new handle.  In every world a host
    can reach, the handle returned is not among the registered ones
    and is appended after them, so the handles stay pairwise distinct;
    a scratch buffer that exists is kept as it is; one is allocated,
    [nSamples] zeros, exactly when the new handle is not the only one
    and none exists; and nothing is evaluated. *)
Theorem Dup_Output_registers (w : World) :
  reachable w ->
  let w' := fst (step w OpOutput) in
  outs (dup w') = outs (dup w) ++ [next w] /\
  ~ In (next w) (outs (dup w)) /\ NoDup (outs (dup w')) /\
  buf (dup w') =
    match buf (dup w), outs (dup w) with
    | Some b, _ => Some b
    | None, [] => None
    | None, _ :: _ => Some (repeat zero nSamples)
    end /\
  src (dup w') = src (dup w) /\ done (dup w') = done (dup w) /\
  log w' = log w /\ heap w' = heap w.
Proof.
  intros R w'.
  assert (R' : reachable w').
  { subst w'.
    replace (fst (step w OpOutput)) with (fst (steps w [OpOutput]))
      by reflexivity.
    now apply (FanoutFacts.reachable_steps Sample zero nSamples Proc Heap run). }
  destruct (FanoutFacts.reachable_inv Sample zero nSamples Proc Heap run w R)
    as (B & ND & Hlt).
  destruct (FanoutFacts.reachable_inv Sample zero nSamples Proc Heap run w' R')
    as (_ & ND' & _).
  subst w'. cbn [Fanout.step fst dup log heap] in *.
  unfold Dup_Output in *. cbn [outs buf src done] in *.
  split; [reflexivity|]. split.
  { intros Hin. rewrite Forall_forall in Hlt. specialize (Hlt _ Hin). lia. }
  split; [exact ND'|]. split; [|repeat split].
  rewrite length_app. cbn [length].
  unfold Fanout.buf_ok in B.
  destruct (buf (dup w)) as [b|], (outs (dup w)) as [|o1 l];
    cbn [length Nat.add Nat.ltb Nat.leb]; try reflexivity.
  - now destruct (length l + 1)%nat.
  - replace (length l + 1)%nat with (S (length l)) by lia. reflexivity.
Qed.

(** X21. [Output.Process] never resizes the caller's buffer; and with
    more than one handle, in every world a host can reach, it
    overwrites the first [nSamples] samples of the caller's buffer
    with the scratch buffer, or the whole buffer when it is shorter,
    and leaves the samples after them alone. *)
Theorem Output_Process_copy_bounds (w : World) (p : list Sample) :
  length (snd (Output_Process run p w)) = length p /\
  (reachable w -> (1 < length (outs (dup w)))%nat ->
   exists r,
     buf (dup (fst (Output_Process run p w))) = Some r /\
     length r = nSamples /\
     snd (Output_Process run p w)
     = firstn (length p) r ++ skipn nSamples p).
Proof.
  split.
  - unfold Output_Process.
    destruct (length (outs (dup w)) =? 1)%nat; destruct (done (dup w));
      cbn [negb snd].
    + reflexivity.
    + pose proof (FanoutFacts.pull_length Sample Proc Heap run
                    (src (dup w)) (heap w) p) as H.
      now destruct (pull (src (dup w)) (heap w) p).
    + apply copy_length.
    + destruct (pull (src (dup w)) (heap w) (scratch (dup w))).
      apply copy_length.
  - intros R M.
    destruct (FanoutFacts.reachable_inv Sample zero nSamples Proc Heap run w R)
      as (B & _ & _).
    unfold Fanout.buf_ok in B. destruct (buf (dup w)) as [b|] eqn:Eb; [|lia].
    unfold Output_Process.
    replace (length (outs (dup w)) =? 1)%nat with false
      by (symmetry; apply Nat.eqb_neq; lia).
    destruct (done (dup w)); cbn [negb].
    + exists b. cbn [fst snd]. unfold scratch. rewrite Eb.
      split; [reflexivity|]. split; [exact B|].
      unfold copy. now rewrite B.
    + unfold scratch. rewrite Eb.
      pose proof (FanoutFacts.pull_length Sample Proc Heap run
                    (src (dup w)) (heap w) b) as H.
      destruct (pull (src (dup w)) (heap w) b) as [h' r].
      cbn [fst snd dup buf] in *. exists r.
      split; [reflexivity|]. split; [congruence|].
      unfold copy. f_equal. f_equal. congruence.
Qed.

Lemma step_pull_src (w : World) (o : Output) (p : list Sample) :
  src (dup (fst (step w (OpProcess o p)))) = src (dup w).
Proof.
  cbn [Fanout.step]. unfold Output_Process.
  destruct (length (outs (dup w)) =? 1)%nat; destruct (done (dup w));
    cbn [negb fst]; try reflexivity.
  - now destruct (pull (src (dup w)) (heap w) p).
  - now destruct (pull (src (dup w)) (heap w) (scratch (dup w))).
Qed.

(** X22. [SetSource] in the middle of a tick is deferred.  A tick
    whose first pull came before [SetSource(q)] has evaluated the old
    source, and its later pulls evaluate nothing; the first pull of
    the next tick evaluates [q]. *)
Theorem SetSource_takes_effect_next_tick (w : World) (q : Proc)
    (o1 o2 o3 : Output) (p1 p2 p3 : list Sample) :
  let w1 := fst (steps w [OpTick; OpProcess o1 p1; OpSetSource q;
                          OpProcess o2 p2]) in
  let w2 := fst (steps w1 [OpTick; OpProcess o3 p3]) in
  log w1 = src (dup w) :: log w /\ src (dup w1) = q /\
  log w2 = q :: src (dup w) :: log w.
Proof.
  intros w1 w2.
  assert (T : forall w0 : World, forall o p,
            log (fst (steps w0 [OpTick; OpProcess o p]))
              = src (dup w0) :: log w0 /\
            done (dup (fst (steps w0 [OpTick; OpProcess o p]))) = true /\
            src (dup (fst (steps w0 [OpTick; OpProcess o p]))) = src (dup w0)).
  { intros w0 o p. rewrite !steps_cons. cbn [Fanout.steps fst].
    destruct (pull_evaluates (fst (step w0 OpTick)) o p eq_refl)
      as (L & D & _).
    cbn zeta in L, D. split; [exact L|]. split; [exact D|].
    now rewrite step_pull_src. }
  destruct (T w o1 p1) as (L0 & D0 & S0).
  assert (E1 : w1 = fst (steps (fst (steps w [OpTick; OpProcess o1 p1]))
                           [OpSetSource q; OpProcess o2 p2])).
  { subst w1.
    change [OpTick; OpProcess o1 p1; OpSetSource q; OpProcess o2 p2]
      with ([OpTick; OpProcess o1 p1] ++ [OpSetSource q; OpProcess o2 p2]).
    now rewrite (FanoutFacts.steps_app Sample zero nSamples Proc Heap run). }
  destruct (steps_done_frame [OpSetSource q; OpProcess o2 p2]
              (fst (steps w [OpTick; OpProcess o1 p1])) eq_refl D0)
    as (L1 & _ & _).
  rewrite <- E1 in L1.
  assert (S1 : src (dup w1) = q).
  { rewrite E1, !steps_cons. cbn [Fanout.steps fst].
    now rewrite step_pull_src. }
  split; [congruence|]. split; [exact S1|].
  destruct (T w1 o3 p3) as (L2 & _ & _). fold w2 in L2.
  rewrite L2, S1, L1, L0. reflexivity.
Qed.

Lemma steps_log_count (cs : list op) :
  forall w : World,
  forallb (fun c => negb (is_tick c)) cs = true -> done (dup w) = false ->
  length (log (fst (steps w cs)))
  = (length (log w) + (if existsb is_pull cs then 1 else 0))%nat.
Proof.
  induction cs as [|c cs IH]; intros w H D; [simpl; lia|].
  simpl in H. apply andb_true_iff in H as [Hc Hcs].
  rewrite steps_cons. cbn [existsb].
  destruct (is_pull c) eqn:P.
  - destruct c as [|q| |o p|o]; try discriminate. cbn [orb].
    destruct (pull_evaluates w o p D) as (L & D' & _). cbn zeta in L, D'.
    destruct (steps_done_frame cs (fst (step w (OpProcess o p))) Hcs D')
      as (L1 & _ & _).
    rewrite L1, L. cbn [length]. lia.
  - destruct (step_no_pull w c P) as (L & _ & D'). cbn [orb].
    rewrite (IH (fst (step w c)) Hcs (D' D)), L. reflexivity.
Qed.

(** X24. Over any number of ticks the source is evaluated once for
    each tick in which a handle is pulled, and in no other tick:
    whatever the operations of each tick are, on whichever handles,
    the number of upstream [Process] calls made is the number of
    ticks that contain an [Output.Process] call. *)
Theorem Dup_evaluations_count_ticks (ticks : list (list op)) :
  forall w : World,
  Forall (fun cs => forallb (fun c => negb (is_tick c)) cs = true) ticks ->
  length (log (fst (steps w (concat (map (cons OpTick) ticks)))))
  = (length (log w) + length (filter (existsb is_pull) ticks))%nat.
Proof.
  induction ticks as [|cs ticks IH]; intros w H; [simpl; lia|].
  apply Forall_cons_iff in H as [Hcs H].
  cbn [map concat filter].
  rewrite (FanoutFacts.steps_app Sample zero nSamples Proc Heap run).
  cbn [fst]. rewrite (IH _ H).
  change (OpTick :: cs) with ([OpTick] ++ cs).
  rewrite (FanoutFacts.steps_app Sample zero nSamples Proc Heap run).
  cbn [fst]. rewrite (steps_log_count cs (fst (steps w [OpTick])) Hcs eq_refl).
  change (log (fst (steps w [OpTick]))) with (log w).
  destruct (existsb is_pull cs); cbn [length]; lia.
Qed.
End DupFacts.

Lemma Dup_first_pull_evaluates_source_witness :
  let w := fst (steps 0%nat 4 ramp_run (init 7%nat 100%nat)
                  [OpOutput; OpOutput]) in
  let p := [9; 9; 9; 9]%nat in
  let pre := [OpSetSource 8%nat; OpOutput; OpTick; OpClose 0%nat] in
  let post := [OpProcess 1%nat p; OpSetSource 5%nat; OpProcess 2%nat p] in
  let w1 := fst (steps 0%nat 4 ramp_run w (OpTick :: pre)) in
  let w2 := fst (steps 0%nat 4 ramp_run w
                   (OpTick :: pre ++ OpProcess 2%nat p :: post)) in
  log w1 = log w /\ heap w1 = heap w /\
  log w2 = src (dup w1) :: log w /\
  exists b, heap w2 = fst (ramp_run (src (dup w1)) (heap w) b).
Proof.
  intros w p pre post.
  apply (Dup_first_pull_evaluates_source nat 0%nat 4 nat nat ramp_run w
           pre post 2%nat p); reflexivity.
Defined.

Lemma Dup_single_consumer_passthrough_witness :
  let w := fst (steps 0%nat 4 ramp_run (init 7%nat 100%nat) [OpOutput]) in
  let p := [9; 9; 9; 9]%nat in
  let q := [5; 6; 7; 8]%nat in
  let r := steps 0%nat 4 ramp_run w
             (OpTick :: OpProcess 0%nat p :: pulls_ops [(0%nat, q); (0%nat, p)])
  in
  snd r = snd (pull ramp_run (src (dup w)) (heap w) p)
          :: map snd [(0%nat, q); (0%nat, p)] /\
  heap (fst r) = fst (pull ramp_run (src (dup w)) (heap w) p) /\
  buf (dup (fst r)) = buf (dup w) /\
  log (fst r) = src (dup w) :: log w.
Proof.
  intros w p q.
  apply (Dup_single_consumer_passthrough nat 0%nat 4 nat nat ramp_run w
           0%nat p [(0%nat, q); (0%nat, p)]).
  reflexivity.
Defined.

Lemma Output_Close_order_and_repeat_witness :
  let w := fst (steps 0%nat 4 ramp_run (init 7%nat 100%nat)
                  [OpOutput; OpOutput; OpOutput; OpOutput]) in
  let d := Output_Close 1%nat (dup w) in
  outs d = filter (fun x => negb (x =? 1)%nat) (outs (dup w)) /\
  src d = src (dup w) /\ buf d = buf (dup w) /\ done d = done (dup w) /\
  Output_Close 1%nat d = d.
Proof.
  intros w.
  apply (Output_Close_order_and_repeat nat 0%nat 4 nat nat ramp_run w 1%nat).
  exists 7%nat, 100%nat, [OpOutput; OpOutput; OpOutput; OpOutput].
  reflexivity.
Defined.

Lemma Dup_Output_registers_witness :
  let w := fst (steps 0%nat 4 ramp_run (init 7%nat 100%nat)
                  [OpOutput; OpClose 0%nat; OpOutput]) in
  let w' := fst (step 0%nat 4 ramp_run w OpOutput) in
  outs (dup w') = outs (dup w) ++ [next w] /\
  ~ In (next w) (outs (dup w)) /\ NoDup (outs (dup w')) /\
  buf (dup w') =
    match buf (dup w), outs (dup w) with
    | Some b, _ => Some b
    | None, [] => None
    | None, _ :: _ => Some (repeat 0%nat 4)
    end /\
  src (dup w') = src (dup w) /\ done (dup w') = done (dup w) /\
  log w' = log w /\ heap w' = heap w.
Proof.
  intros w.
  apply (Dup_Output_registers nat 0%nat 4 nat nat ramp_run w).
  exists 7%nat, 100%nat, [OpOutput; OpClose 0%nat; OpOutput].
  reflexivity.
Defined.

Lemma Output_Process_copy_bounds_witness :
  let w := fst (steps 0%nat 4 ramp_run (init 7%nat 100%nat)
                  [OpOutput; OpOutput; OpTick]) in
  let p := [9; 9; 9; 9; 9; 9]%nat in
  exists r,
    buf (dup (fst (Output_Process ramp_run p w))) = Some r /\
    length r = 4%nat /\
    snd (Output_Process ramp_run p w) = firstn (length p) r ++ skipn 4 p.
Proof.
  intros w p.
  apply (proj2 (Output_Process_copy_bounds nat 0%nat 4 nat nat ramp_run w p)).
  - exists 7%nat, 100%nat, [OpOutput; OpOutput; OpTick]. reflexivity.
  - simpl. lia.
Defined.

Lemma Dup_evaluations_count_ticks_witness :
  let w := fst (steps 0%nat 4 ramp_run (init 7%nat 100%nat)
                  [OpOutput; OpOutput]) in
  let p := [9; 9; 9; 9]%nat in
  let ticks := [[OpProcess 0%nat p; OpProcess 1%nat p; OpProcess 0%nat p];
                [OpSetSource 8%nat; OpClose 1%nat];
                [OpProcess 0%nat p; OpOutput; OpProcess 2%nat p]] in
  length (log (fst (steps 0%nat 4 ramp_run w
                      (concat (map (cons OpTick) ticks)))))
  = (length (log w) + length (filter (existsb is_pull) ticks))%nat.
Proof.
  intros w p ticks.
  apply (Dup_evaluations_count_ticks nat 0%nat 4 nat nat ramp_run ticks w).
  repeat (apply Forall_cons || apply Forall_nil); reflexivity.
Defined.

(** A buffer longer than the block and one shorter, pulled through a
    [Dup] with two handles. *)
Example Output_Process_long_and_short :
  snd (steps 0%nat 4 ramp_run (init 7%nat 100%nat)
         [OpOutput; OpOutput; OpTick;
          OpProcess 0%nat [9; 9; 9; 9; 9; 9]%nat; OpProcess 1%nat [9; 9]%nat])
  = [[107; 108; 109; 110; 9; 9]; [107; 108]]%nat.
Proof. reflexivity. Qed.
End DupFacts.
